(** * Transaction lists, price heap and journal of the transaction pool

    A shallow embedding of [core/tx_list.go] and [core/tx_journal.go]:
    the nonce-sorted map [txSortedMap], the per-account list [txList], the
    price-sorted heap [txPricedList] and the rotating journal [txJournal],
    together with the part of Go's [container/heap] they run on. *)

From Stdlib Require Import ZArith NArith Lia ZifyNat Strings.Byte.
From stdpp Require Import prelude sorting gmap strings.

Local Open Scope Z_scope.
Local Open Scope nat_scope.

(** ** Machine integers

    [uint64] values are kept in [N] and [int] / [int64] values in [Z]; where
    the source does arithmetic on them, or converts between them, the
    wrap-around of the 64-bit representation is written out. *)

Definition wrap_int64 (z : Z) : Z := ((z + 2 ^ 63) mod 2 ^ 64 - 2 ^ 63)%Z.

(** The Go conversion [int64(x)] of an [x : uint64]. *)
Definition int64_of_uint64 (x : N) : Z := wrap_int64 (Z.of_N x).

(** Arithmetic on [uint64] is modulo [2 ^ 64]. *)
Definition wrap_uint64 (n : N) : N := (n mod 2 ^ 64)%N.

(** ** Transactions *)

(** Modelled from the spec: [types.Transaction], which is declared outside
    the two files and used through its read-only accessors only.  The spec's
    data model gives it as an immutable record exposing [hash], [nonce]
    (u64), [gasPrice] (bigint), [gas] (u64), [cost] and [sender]. *)
Record Transaction := mkTx {
  Hash : N;          (* common.Hash, a 32-byte digest *)
  Nonce : N;         (* uint64 *)
  GasPrice : Z;      (* *big.Int *)
  Gas : N;           (* uint64 *)
  Value : Z;         (* *big.Int *)
  Sender : N         (* common.Address, 20 bytes *)
}.

(** Modelled from the spec: [tx.Cost()], given there as
    [gas * gasPrice + value]. *)
Definition Cost (tx : Transaction) : Z :=
  (GasPrice tx * Z.of_N (Gas tx) + Value tx)%Z.

Global Instance Transaction_eq_dec : EqDecision Transaction.
Proof. solve_decision. Defined.

(** Modelled from the spec: [types.TxByNonce], the ordering that [Flatten]
    sorts with (the spec: sort by nonce ascending). *)
Definition TxByNonce (a b : Transaction) : Prop := (Nonce a ≤ Nonce b)%N.

Global Instance TxByNonce_dec : RelDecision TxByNonce.
Proof. intros a b. unfold TxByNonce. apply _. Defined.

(** A [*types.Transaction] may be [nil]; [types.Transactions] is a slice of
    such pointers. *)
Abbreviation txptr := (option Transaction).
Abbreviation Transactions := (list (option Transaction)).

(** ** container/heap

    The binary heap of Go's standard library, over a slice held as a list and
    an ordering [less] on its elements ([h.Less(i, j)] is [less] at the two
    positions).  Inside the package every access is below the length that the
    caller passes, so [Less] and [Swap] are given a value outside the slice
    only to be total. *)

Module heap.
Section ops.
Context {A : Type} (less : A → A → bool).

Definition Less (h : list A) (i j : nat) : bool :=
  match h !! i, h !! j with
  | Some a, Some b => less a b
  | _, _ => false
  end.

Definition Swap (h : list A) (i j : nat) : list A :=
  match h !! i, h !! j with
  | Some a, Some b => <[i:=b]> (<[j:=a]> h)
  | _, _ => h
  end.

(** The loop of [down]: the position [i] only grows and stays below [n],
    so [n] rounds are enough (see [down_loop_fuel]).  Returns the slice and
    the final position. *)
Fixpoint down_loop (fuel : nat) (h : list A) (i n : nat) : list A * nat :=
  match fuel with
  | 0 => (h, i)
  | S fuel =>
      let j1 := 2 * i + 1 in
      if n <=? j1 then (h, i)
      else
        let j := if (j1 + 1 <? n) && Less h (j1 + 1) j1 then j1 + 1 else j1 in
        if negb (Less h j i) then (h, i)
        else down_loop fuel (Swap h i j) j n
  end.

(** [down(h, i0, n)] reports whether the element moved. *)
Definition down (h : list A) (i0 n : nat) : list A * bool :=
  let '(h', i) := down_loop n h i0 n in (h', i0 <? i).

(** The loop of [up]: the position halves in every round, so [j + 1]
    rounds are enough (see [up_loop_fuel]).  [(j - 1) / 2] is [0] for
    [j = 0] in Go as well (division truncates towards zero), which ends the
    loop. *)
Fixpoint up_loop (fuel : nat) (h : list A) (j : nat) : list A :=
  match fuel with
  | 0 => h
  | S fuel =>
      let i := (j - 1) / 2 in
      if (i =? j) || negb (Less h j i) then h
      else up_loop fuel (Swap h i j) i
  end.

Definition up (h : list A) (j : nat) : list A := up_loop (S j) h j.

(** [for i := n/2 - 1; i >= 0; i-- { down(h, i, n) }] *)
Definition Init (h : list A) : list A :=
  let n := length h in
  foldl (λ h i, (down h i n).1) h (reverse (seq 0 (n / 2))).

Definition Push (h : list A) (x : A) : list A :=
  let h := h ++ [x] in
  up h (length h - 1).

(** The [Pop] method of the slice types: the last element and the rest. *)
Definition pop_last (h : list A) : option (A * list A) :=
  x ← last h; Some (x, take (length h - 1) h).

(** [heap.Pop]; on an empty heap [Swap(0, -1)] panics ([None]). *)
Definition Pop (h : list A) : option (A * list A) :=
  match h with
  | [] => None
  | _ =>
      let n := length h - 1 in
      let h := Swap h 0 n in
      let h := (down h 0 n).1 in
      pop_last h
  end.

(** [heap.Remove(h, i)]; an [i] outside the heap panics ([None]). *)
Definition Remove (h : list A) (i : nat) : option (A * list A) :=
  if length h <=? i then None
  else
    let n := length h - 1 in
    let h :=
      if n =? i then h
      else
        let h := Swap h i n in
        let '(h, moved) := down h i n in
        if moved then h else up h i
    in
    pop_last h.
End ops.
End heap.

(** ** Iteration over a Go map

    [for k, v := range m] visits every entry of [m] once, in an order that
    the language leaves open and that is drawn anew at every [range]
    statement.  The embedding takes the order as a parameter: any function
    listing a map's entries in some order.  An instance gives the orders
    drawn during one call (no function below ranges over the same map twice
    within a call); where a statement is about two calls that both range
    over a map, each call is given an instance of its own. *)

Class MapRange := {
  go_range : ∀ {K} `{Countable K} {V}, gmap K V → list (K * V);
  go_range_perm : ∀ {K} `{Countable K} {V} (m : gmap K V),
    go_range m ≡ₚ map_to_list m
}.

(** ** Allocation of a slice

    [make([]T, 0, n)] with a capacity [n] that the caller supplies panics
    when [n] is negative, and does not return either when [n] is beyond
    what the runtime can allocate; where that limit lies is left open by
    the language.  The embedding takes as a parameter which capacities the
    runtime grants: any test that refuses the negative ones.  (The
    allocations whose size the code fixes itself, or takes from the length
    of its own data, are taken to succeed.) *)

Class MakeSlice := {
  make_ok : Z → bool;
  make_ok_nonneg : ∀ n, make_ok n = true → (0 ≤ n)%Z
}.

(** ** txSortedMap *)

Module txSortedMap.
Record t := mk {
  items : gmap N Transaction;   (* map[uint64]*types.Transaction *)
  index : list N;               (* *nonceHeap *)
  cache : option Transactions   (* nil, or the transactions already sorted *)
}.

(** [nonceHeap.Less] *)
Definition nonce_less (a b : N) : bool := (a <? b)%N.

Definition newTxSortedMap : t :=
  {| items := ∅; index := []; cache := None |}.

Definition Get (m : t) (nonce : N) : txptr := items m !! nonce.

(** [Put] reads [tx.Nonce()] first, so it is never handed a nil pointer and
    [items] never holds one: [m.items[nonce] == nil] is absence. *)
Definition Put (m : t) (tx : Transaction) : t :=
  let nonce := Nonce tx in
  let index' :=
    match items m !! nonce with
    | None => heap.Push nonce_less (index m) nonce
    | Some _ => index m
    end in
  {| items := <[nonce := tx]> (items m); index := index'; cache := None |}.

(** The loop of [Forward].  Every round pops one nonce, so [len(index)]
    rounds are enough (see [Forward_loop_fuel]).  [heap.Pop] cannot fail
    here: the heap was just seen to have a first element. *)
Fixpoint Forward_loop (fuel : nat) (threshold : N) (its : gmap N Transaction)
    (idx : list N) (removed : Transactions)
    : gmap N Transaction * list N * Transactions :=
  match fuel with
  | 0 => (its, idx, removed)
  | S fuel =>
      match idx !! 0 with
      | Some k =>
          if (k <? threshold)%N then
            match heap.Pop nonce_less idx with
            | Some (nonce, idx') =>
                Forward_loop fuel threshold (delete nonce its) idx'
                  (removed ++ [its !! nonce])
            | None => (its, idx, removed)
            end
          else (its, idx, removed)
      | None => (its, idx, removed)
      end
  end.

(** [Forward]; [None] is the run-time panic of [m.cache[len(removed):]] on
    a cache shorter than [removed]. *)
Definition Forward (m : t) (threshold : N) : option (Transactions * t) :=
  let '(its, idx, removed) :=
    Forward_loop (length (index m)) threshold (items m) (index m) [] in
  match cache m with
  | None => Some (removed, {| items := its; index := idx; cache := None |})
  | Some c =>
      if length removed <=? length c then
        Some (removed,
              {| items := its; index := idx;
                 cache := Some (drop (length removed) c) |})
      else None
  end.

Section ranged.
Context {R : MapRange}.

(** The first loop of [Filter]: only the entry being visited is deleted,
    so the walk sees every entry of the map as it was at the start. *)
Definition Filter_scan (filter : Transaction → bool)
    (its : gmap N Transaction) : Transactions * gmap N Transaction :=
  foldl (λ '(removed, its') '(nonce, tx),
           if filter tx then (removed ++ [Some tx], delete nonce its')
           else (removed, its'))
        ([], its) (go_range its).

Definition Filter (m : t) (filter : Transaction → bool)
    : Transactions * t :=
  let '(removed, its) := Filter_scan filter (items m) in
  if 0 <? length removed then
    (removed,
     {| items := its;
        index := heap.Init nonce_less (go_range its).*1;
        cache := None |})
  else (removed, {| items := its; index := index m; cache := cache m |}).

(** [sort.Sort(types.TxByNonce(txs))]: the transactions in ascending order
    of nonce.  (Where two of them have the same nonce, Go's sort leaves
    their order open; this one keeps it.) *)
Definition sort_by_nonce (txs : list Transaction) : list Transaction :=
  merge_sort TxByNonce txs.

(** [Flatten] returns a copy of the cache, which it fills first when it is
    nil. *)
Definition Flatten (m : t) : Transactions * t :=
  match cache m with
  | Some c => (c, m)
  | None =>
      let c := Some <$> sort_by_nonce (go_range (items m)).*2 in
      (c, {| items := items m; index := index m; cache := Some c |})
  end.
End ranged.

(** The loop of [Cap], [size] running from [len(m.items)] down to
    [threshold + 1] over the sorted index; reading [index[size-1]] outside
    the slice panics ([None]). *)
Fixpoint Cap_loop (size : nat) (threshold : Z) (its : gmap N Transaction)
    (idx : list N) (drops : Transactions)
    : option (gmap N Transaction * Transactions) :=
  if (Z.of_nat size >? threshold)%Z then
    match size with
    | 0 => None
    | S size' =>
        nonce ← idx !! size';
        Cap_loop size' threshold (delete nonce its) idx
          (drops ++ [its !! nonce])
    end
  else Some (its, drops).

(** [sort.Sort] on a [nonceHeap]: the nonces in ascending order. *)
Definition sort_nonces (idx : list N) : list N := merge_sort N.le idx.

(** [Cap]; [None] is a run-time panic (an index or slice bound out of
    range).  When the loop has run without a panic, [threshold] is at least
    zero and below [len(index)], so [index[:threshold]] is a prefix. *)
Definition Cap (m : t) (threshold : Z) : option (Transactions * t) :=
  if (Z.of_nat (size (items m)) <=? threshold)%Z then Some ([], m)
  else
    let sorted := sort_nonces (index m) in
    '(its, drops) ← Cap_loop (size (items m)) threshold (items m) sorted [];
    let idx := heap.Init nonce_less (take (Z.to_nat threshold) sorted) in
    match cache m with
    | None => Some (drops, {| items := its; index := idx; cache := None |})
    | Some c =>
        if length drops <=? length c then
          Some (drops,
                {| items := its; index := idx;
                   cache := Some (take (length c - length drops) c) |})
        else None
    end.

(** [Remove]: the scan finds the first position holding [nonce], which lies
    inside the heap, so [heap.Remove] does not panic there. *)
Definition Remove (m : t) (nonce : N) : bool * t :=
  match items m !! nonce with
  | None => (false, m)
  | Some _ =>
      let idx :=
        match list_find (λ k, k = nonce) (index m) with
        | Some (i, _) =>
            default (index m) (snd <$> heap.Remove nonce_less (index m) i)
        | None => index m
        end in
      (true,
       {| items := delete nonce (items m); index := idx; cache := None |})
  end.

(** The loop of [Ready], [next] running up from the first nonce of the
    index.  Every round pops one nonce, so [len(index)] rounds are enough
    (see [Ready_loop_fuel]); the increment of [next] is one of [uint64].
    [heap.Pop] cannot fail here: the heap was just seen to have a first
    element. *)
Fixpoint Ready_loop (fuel : nat) (next : N) (its : gmap N Transaction)
    (idx : list N) (ready : Transactions)
    : gmap N Transaction * list N * Transactions :=
  match fuel with
  | 0 => (its, idx, ready)
  | S fuel =>
      match idx !! 0 with
      | Some k =>
          if (k =? next)%N then
            match heap.Pop nonce_less idx with
            | Some (_, idx') =>
                Ready_loop fuel (wrap_uint64 (next + 1)) (delete next its)
                  idx' (ready ++ [its !! next])
            | None => (its, idx, ready)
            end
          else (its, idx, ready)
      | None => (its, idx, ready)
      end
  end.

(** [Ready]: nothing is returned, and nothing changed, when the index is
    empty or its first nonce is above [start]; otherwise the cache is
    dropped. *)
Definition Ready (m : t) (start : N) : Transactions * t :=
  match index m !! 0 with
  | None => ([], m)
  | Some first =>
      if (start <? first)%N then ([], m)
      else
        let '(its, idx, ready) :=
          Ready_loop (length (index m)) first (items m) (index m) [] in
        (ready, {| items := its; index := idx; cache := None |})
  end.

Definition Len (m : t) : nat := size (items m).
End txSortedMap.

(** ** txList *)

Module txList.
Record t := mk {
  strict : bool;
  txs : txSortedMap.t;
  costcap : Z;     (* *big.Int *)
  gascap : N       (* uint64 *)
}.

Definition newTxList (strict : bool) : t :=
  {| strict := strict; txs := txSortedMap.newTxSortedMap;
     costcap := 0; gascap := 0 |}.

Definition with_txs (l : t) (m : txSortedMap.t) : t :=
  {| strict := strict l; txs := m; costcap := costcap l; gascap := gascap l |}.

Definition Overlaps (l : t) (tx : Transaction) : bool :=
  bool_decide (is_Some (txSortedMap.Get (txs l) (Nonce tx))).

(** [new(big.Int).Div(new(big.Int).Mul(old.GasPrice(),
    big.NewInt(100+int64(priceBump))), big.NewInt(100))]: the sum is taken
    in [int64]; [big.Int.Div] is Euclidean division, which for the divisor
    100 rounds down. *)
Definition bump_threshold (oldPrice : Z) (priceBump : N) : Z :=
  ((oldPrice * wrap_int64 (100 + int64_of_uint64 priceBump)) `div` 100)%Z.

Definition Add (l : t) (tx : Transaction) (priceBump : N)
    : bool * txptr * t :=
  let old := txSortedMap.Get (txs l) (Nonce tx) in
  let abort :=
    match old with
    | Some o =>
        let threshold := bump_threshold (GasPrice o) priceBump in
        (GasPrice o >=? GasPrice tx)%Z || (threshold >? GasPrice tx)%Z
    | None => false
    end in
  if abort then (false, None, l)
  else
    let cost := Cost tx in
    let gas := Gas tx in
    (true, old,
     {| strict := strict l;
        txs := txSortedMap.Put (txs l) tx;
        costcap := if (costcap l <? cost)%Z then cost else costcap l;
        gascap := if (gascap l <? gas)%N then gas else gascap l |}).

Definition Forward (l : t) (threshold : N) : option (Transactions * t) :=
  '(removed, m) ← txSortedMap.Forward (txs l) threshold;
  Some (removed, with_txs l m).

Definition Cap (l : t) (threshold : Z) : option (Transactions * t) :=
  '(drops, m) ← txSortedMap.Cap (txs l) threshold;
  Some (drops, with_txs l m).

(** [math.MaxUint64] *)
Definition MaxUint64 : N := (2 ^ 64 - 1)%N.

(** The lowest nonce among the removed transactions, starting from
    [math.MaxUint64].  The list comes from [txSortedMap.Filter], which
    returns stored transactions only, so the case of a nil pointer (on which
    [tx.Nonce()] would panic) does not occur there. *)
Definition lowest_nonce (removed : Transactions) : N :=
  foldl (λ lowest p,
           match p with
           | Some tx => if (Nonce tx <? lowest)%N then Nonce tx else lowest
           | None => lowest
           end)
        MaxUint64 removed.

Section ranged.
Context {R : MapRange}.

Definition Filter (l : t) (costLimit : Z) (gasLimit : N)
    : Transactions * Transactions * t :=
  if (costcap l <=? costLimit)%Z && (gascap l <=? gasLimit)%N
  then ([], [], l)
  else
    let '(removed, m) :=
      txSortedMap.Filter (txs l)
        (λ tx, (Cost tx >? costLimit)%Z || (gasLimit <? Gas tx)%N) in
    let '(invalids, m) :=
      if strict l && (0 <? length removed) then
        let lowest := lowest_nonce removed in
        txSortedMap.Filter m (λ tx, (lowest <? Nonce tx)%N)
      else ([], m) in
    (removed, invalids,
     {| strict := strict l; txs := m;
        costcap := costLimit; gascap := gasLimit |}).

Definition Remove (l : t) (tx : Transaction) : bool * Transactions * t :=
  let nonce := Nonce tx in
  let '(removed, m) := txSortedMap.Remove (txs l) nonce in
  if negb removed then (false, [], l)
  else if strict l then
    let '(invalids, m) :=
      txSortedMap.Filter m (λ tx, (nonce <? Nonce tx)%N) in
    (true, invalids, with_txs l m)
  else (true, [], with_txs l m).

Definition Flatten (l : t) : Transactions * t :=
  let '(flat, m) := txSortedMap.Flatten (txs l) in (flat, with_txs l m).
End ranged.

Definition Ready (l : t) (start : N) : Transactions * t :=
  let '(ready, m) := txSortedMap.Ready (txs l) start in (ready, with_txs l m).

Definition Len (l : t) : nat := txSortedMap.Len (txs l).
Definition Empty (l : t) : bool := Len l =? 0.
End txList.

(** ** txPricedList

    The field [all] points to the pool's map from hash to transaction, which
    the pool changes between calls; every operation that reads it takes the
    content of that map at the time of the call as its argument [all].  The
    set of local accounts, [accountSet], is declared in another file of the
    package; its method [containsTx] enters as the argument [local].  The
    heap only ever holds transactions that were pushed, none of them nil.
    [int] is taken to be 64 bits wide. *)

Module txPricedList.
Record t := mk {
  items : list Transaction;   (* *priceHeap *)
  stales : Z                  (* int *)
}.

(** [priceHeap.Less] *)
Definition price_less (a b : Transaction) : bool :=
  match (GasPrice a ?= GasPrice b)%Z with
  | Lt => true
  | Gt => false
  | Eq => (Nonce b <? Nonce a)%N
  end.

Definition newTxPricedList : t := {| items := []; stales := 0 |}.

Definition Put (l : t) (tx : Transaction) : t :=
  {| items := heap.Push price_less (items l) tx; stales := stales l |}.

(** The test that [tx.Hash()] has no entry in the pool's map. *)
Definition stale (all : gmap N Transaction) (tx : Transaction) : bool :=
  bool_decide (all !! Hash tx = None).

Section ranged.
Context {R : MapRange}.

Definition Removed (all : gmap N Transaction) (l : t) : t :=
  let stales' := wrap_int64 (stales l + 1) in
  if (stales' <=? Z.of_nat (length (items l)) `quot` 4)%Z then
    {| items := items l; stales := stales' |}
  else
    {| items := heap.Init price_less (go_range all).*2; stales := 0 |}.
End ranged.

(** The loop of [Cap]; every round pops, so [len(items)] rounds are enough
    (see [priced_Cap_loop_fuel]).  An empty heap ends the loop. *)
Fixpoint Cap_loop (fuel : nat) (all : gmap N Transaction) (threshold : Z)
    (local : Transaction → bool) (its : list Transaction) (st : Z)
    (drop save : list Transaction)
    : list Transaction * Z * list Transaction * list Transaction :=
  match fuel with
  | 0 => (its, st, drop, save)
  | S fuel =>
      match heap.Pop price_less its with
      | None => (its, st, drop, save)
      | Some (tx, its) =>
          if stale all tx then
            Cap_loop fuel all threshold local its (wrap_int64 (st - 1))
              drop save
          else if (GasPrice tx >=? threshold)%Z then
            (its, st, drop, save ++ [tx])
          else if local tx then
            Cap_loop fuel all threshold local its st drop (save ++ [tx])
          else
            Cap_loop fuel all threshold local its st (drop ++ [tx]) save
      end
  end.

(** [for _, tx := range save { heap.Push(l.items, tx) }] *)
Definition push_all (its save : list Transaction) : list Transaction :=
  foldl (heap.Push price_less) its save.

Definition Cap (all : gmap N Transaction) (l : t) (threshold : Z)
    (local : Transaction → bool) : list Transaction * t :=
  let '(its, st, drop, save) :=
    Cap_loop (length (items l)) all threshold local (items l) (stales l)
      [] [] in
  (drop, {| items := push_all its save; stales := st |}).

(** The loop of [Underpriced] that skims stale entries off the top; it
    pops in every round as well (see [skim_loop_fuel]). *)
Fixpoint skim_loop (fuel : nat) (all : gmap N Transaction)
    (its : list Transaction) (st : Z) : list Transaction * Z :=
  match fuel with
  | 0 => (its, st)
  | S fuel =>
      match its !! 0 with
      | Some head =>
          if stale all head then
            match heap.Pop price_less its with
            | Some (_, its') => skim_loop fuel all its' (wrap_int64 (st - 1))
            | None => (its, st)
            end
          else (its, st)
      | None => (its, st)
      end
  end.

Definition Underpriced (all : gmap N Transaction) (l : t) (tx : Transaction)
    (local : Transaction → bool) : bool * t :=
  if local tx then (false, l)
  else
    let '(its, st) := skim_loop (length (items l)) all (items l) (stales l) in
    let l' := {| items := its; stales := st |} in
    match its !! 0 with
    | None => (false, l')
    | Some cheapest => ((GasPrice cheapest >=? GasPrice tx)%Z, l')
    end.

(** The loop of [Discard], popping in every round (see
    [Discard_loop_fuel]).  [count] is positive where it is decremented, so
    the subtraction does not wrap. *)
Fixpoint Discard_loop (fuel : nat) (all : gmap N Transaction) (count : Z)
    (local : Transaction → bool) (its : list Transaction) (st : Z)
    (drop save : list Transaction)
    : list Transaction * Z * list Transaction * list Transaction :=
  match fuel with
  | 0 => (its, st, drop, save)
  | S fuel =>
      if (count >? 0)%Z then
        match heap.Pop price_less its with
        | None => (its, st, drop, save)
        | Some (tx, its) =>
            if stale all tx then
              Discard_loop fuel all count local its (wrap_int64 (st - 1))
                drop save
            else if local tx then
              Discard_loop fuel all count local its st drop (save ++ [tx])
            else
              Discard_loop fuel all (count - 1)%Z local its st
                (drop ++ [tx]) save
        end
      else (its, st, drop, save)
  end.

(** [Discard]: [make(types.Transactions, 0, count)] comes first, and
    panics ([None]) before the heap is touched when the runtime does not
    grant the capacity [count], as it never does for a negative one. *)
Definition Discard {M : MakeSlice} (all : gmap N Transaction) (l : t)
    (count : Z) (local : Transaction → bool)
    : option (list Transaction * t) :=
  if make_ok count then
    let '(its, st, drop, save) :=
      Discard_loop (length (items l)) all count local (items l) (stales l)
        [] [] in
    Some (drop, {| items := push_all its save; stales := st |})
  else None.
End txPricedList.

(** ** txJournal

    The journal lives in a file system, held here as the contents of the
    regular files by path.  The file system is taken to be reliable: an
    operation fails only where the file it needs is missing.  A writer opened
    on a path is named by that path (no handle is open across a rename in
    this file).

    The transaction encoding ([rlp.Encode], [rlp.Stream.Decode]) is declared
    elsewhere in the repository and enters as a parameter, and so does the
    pool behind the [add] callback of [load]. *)

Module txJournal.
(** What [journal.writer] can hold; nil is [None]. *)
Inductive sink :=
| devNull
| file (p : string).

Record t := mk {
  path : string;
  writer : option sink
}.

Abbreviation error := string.
Abbreviation filesys := (gmap string (list Byte.byte)).


Definition newTxJournal (path : string) : t :=
  {| path := path; writer := None |}.

(** One call of [stream.Decode]: a transaction and the rest of the input,
    the end of the input ([io.EOF]), or another error. *)
Inductive decoded :=
| Decoded (tx : Transaction) (rest : list Byte.byte)
| EOF
| Malformed (err : error).

(** What [load] leaves behind: the error it returns, the pool after the
    calls of [add], and the two counters it logs. *)
Record loaded (Pool : Type) := mkLoaded {
  failure : option error;
  pool : Pool;
  total : nat;
  dropped : nat
}.
Arguments mkLoaded {Pool}.
Arguments failure {Pool}.
Arguments pool {Pool}.
Arguments total {Pool}.
Arguments dropped {Pool}.

(** [os.OpenFile(p, O_WRONLY|O_CREATE|O_TRUNC, 0755)] *)
Definition create_trunc (p : string) (fs : filesys) : filesys :=
  <[p := []]> fs.

(** A write through a handle on [p]. *)
Definition append_file (p : string) (bs : list Byte.byte) (fs : filesys)
    : filesys :=
  <[p := default [] (fs !! p) ++ bs]> fs.

(** [os.Rename(src, dst)]; [None] when [src] does not exist. *)
Definition rename (src dst : string) (fs : filesys) : option filesys :=
  content ← fs !! src; Some (<[dst := content]> (delete src fs)).

Section codec.
Context (rlp_encode : Transaction → list Byte.byte).
Context (rlp_decode : list Byte.byte → decoded).

Section load.
Context {Pool : Type}.
Context (add : Pool → list Transaction → Pool * list (option error)).

(** The closure [loadBatch]. *)
Definition loadBatch (pl : Pool) (dr : nat) (txs : list Transaction)
    : Pool * nat :=
  let '(pl, errs) := add pl txs in
  (pl, dr + length (filter is_Some errs)).

(** The decoding loop of [load].  [None]: the rounds allowed did not
    reach the end of the input. *)
Fixpoint load_loop (fuel : nat) (input : list Byte.byte) (pl : Pool)
    (tot dr : nat) (batch : list Transaction) : option (loaded Pool) :=
  match fuel with
  | 0 => None
  | S fuel =>
      match rlp_decode input with
      | Decoded tx rest =>
          let batch := batch ++ [tx] in
          if 1024 <? length batch then
            let '(pl, dr) := loadBatch pl dr batch in
            load_loop fuel rest pl (S tot) dr []
          else load_loop fuel rest pl (S tot) dr batch
      | EOF =>
          let '(pl, dr) :=
            if 0 <? length batch then loadBatch pl dr batch
            else (pl, dr) in
          Some (mkLoaded None pl tot dr)
      | Malformed err =>
          let '(pl, dr) :=
            if 0 <? length batch then loadBatch pl dr batch
            else (pl, dr) in
          Some (mkLoaded (Some err) pl tot dr)
      end
  end.

(** [load]: a missing file is no error and leaves the journal as it
    is; otherwise the writer is [devNull] while the file is read and
    nil afterwards.  A decoded record takes at least one byte of the
    input, so one round per byte and a last one for its end are
    allowed. *)
Definition load (j : t) (fs : filesys) (pl : Pool)
    : option (loaded Pool * t) :=
  match fs !! path j with
  | None => Some (mkLoaded None pl 0 0, j)
  | Some input =>
      r ← load_loop (S (length input)) input pl 0 0 [];
      Some (r, {| path := path j; writer := None |})
  end.
End load.


Section ranged.
Context {R : MapRange}.

(** The transactions in the order in which [rotate] writes them:
    account by account as [range all] yields them. *)
Definition journaled (all : gmap N (list Transaction))
    : list Transaction :=
  mjoin (go_range all).*2.

(** [rotate]: the old writer is closed, the pool is written to
    [path + ".new"], and that file is renamed over [path] and reopened
    for appending. *)
Definition rotate (j : t) (fs : filesys) (all : gmap N (list Transaction))
    : option error * t * filesys :=
  let j := {| path := path j; writer := None |} in
  let new := (path j +:+ ".new")%string in
  let fs := create_trunc new fs in
  let fs :=
    foldl (λ fs tx, append_file new (rlp_encode tx) fs) fs
      (journaled all) in
  match rename new (path j) fs with
  | None => (Some "rename"%string, j, fs)
  | Some fs =>
      match fs !! path j with
      | None => (Some "open"%string, j, fs)
      | Some _ =>
          (None, {| path := path j; writer := Some (file (path j)) |}, fs)
      end
  end.
End ranged.

Definition close (j : t) : option error * t :=
  (None, {| path := path j; writer := None |}).
End codec.
End txJournal.

(** * Statements

    The notions the properties below are stated with. *)

(** ** The heap order *)

(** The exchange of two positions, as a map on positions. *)
Definition transpose (i j k : nat) : nat :=
  if decide (k = i) then j else if decide (k = j) then i else k.

Section heap_order.
Context {A : Type} (less : A → A → bool).

(** [a] is not after [b] in the ordering. *)
Definition not_after (a b : A) : Prop := less b a = false.

(** The first [n] positions of [h] are in heap order: no element is
    before its parent. *)
Definition heap_upto (h : list A) (n : nat) : Prop :=
  ∀ j a b, 0 < j < n → h !! j = Some a → h !! ((j - 1) / 2) = Some b →
    not_after b a.

Definition heap_ordered (h : list A) : Prop := heap_upto h (length h).

(** Heap order on the first [n] positions except around position [i],
    whose element may be after its children. *)
Definition hole_down (h : list A) (n i : nat) : Prop :=
  (∀ j a b, 0 < j < n → (j - 1) / 2 ≠ i →
     h !! j = Some a → h !! ((j - 1) / 2) = Some b → not_after b a)
  ∧ (∀ j a b, 0 < j < n → (j - 1) / 2 = i → 0 < i →
       h !! j = Some a → h !! ((i - 1) / 2) = Some b → not_after b a).

(** Heap order on the first [n] positions except at position [i], whose
    element may be before its parent. *)
Definition hole_up (h : list A) (n i : nat) : Prop :=
  (∀ j a b, 0 < j < n → j ≠ i →
     h !! j = Some a → h !! ((j - 1) / 2) = Some b → not_after b a)
  ∧ (∀ j a b, 0 < j < n → (j - 1) / 2 = i → 0 < i →
       h !! j = Some a → h !! ((i - 1) / 2) = Some b → not_after b a).

(** Heap order on the positions below [n] whose parent is at [lo] or after
    it: the trees rooted at the positions from [lo] on are heaps.  This is
    what [heap.Init] has built after the round for position [lo]. *)
Definition heap_from (lo : nat) (h : list A) (n : nat) : Prop :=
  ∀ j a b, 0 < j < n → lo ≤ (j - 1) / 2 →
    h !! j = Some a → h !! ((j - 1) / 2) = Some b → not_after b a.

(** The same with a hole at position [i], whose element may be after its
    children. *)
Definition hole_down_from (lo : nat) (h : list A) (n i : nat) : Prop :=
  (∀ j a b, 0 < j < n → lo ≤ (j - 1) / 2 → (j - 1) / 2 ≠ i →
     h !! j = Some a → h !! ((j - 1) / 2) = Some b → not_after b a)
  ∧ (∀ j a b, 0 < j < n → (j - 1) / 2 = i → 0 < i → lo ≤ (i - 1) / 2 →
       h !! j = Some a → h !! ((i - 1) / 2) = Some b → not_after b a).
End heap_order.

(** ** Nonce-sorted maps *)

(** The keys of a map in ascending order, and its transactions in that
    order: what [Flatten] caches (see [Flatten_spec]). *)
Definition sorted_nonces (its : gmap N Transaction) : list N :=
  merge_sort N.le (map_to_list its).*1.

Definition flattened (its : gmap N Transaction) : Transactions :=
  (λ k, its !! k) <$> sorted_nonces its.

(** Every transaction is stored under its own nonce. *)
Definition keyed_by_nonce (its : gmap N Transaction) : Prop :=
  map_Forall (λ k tx, Nonce tx = k) its.

(** The invariant of a nonce-sorted map: the index is a heap of the keys of
    [items], each once; every transaction is stored under its nonce; a
    cache that is present holds the transactions in ascending order of
    nonce. *)
Definition sorted_map_wf (m : txSortedMap.t) : Prop :=
  heap_ordered txSortedMap.nonce_less (txSortedMap.index m)
  ∧ txSortedMap.index m ≡ₚ (map_to_list (txSortedMap.items m)).*1
  ∧ keyed_by_nonce (txSortedMap.items m)
  ∧ ∀ c, txSortedMap.cache m = Some c → c = flattened (txSortedMap.items m).

(** Transactions in strictly ascending, or strictly descending, order of
    nonce. *)
Definition ascending (txs : list Transaction) : Prop :=
  StronglySorted (λ a b, (Nonce a < Nonce b)%N) txs.

Definition descending (txs : list Transaction) : Prop :=
  StronglySorted (λ a b, (Nonce b < Nonce a)%N) txs.

(** ** Account lists *)

(** The caps of an account list bound the cost and the gas of every stored
    transaction: what lets [Filter] return at once when both caps are within
    the limits. *)
Definition caps_dominate (l : txList.t) : Prop :=
  map_Forall (λ _ tx, (Cost tx ≤ txList.costcap l)%Z
                      ∧ (Gas tx ≤ txList.gascap l)%N)
    (txSortedMap.items (txList.txs l)).

(** The test of [Filter]: the transaction costs more than the balance or
    takes more gas than the block has. *)
Definition over_limits (costLimit : Z) (gasLimit : N) (tx : Transaction)
    : bool :=
  (Cost tx >? costLimit)%Z || (gasLimit <? Gas tx)%N.

(** ** The priced list *)

(** The entries of the price heap that the pool's map no longer has. *)
Definition stale_count (all : gmap N Transaction) (its : list Transaction)
    : nat :=
  length (filter (λ tx, txPricedList.stale all tx = true) its).

(** What one run of a scanning loop of the priced list does to the heap
    [its]: the entries that left it are the dropped ones (remote and in the
    pool), the saved ones (in the pool) and the stale ones it [skipped]. *)
Definition scanned (all : gmap N Transaction) (local : Transaction → bool)
    (its : list Transaction)
    (r : list Transaction * Z * list Transaction * list Transaction)
    (drop save : list Transaction) (skipped : list Transaction) : Prop :=
  ∃ d s,
    r.1.2 = drop ++ d ∧ r.2 = save ++ s
    ∧ its ≡ₚ r.1.1.1 ++ d ++ s ++ skipped
    ∧ Forall (λ tx, local tx = false ∧ txPricedList.stale all tx = false) d
    ∧ Forall (λ tx, txPricedList.stale all tx = false) s
    ∧ Forall (λ tx, txPricedList.stale all tx = true) skipped.

(** The bound on the stale counter, and a heap that was just rebuilt from
    the pool's map. *)
Definition stale_bound (l : txPricedList.t) : Prop :=
  (txPricedList.stales l
   ≤ Z.of_nat (length (txPricedList.items l)) `quot` 4)%Z.

Definition rebuilt (all : gmap N Transaction) (l : txPricedList.t) : Prop :=
  txPricedList.stales l = 0%Z
  ∧ txPricedList.items l ≡ₚ (map_to_list all).*2.

(** A scan that returned [r] (the dropped transactions and the list it
    left) from the list [l] without a rebuild: the heap has lost the
    dropped transactions and some stale entries, and nothing else has
    changed in it; the counter has gone down by the number of those stale
    entries. *)
Definition trimmed (all : gmap N Transaction) (l : txPricedList.t)
    (r : list Transaction * txPricedList.t) : Prop :=
  ∃ skipped,
    txPricedList.items l ≡ₚ txPricedList.items r.2 ++ r.1 ++ skipped
    ∧ Forall (λ tx, txPricedList.stale all tx = true) skipped
    ∧ txPricedList.stales r.2
      = (txPricedList.stales l - Z.of_nat (length skipped))%Z.

(** ** The journal *)

(** The file that holds the records of [txs], one after the other. *)
Definition records (rlp_encode : Transaction → list Byte.byte)
    (txs : list Transaction) : list Byte.byte :=
  mjoin (rlp_encode <$> txs).

(** The batches in which the loop of [load] hands a run of decoded
    transactions to [add], starting from a batch already collected: a batch
    goes out as soon as it holds more than 1024 transactions, and what is
    left goes out at the end. *)
Fixpoint batches_from (batch txs : list Transaction)
    : list (list Transaction) :=
  match txs with
  | [] => if 0 <? length batch then [batch] else []
  | tx :: txs =>
      let batch := batch ++ [tx] in
      if 1024 <? length batch then batch :: batches_from [] txs
      else batches_from batch txs
  end.

(** The pool and the count of refused transactions after the batches were
    handed to [add] one by one. *)
Definition delivered {Pool : Type}
    (add : Pool → list Transaction → Pool * list (option txJournal.error))
    (pl : Pool) (dr : nat) (batches : list (list Transaction)) : Pool * nat :=
  foldl (λ '(pl, dr) b, txJournal.loadBatch add pl dr b) (pl, dr) batches.


(** ** Concrete cases *)

(** One iteration order, to run the model on concrete cases. *)
Global Instance range_by_key : MapRange | 100 :=
  {| go_range K _ _ V m := map_to_list m;
     go_range_perm K _ _ V m := reflexivity (map_to_list m) |}.

(** One runtime, to run the model on concrete cases: it grants a slice of
    pointers of up to 2^45 entries (2^48 bytes). *)
Global Instance make_upto : MakeSlice | 100 :=
  {| make_ok n := (0 <=? n)%Z && (n <=? 2 ^ 45)%Z;
     make_ok_nonneg n H :=
       proj1 (Z.leb_le 0 n) (proj1 (andb_prop (0 <=? n)%Z _ H)) |}.

(** The transaction of the examples: nonce, gas price and gas are given,
    the hash follows the nonce and the price. *)
Definition tx_of (nonce : N) (price : Z) (gas : N) : Transaction :=
  {| Hash := nonce * 1000 + Z.to_N price; Nonce := nonce;
     GasPrice := price; Gas := gas; Value := 0; Sender := 7 |}.

(** A strict list holding one transaction: nonce 5 at gas price 100. *)
Definition list_with_5 : txList.t :=
  (txList.Add (txList.newTxList true) (tx_of 5 100 21000) 10).2.

(** A nonce-sorted map holding the nonces 1 to 4, the same map after
    [Flatten] has filled the cache, and a strict list over it. *)
Definition map_1234 : txSortedMap.t :=
  foldl txSortedMap.Put txSortedMap.newTxSortedMap
    [tx_of 3 30 21000; tx_of 1 10 21000; tx_of 4 40 21000; tx_of 2 20 21000].

Definition map_1234_cached : txSortedMap.t :=
  (txSortedMap.Flatten map_1234).2.

Definition list_1234 : txList.t :=
  {| txList.strict := true; txList.txs := map_1234;
     txList.costcap := 840000; txList.gascap := 21000 |}.

(** A nonce-sorted map with a gap after the nonces 1 and 2. *)
Definition map_125 : txSortedMap.t :=
  foldl txSortedMap.Put txSortedMap.newTxSortedMap
    [tx_of 5 50 21000; tx_of 1 10 21000; tx_of 2 20 21000].

(** The list over the nonces 1 to 4 when it is not strict, and a strict
    list whose second transaction is the dearest of three. *)
Definition list_1234_loose : txList.t :=
  {| txList.strict := false; txList.txs := map_1234;
     txList.costcap := 840000; txList.gascap := 21000 |}.

Definition list_123 : txList.t :=
  foldl (λ l tx, (txList.Add l tx 10).2) (txList.newTxList true)
    [tx_of 1 10 21000; tx_of 2 40 21000; tx_of 3 20 21000].

(** A priced list over five transactions of which the pool has dropped the
    dearest: they were put one by one, then the pool took the fifth out of
    its map and reported it with [Removed].  One stale entry, counted. *)
Definition pool_of_four : gmap N Transaction :=
  list_to_map ((λ tx, (Hash tx, tx)) <$>
    [tx_of 1 1 21000; tx_of 2 2 21000; tx_of 3 3 21000; tx_of 4 10 21000]).

Definition priced_five : txPricedList.t :=
  txPricedList.Removed pool_of_four
    (foldl txPricedList.Put txPricedList.newTxPricedList
       [tx_of 1 1 21000; tx_of 2 2 21000; tx_of 3 3 21000;
        tx_of 4 10 21000; tx_of 5 20 21000]).

(** The same five transactions when it is the cheapest that the pool has
    dropped: the stale entry is at the top of the heap. *)
Definition pool_without_cheapest : gmap N Transaction :=
  list_to_map ((λ tx, (Hash tx, tx)) <$>
    [tx_of 2 2 21000; tx_of 3 3 21000; tx_of 4 10 21000; tx_of 5 20 21000]).

Definition priced_five_top_stale : txPricedList.t :=
  txPricedList.Removed pool_without_cheapest
    (foldl txPricedList.Put txPricedList.newTxPricedList
       [tx_of 1 1 21000; tx_of 2 2 21000; tx_of 3 3 21000;
        tx_of 4 10 21000; tx_of 5 20 21000]).

(** A pool of two accounts for the journal. *)
Definition pool_of_two_accounts : gmap N (list Transaction) :=
  {[ 7%N := [tx_of 1 10 21000; tx_of 2 20 21000];
     9%N := [tx_of 5 50 21000] ]}.

(** A pool that records the batches it is handed, and takes them all. *)
Definition recording_add (pl : list (list Transaction))
    (txs : list Transaction)
    : list (list Transaction) * list (option txJournal.error) :=
  (pl ++ [txs], (λ _, None) <$> txs).

(** A transaction encoding to run the journal on: the transaction is
    numbered, and the binary digits of the number are written low end first,
    one byte each, the last one marked. *)
Global Instance Transaction_countable : Countable Transaction.
Proof.
  apply (inj_countable'
           (λ tx, (Hash tx, Nonce tx, GasPrice tx, Gas tx, Value tx, Sender tx))
           (λ '(h, n, p, g, v, s), mkTx h n p g v s)).
  by intros [].
Defined.

Fixpoint digits_encode (p : positive) : list Byte.byte :=
  match p with
  | xH => [Byte.x01]
  | xO p => Byte.x02 :: digits_encode p
  | xI p => Byte.x03 :: digits_encode p
  end.

Fixpoint digits_decode (bs : list Byte.byte)
    : option (positive * list Byte.byte) :=
  match bs with
  | Byte.x01 :: rest => Some (xH, rest)
  | Byte.x02 :: rest => '(p, rest) ← digits_decode rest; Some (xO p, rest)
  | Byte.x03 :: rest => '(p, rest) ← digits_decode rest; Some (xI p, rest)
  | _ => None
  end.

Definition digits_rlp_encode (tx : Transaction) : list Byte.byte :=
  digits_encode (encode tx).

Definition digits_rlp_decode (bs : list Byte.byte) : txJournal.decoded :=
  match bs with
  | [] => txJournal.EOF
  | _ =>
      match digits_decode bs with
      | Some (p, rest) =>
          match decode p with
          | Some tx => txJournal.Decoded tx rest
          | None => txJournal.Malformed "not a transaction"
          end
      | None => txJournal.Malformed "unexpected end of record"
      end
  end.

(** * Proofs *)

(** ** Machine integers *)

Lemma wrap_int64_small (z : Z) :
  (- 2 ^ 63 ≤ z < 2 ^ 63)%Z → wrap_int64 z = z.
Proof.
  intros Hz. unfold wrap_int64.
  rewrite Z.mod_small by lia. lia.
Qed.

Lemma int64_of_uint64_small (x : N) :
  (Z.of_N x < 2 ^ 63)%Z → int64_of_uint64 x = Z.of_N x.
Proof. intros Hx. apply wrap_int64_small. lia. Qed.

Lemma bump_factor_small (priceBump : N) :
  (100 + Z.of_N priceBump < 2 ^ 63)%Z →
  wrap_int64 (100 + int64_of_uint64 priceBump) = (100 + Z.of_N priceBump)%Z.
Proof.
  intros Hb. rewrite int64_of_uint64_small by lia.
  apply wrap_int64_small. lia.
Qed.

(** Rounding down to a whole number of hundredths, without a division. *)
Lemma floor_div_100_le (x p : Z) :
  (x `div` 100 ≤ p ↔ x ≤ p * 100 + 99)%Z.
Proof.
  pose proof (Z.div_mod x 100 ltac:(lia)) as Hx.
  pose proof (Z.mod_pos_bound x 100 ltac:(lia)) as Hr.
  split; intros H; nia.
Qed.

(** ** container/heap *)

Ltac div_lia := zify; Z.to_euclidean_division_equations; lia.

Lemma transpose_inj (i j : nat) : Inj (=) (=) (transpose i j).
Proof. intros x y. unfold transpose. repeat case_decide; congruence. Qed.

Lemma transpose_l (i j : nat) : transpose i j i = j.
Proof. unfold transpose. by case_decide. Qed.

Lemma transpose_r (i j : nat) : transpose i j j = i.
Proof. unfold transpose. repeat case_decide; congruence. Qed.

Lemma transpose_other (i j k : nat) : k ≠ i → k ≠ j → transpose i j k = k.
Proof. intros. unfold transpose. repeat case_decide; congruence. Qed.

Section heap_swap.
Context {A : Type}.
Implicit Types (h : list A) (i j k : nat).

Lemma Swap_length h i j : length (heap.Swap h i j) = length h.
Proof.
  unfold heap.Swap. destruct (h !! i), (h !! j); try done.
  by rewrite !length_insert.
Qed.

Lemma Swap_lookup h i j k :
  i < length h → j < length h →
  heap.Swap h i j !! k = h !! transpose i j k.
Proof.
  intros Hi Hj. unfold heap.Swap, transpose.
  destruct (lookup_lt_is_Some_2 h i Hi) as [a Ha].
  destruct (lookup_lt_is_Some_2 h j Hj) as [b Hb].
  rewrite Ha, Hb, !list_lookup_insert, length_insert.
  repeat case_decide; simplify_eq; try done; lia.
Qed.

Lemma Swap_perm h i j : heap.Swap h i j ≡ₚ h.
Proof.
  destruct (decide (i < length h ∧ j < length h)) as [[Hi Hj]|Hout].
  - apply Permutation_inj. split; [apply Swap_length|].
    exists (transpose i j). split; [apply transpose_inj|].
    intros k. by apply Swap_lookup.
  - unfold heap.Swap.
    destruct (h !! i) eqn:Ha; [|done]. destruct (h !! j) eqn:Hb; [|done].
    apply lookup_lt_Some in Ha, Hb. lia.
Qed.

Lemma Swap_lookup_other h i j k :
  k ≠ i → k ≠ j → heap.Swap h i j !! k = h !! k.
Proof.
  intros Hi Hj. unfold heap.Swap.
  destruct (h !! i), (h !! j); try done.
  by rewrite !list_lookup_insert_ne.
Qed.

End heap_swap.

Section heap_shape.
Context {A : Type} (less : A → A → bool).
Implicit Types (h : list A) (i j k n fuel : nat).

(** *** down *)

Lemma down_loop_S fuel h i n :
  heap.down_loop less (S fuel) h i n =
    if n <=? 2 * i + 1 then (h, i)
    else
      let j :=
        if (2 * i + 1 + 1 <? n) && heap.Less less h (2 * i + 1 + 1) (2 * i + 1)
        then 2 * i + 1 + 1 else 2 * i + 1 in
      if negb (heap.Less less h j i) then (h, i)
      else heap.down_loop less fuel (heap.Swap h i j) j n.
Proof. done. Qed.

Lemma down_loop_length fuel h i n :
  length (heap.down_loop less fuel h i n).1 = length h.
Proof.
  revert h i. induction fuel as [|fuel IH]; intros h i; simpl; [done|].
  repeat case_match; simpl; try done.
  all: by rewrite IH, Swap_length.
Qed.

Lemma down_loop_perm fuel h i n : (heap.down_loop less fuel h i n).1 ≡ₚ h.
Proof.
  revert h i. induction fuel as [|fuel IH]; intros h i; simpl; [done|].
  repeat case_match; simpl; try done.
  all: by rewrite IH, Swap_perm.
Qed.

(** [down] leaves the positions from [n] on alone. *)
Lemma down_loop_above fuel h i n k :
  n ≤ k → (heap.down_loop less fuel h i n).1 !! k = h !! k.
Proof.
  revert h i. induction fuel as [|fuel IH]; intros h i Hk; [done|].
  rewrite down_loop_S. cbv zeta.
  destruct (Nat.leb_spec n (2 * i + 1)); [done|].
  destruct (negb _); [done|].
  rewrite IH by done. apply Swap_lookup_other; [lia|].
  case_match; [|lia].
  match goal with H : _ && _ = true |- _ =>
    apply andb_true_iff in H as [?%Nat.ltb_lt _] end. lia.
Qed.

(** The final position is not before the first one. *)
Lemma down_loop_position fuel h i n : i ≤ (heap.down_loop less fuel h i n).2.
Proof.
  revert h i. induction fuel as [|fuel IH]; intros h i; [done|].
  rewrite down_loop_S. cbv zeta.
  destruct (n <=? 2 * i + 1); [done|].
  destruct (negb _); [done|].
  etrans; [|apply IH]. case_match; lia.
Qed.

(** [n - i] rounds bring the loop to its end: more change nothing. *)
Lemma down_loop_fuel fuel fuel' h i n :
  n - i ≤ fuel → n - i ≤ fuel' →
  heap.down_loop less fuel h i n = heap.down_loop less fuel' h i n.
Proof.
  revert fuel' h i.
  induction fuel as [|fuel IH]; intros [|fuel'] h i Hf Hf';
    rewrite ?down_loop_S; cbv zeta; try done.
  - change (heap.down_loop less 0 h i n) with (h, i).
    destruct (Nat.leb_spec n (2 * i + 1)); [done|lia].
  - change (heap.down_loop less 0 h i n) with (h, i).
    destruct (Nat.leb_spec n (2 * i + 1)); [done|lia].
  - destruct (Nat.leb_spec n (2 * i + 1)); [done|].
    destruct (negb _); [done|].
    apply IH; case_match; lia.
Qed.

Lemma down_length h i n : length (heap.down less h i n).1 = length h.
Proof.
  unfold heap.down. pose proof (down_loop_length n h i n) as Hl.
  by destruct (heap.down_loop less n h i n).
Qed.

Lemma down_perm h i n : (heap.down less h i n).1 ≡ₚ h.
Proof.
  unfold heap.down. pose proof (down_loop_perm n h i n) as Hl.
  by destruct (heap.down_loop less n h i n).
Qed.

Lemma down_above h i n k :
  n ≤ k → (heap.down less h i n).1 !! k = h !! k.
Proof.
  intros Hk. unfold heap.down.
  pose proof (down_loop_above n h i n k Hk) as Hl.
  by destruct (heap.down_loop less n h i n).
Qed.

(** *** up *)

Lemma up_loop_S fuel h j :
  heap.up_loop less (S fuel) h j =
    if ((j - 1) / 2 =? j) || negb (heap.Less less h j ((j - 1) / 2)) then h
    else heap.up_loop less fuel (heap.Swap h ((j - 1) / 2) j) ((j - 1) / 2).
Proof. done. Qed.

Lemma up_loop_length fuel h j : length (heap.up_loop less fuel h j) = length h.
Proof.
  revert h j. induction fuel as [|fuel IH]; intros h j; simpl; [done|].
  case_match; [done|]. by rewrite IH, Swap_length.
Qed.

Lemma up_loop_perm fuel h j : heap.up_loop less fuel h j ≡ₚ h.
Proof.
  revert h j. induction fuel as [|fuel IH]; intros h j; simpl; [done|].
  case_match; [done|]. by rewrite IH, Swap_perm.
Qed.

(** [up] leaves the positions after [j] alone. *)
Lemma up_loop_above fuel h j k :
  j < k → heap.up_loop less fuel h j !! k = h !! k.
Proof.
  revert h j. induction fuel as [|fuel IH]; intros h j Hk; [done|].
  rewrite up_loop_S. case_match; [done|].
  rewrite IH by div_lia. apply Swap_lookup_other; div_lia.
Qed.

(** [j] rounds bring the loop to its end: more change nothing. *)
Lemma up_loop_fuel fuel fuel' h j :
  j < fuel → j < fuel' →
  heap.up_loop less fuel h j = heap.up_loop less fuel' h j.
Proof.
  revert fuel' h j.
  induction fuel as [|fuel IH]; intros [|fuel'] h j Hf Hf'; try lia.
  rewrite !up_loop_S.
  destruct (Nat.eqb_spec ((j - 1) / 2) j) as [Heq|Hne]; [done|].
  cbn [orb]. destruct (negb _); [done|].
  apply IH; div_lia.
Qed.

Lemma up_length h j : length (heap.up less h j) = length h.
Proof. apply up_loop_length. Qed.

Lemma up_perm h j : heap.up less h j ≡ₚ h.
Proof. apply up_loop_perm. Qed.

(** *** Init, Push, Pop, Remove *)

Lemma down_each_perm n ks h :
  foldl (λ h i, (heap.down less h i n).1) h ks ≡ₚ h.
Proof.
  revert h. induction ks as [|i ks IH]; intros h; simpl; [done|].
  by rewrite IH, down_perm.
Qed.

Lemma Init_perm h : heap.Init less h ≡ₚ h.
Proof. apply down_each_perm. Qed.

Lemma Init_length h : length (heap.Init less h) = length h.
Proof. apply Permutation_length, Init_perm. Qed.

Lemma Push_perm h x : heap.Push less h x ≡ₚ x :: h.
Proof.
  unfold heap.Push. rewrite up_perm. symmetry. apply Permutation_cons_append.
Qed.

Lemma Push_length h x : length (heap.Push less h x) = S (length h).
Proof. by rewrite (Permutation_length (Push_perm h x)). Qed.

Lemma pop_last_snoc h x : heap.pop_last (h ++ [x]) = Some (x, h).
Proof.
  unfold heap.pop_last. rewrite last_snoc. simpl.
  rewrite length_app. simpl.
  replace (length h + 1 - 1) with (length h) by lia.
  by rewrite take_app_length.
Qed.

(** The last position holds [x]: [pop_last] splits it off. *)
Lemma pop_last_lookup h x :
  h !! (length h - 1) = Some x →
  heap.pop_last h = Some (x, take (length h - 1) h)
  ∧ h = take (length h - 1) h ++ [x].
Proof.
  intros Hx. assert (Hlast : last h = Some x).
  { rewrite last_lookup. by replace (pred (length h)) with (length h - 1) by lia. }
  apply last_Some in Hlast as [h' ->].
  rewrite pop_last_snoc, length_app. simpl.
  replace (length h' + 1 - 1) with (length h') by lia.
  by rewrite take_app_length.
Qed.

(** [heap.Pop] on a heap with a first element [x0] returns [x0] and the
    other elements. *)
Lemma Pop_head h x0 :
  h !! 0 = Some x0 →
  ∃ h', heap.Pop less h = Some (x0, h')
        ∧ h ≡ₚ x0 :: h'
        ∧ length h = S (length h')
        ∧ h' = take (length h - 1)
                 (heap.down less (heap.Swap h 0 (length h - 1)) 0
                    (length h - 1)).1.
Proof.
  intros H0. pose proof (lookup_lt_Some _ _ _ H0) as Hlen.
  set (n := length h - 1).
  set (h1 := heap.Swap h 0 n).
  set (h2 := (heap.down less h1 0 n).1).
  assert (Hl2 : length h2 = length h).
  { unfold h2, h1. by rewrite down_length, Swap_length. }
  assert (Hx : h2 !! (length h2 - 1) = Some x0).
  { rewrite Hl2. fold n. unfold h2. rewrite down_above by done.
    unfold h1. by rewrite Swap_lookup, transpose_r by lia. }
  destruct (pop_last_lookup h2 x0 Hx) as [Hpop Hsplit].
  rewrite Hl2 in Hpop, Hsplit. fold n in Hpop, Hsplit.
  exists (take n h2). split_and!.
  - unfold heap.Pop. destruct h as [|y t]; [done|]. done.
  - rewrite <- (Swap_perm h 0 n). fold h1.
    rewrite <- (down_perm h1 0 n). fold h2.
    rewrite Hsplit at 1. symmetry. apply Permutation_cons_append.
  - rewrite length_take, Hl2. lia.
  - done.
Qed.

Lemma Pop_nil : heap.Pop less [] = None.
Proof. done. Qed.

Lemma Pop_Some h x h' :
  heap.Pop less h = Some (x, h') →
  h !! 0 = Some x ∧ h ≡ₚ x :: h' ∧ length h = S (length h').
Proof.
  intros Hpop. destruct h as [|x0 t]; [done|].
  destruct (Pop_head (x0 :: t) x0 eq_refl) as (h'' & Hp & Hperm & Hlen & _).
  rewrite Hp in Hpop. by simplify_eq.
Qed.

Lemma Pop_is_Some h : h ≠ [] → is_Some (heap.Pop less h).
Proof.
  destruct h as [|x0 t]; [done|]. intros _.
  destruct (Pop_head (x0 :: t) x0 eq_refl) as (h' & Hp & _). eauto.
Qed.

(** [heap.Remove] inside the heap takes out the element at [i]. *)
Lemma Remove_Some h i x :
  h !! i = Some x →
  ∃ h', heap.Remove less h i = Some (x, h')
        ∧ h ≡ₚ x :: h' ∧ length h = S (length h').
Proof.
  intros Hi. pose proof (lookup_lt_Some _ _ _ Hi) as Hlen.
  unfold heap.Remove. destruct (Nat.leb_spec (length h) i); [lia|].
  set (n := length h - 1).
  destruct (Nat.eqb_spec n i) as [Heq|Hne].
  - subst i. destruct (pop_last_lookup h x Hi) as [Hpop Hsplit].
    fold n in Hpop, Hsplit. rewrite Hpop. eexists. split_and!; [done|..].
    + rewrite Hsplit at 1. symmetry. apply Permutation_cons_append.
    + rewrite length_take. lia.
  - set (h1 := heap.Swap h i n).
    destruct (heap.down less h1 i n) as [h2 moved] eqn:Hdown.
    set (h3 := if moved then h2 else heap.up less h2 i).
    assert (Hh2 : h2 = (heap.down less h1 i n).1) by by rewrite Hdown.
    assert (Hl2 : length h2 = length h).
    { rewrite Hh2. unfold h1. by rewrite down_length, Swap_length. }
    assert (H2n : h2 !! n = Some x).
    { rewrite Hh2, down_above by done. unfold h1.
      by rewrite Swap_lookup, transpose_r by lia. }
    assert (Hl3 : length h3 = length h).
    { unfold h3. destruct moved; [done|]. by rewrite up_length. }
    assert (Hp3 : h3 ≡ₚ h).
    { unfold h3. rewrite <- (Swap_perm h i n). fold h1.
      rewrite <- (down_perm h1 i n), <- Hh2.
      destruct moved; [done|]. apply up_perm. }
    assert (H3n : h3 !! (length h3 - 1) = Some x).
    { rewrite Hl3. fold n. unfold h3. destruct moved; [done|].
      unfold heap.up. rewrite up_loop_above by lia. done. }
    destruct (pop_last_lookup h3 x H3n) as [Hpop Hsplit].
    rewrite Hpop. eexists. split_and!; [done|..].
    + rewrite <- Hp3. rewrite Hsplit at 1. symmetry.
      apply Permutation_cons_append.
    + rewrite length_take. lia.
Qed.
End heap_shape.

Section heap_order_facts.
Context {A : Type} (less : A → A → bool).
Hypothesis less_asym : ∀ a b, less a b = true → less b a = false.
Hypothesis less_neg_trans :
  ∀ a b c, less b a = false → less c b = false → less c a = false.
Implicit Types (h : list A) (i j k n fuel : nat).

Local Abbreviation not_after := (not_after less).
Local Abbreviation heap_upto := (heap_upto less).
Local Abbreviation heap_ordered := (heap_ordered less).
Local Abbreviation hole_down := (hole_down less).
Local Abbreviation hole_up := (hole_up less).

Lemma not_after_refl a : not_after a a.
Proof.
  unfold not_after. destruct (less a a) eqn:Haa; [|done].
  by rewrite (less_asym _ _ Haa) in Haa.
Qed.

Lemma not_after_trans a b c : not_after a b → not_after b c → not_after a c.
Proof. unfold not_after. apply less_neg_trans. Qed.

Lemma less_not_after a b : less a b = true → not_after a b.
Proof. apply less_asym. Qed.

(** The element at the hole is not after its children: the heap order
    holds. *)
Lemma hole_down_stop h n i ai :
  h !! i = Some ai →
  (∀ k ck, 0 < k < n → (k - 1) / 2 = i → h !! k = Some ck → not_after ai ck) →
  hole_down h n i → heap_upto h n.
Proof.
  intros Hi Hchildren [Hrest _] k a b Hk Ha Hb.
  destruct (decide ((k - 1) / 2 = i)) as [Hp|Hp].
  - rewrite Hp, Hi in Hb. simplify_eq. by apply (Hchildren k).
  - by apply (Hrest k).
Qed.

(** The element at the hole is after its least child [j]: after the
    exchange the hole is at [j]. *)
Lemma hole_down_step h n i j ai cj :
  n ≤ length h → i < j < n → (j - 1) / 2 = i →
  h !! i = Some ai → h !! j = Some cj → less cj ai = true →
  (∀ k ck, 0 < k < n → (k - 1) / 2 = i → h !! k = Some ck → not_after cj ck) →
  hole_down h n i → hole_down (heap.Swap h i j) n j.
Proof.
  intros Hn Hij Hpj Hi Hj Hless Hleast [Hrest Hgrand].
  assert (Hsw : ∀ k, heap.Swap h i j !! k = h !! transpose i j k).
  { intros k. apply Swap_lookup; lia. }
  split.
  - intros k a b Hk Hp Ha Hb. rewrite Hsw in Ha, Hb.
    destruct (decide ((k - 1) / 2 = i)) as [Hpi|Hpi].
    + rewrite Hpi, transpose_l, Hj in Hb. injection Hb as <-.
      destruct (decide (k = j)) as [->|Hkj].
      * rewrite transpose_r, Hi in Ha. injection Ha as <-.
        by apply less_not_after.
      * rewrite transpose_other in Ha by div_lia. by apply (Hleast k).
    + destruct (decide (k = i)) as [->|Hki].
      * rewrite transpose_l, Hj in Ha. injection Ha as <-.
        rewrite transpose_other in Hb by div_lia.
        apply (Hgrand j); [lia | done | div_lia | done | done].
      * rewrite transpose_other in Ha by div_lia.
        rewrite transpose_other in Hb by div_lia.
        by apply (Hrest k).
  - intros k a b Hk Hp _ Ha Hb. rewrite Hsw in Ha, Hb.
    rewrite Hpj, transpose_l, Hj in Hb. injection Hb as <-.
    rewrite transpose_other in Ha by div_lia.
    apply (Hrest k); [done | div_lia | done | by rewrite Hp].
Qed.

(** [down] from a hole restores the heap order. *)
Lemma down_loop_heap fuel h i n :
  n - i ≤ fuel → n ≤ length h → hole_down h n i →
  heap_upto (heap.down_loop less fuel h i n).1 n.
Proof.
  revert h i. induction fuel as [|fuel IH]; intros h i Hfuel Hn Hhole.
  { simpl. intros k a b Hk Ha Hb. destruct Hhole as [Hrest _].
    apply (Hrest k); try done. div_lia. }
  rewrite down_loop_S. cbv zeta.
  destruct (Nat.leb_spec n (2 * i + 1)) as [Hleaf|Hchild].
  { simpl. intros k a b Hk Ha Hb. destruct Hhole as [Hrest _].
    apply (Hrest k); try done. div_lia. }
  destruct (lookup_lt_is_Some_2 h i ltac:(lia)) as [ai Hi].
  destruct (lookup_lt_is_Some_2 h (2 * i + 1) ltac:(lia)) as [c1 H1].
  set (j := if (2 * i + 1 + 1 <? n)
               && heap.Less less h (2 * i + 1 + 1) (2 * i + 1)
            then 2 * i + 1 + 1 else 2 * i + 1).
  assert (Hj : ∃ cj, h !! j = Some cj ∧ i < j < n ∧ (j - 1) / 2 = i
               ∧ ∀ k ck, 0 < k < n → (k - 1) / 2 = i → h !! k = Some ck →
                   not_after cj ck).
  { unfold j. destruct (Nat.ltb_spec (2 * i + 1 + 1) n) as [H2n|H2n];
      cbn [andb].
    - destruct (lookup_lt_is_Some_2 h (2 * i + 1 + 1) ltac:(lia)) as [c2 H2].
      unfold heap.Less. rewrite H1, H2.
      destruct (less c2 c1) eqn:H21.
      + exists c2. split_and!; [done|lia|lia|div_lia|].
        intros k ck Hk Hp Hck.
        assert (k = 2 * i + 1 ∨ k = 2 * i + 1 + 1) as [->| ->] by div_lia.
        * rewrite H1 in Hck. simplify_eq. by apply less_not_after.
        * rewrite H2 in Hck. simplify_eq. apply not_after_refl.
      + exists c1. split_and!; [done|lia|lia|div_lia|].
        intros k ck Hk Hp Hck.
        assert (k = 2 * i + 1 ∨ k = 2 * i + 1 + 1) as [->| ->] by div_lia.
        * rewrite H1 in Hck. simplify_eq. apply not_after_refl.
        * rewrite H2 in Hck. by simplify_eq.
    - exists c1. split_and!; [done|lia|lia|div_lia|].
      intros k ck Hk Hp Hck.
      assert (k = 2 * i + 1) as -> by div_lia.
      rewrite H1 in Hck. simplify_eq. apply not_after_refl. }
  clearbody j. destruct Hj as (cj & Hcj & Hij & Hpj & Hleast).
  unfold heap.Less at 1. rewrite Hcj, Hi.
  destruct (less cj ai) eqn:Hless; simpl.
  - apply IH; [lia | by rewrite Swap_length |].
    by apply (hole_down_step h n i j ai cj).
  - apply (hole_down_stop h n i ai); try done.
    intros k ck Hk Hp Hck.
    apply (not_after_trans _ cj); [done|]. by apply (Hleast k).
Qed.

Lemma heap_upto_take h n : heap_upto h n → n ≤ length h → heap_ordered (take n h).
Proof.
  intros Hh Hn k a b Hk Ha Hb. rewrite length_take in Hk.
  rewrite lookup_take_lt in Ha by lia.
  rewrite lookup_take_lt in Hb by div_lia.
  apply (Hh k); try done. lia.
Qed.

(** The first element of a heap is not after any other. *)
Lemma heap_root_first h r x :
  heap_ordered h → h !! 0 = Some r → x ∈ h → not_after r x.
Proof.
  intros Hh Hr [k Hk]%list_elem_of_lookup. revert x Hk.
  induction (lt_wf k) as [k _ IH]. intros x Hk.
  destruct (decide (k = 0)) as [->|Hk0].
  { rewrite Hr in Hk. simplify_eq. apply not_after_refl. }
  pose proof (lookup_lt_Some _ _ _ Hk) as Hlen.
  destruct (lookup_lt_is_Some_2 h ((k - 1) / 2) ltac:(div_lia)) as [p Hp].
  apply (not_after_trans _ p).
  - apply (IH ((k - 1) / 2)); [div_lia|done].
  - apply (Hh k); [lia|done..].
Qed.

(** [heap.Pop] keeps the heap order. *)
Lemma Pop_heap_ordered h x h' :
  heap_ordered h → heap.Pop less h = Some (x, h') → heap_ordered h'.
Proof.
  intros Hh Hpop. destruct (Pop_Some less h x h' Hpop) as (H0 & _ & Hlen).
  destruct (Pop_head less h x H0) as (h'' & Hpop' & _ & _ & Heq).
  rewrite Hpop' in Hpop. simplify_eq.
  set (n := length h - 1).
  apply heap_upto_take; [|rewrite down_length, Swap_length; lia].
  unfold heap.down.
  pose proof (down_loop_heap n (heap.Swap h 0 n) 0 n) as Hdown.
  destruct (heap.down_loop less n (heap.Swap h 0 n) 0 n) as [h2 i2].
  simpl in *. apply Hdown; [lia | rewrite Swap_length; lia |].
  split; [|intros; lia].
  intros k a b Hk Hp Ha Hb.
  rewrite Swap_lookup in Ha, Hb by lia.
  rewrite transpose_other in Ha by lia.
  rewrite transpose_other in Hb by div_lia.
  apply (Hh k); [lia|done..].
Qed.

(** The element at the hole is not before its parent, or the hole is at the
    top: the heap order holds. *)
Lemma hole_up_stop h n j :
  (0 < j → ∀ a b, h !! j = Some a → h !! ((j - 1) / 2) = Some b →
     not_after b a) →
  hole_up h n j → heap_upto h n.
Proof.
  intros Hparent [Hrest _] k a b Hk Ha Hb.
  destruct (decide (k = j)) as [->|Hkj].
  - apply Hparent; [lia|done..].
  - by apply (Hrest k).
Qed.

(** The element at the hole is before its parent: after the exchange the
    hole is at the parent. *)
Lemma hole_up_step h n j v p :
  n ≤ length h → 0 < j < n →
  h !! j = Some v → h !! ((j - 1) / 2) = Some p → less v p = true →
  hole_up h n j → hole_up (heap.Swap h ((j - 1) / 2) j) n ((j - 1) / 2).
Proof.
  intros Hn Hj Hv Hp Hless [Hrest Hgrand].
  set (i := (j - 1) / 2) in *.
  assert (Hij : i < j) by (unfold i; div_lia).
  assert (Hsw : ∀ k, heap.Swap h i j !! k = h !! transpose i j k).
  { intros k. apply Swap_lookup; lia. }
  split.
  - intros k a b Hk Hki Ha Hb. rewrite Hsw in Ha, Hb.
    destruct (decide (k = j)) as [->|Hkj].
    { fold i in Hb. rewrite transpose_l, Hv in Hb. injection Hb as <-.
      rewrite transpose_r, Hp in Ha. injection Ha as <-.
      by apply less_not_after. }
    rewrite transpose_other in Ha by done.
    destruct (decide ((k - 1) / 2 = i)) as [Hpi|Hpi].
    { rewrite Hpi, transpose_l, Hv in Hb. injection Hb as <-.
      apply (not_after_trans _ p); [by apply less_not_after|].
      apply (Hrest k); [done..|]. by rewrite Hpi. }
    destruct (decide ((k - 1) / 2 = j)) as [Hpj|Hpj].
    { rewrite Hpj, transpose_r, Hp in Hb. injection Hb as <-.
      apply (Hgrand k); [done | done | lia | done | done]. }
    rewrite transpose_other in Hb by done. by apply (Hrest k).
  - intros k a b Hk Hpk Hi Ha Hb. rewrite Hsw in Ha, Hb.
    rewrite transpose_other in Hb by div_lia.
    assert (Hpi : not_after b p).
    { apply (Hrest i); [lia | lia | done | done]. }
    destruct (decide (k = j)) as [->|Hkj].
    + rewrite transpose_r, Hp in Ha. by injection Ha as <-.
    + rewrite transpose_other in Ha by div_lia.
      apply (not_after_trans _ p); [done|].
      apply (Hrest k); [done..|]. by rewrite Hpk.
Qed.

(** [up] from a hole restores the heap order. *)
Lemma up_loop_heap fuel h j n :
  j < fuel → j < n → n ≤ length h → hole_up h n j →
  heap_upto (heap.up_loop less fuel h j) n.
Proof.
  revert h j. induction fuel as [|fuel IH]; intros h j Hfuel Hj Hn Hhole; [lia|].
  rewrite up_loop_S.
  destruct (lookup_lt_is_Some_2 h j ltac:(lia)) as [v Hv].
  destruct (lookup_lt_is_Some_2 h ((j - 1) / 2) ltac:(div_lia)) as [p Hp].
  destruct (Nat.eqb_spec ((j - 1) / 2) j) as [Heq|Hne]; cbn [orb].
  { apply (hole_up_stop h n j); [|done]. intros H0. div_lia. }
  unfold heap.Less at 1. rewrite Hv, Hp.
  destruct (less v p) eqn:Hless; cbn [negb].
  - apply IH; [div_lia | div_lia | by rewrite Swap_length |].
    apply (hole_up_step h n j v p); try done. div_lia.
  - apply (hole_up_stop h n j); [|done].
    intros _ a b Ha Hb. rewrite Hv in Ha. rewrite Hp in Hb.
    by simplify_eq.
Qed.

(** [heap.Push] keeps the heap order. *)
Lemma Push_heap_ordered h x :
  heap_ordered h → heap_ordered (heap.Push less h x).
Proof.
  intros Hh. unfold heap.Push, heap.up.
  assert (Hlen : length (h ++ [x]) = S (length h)).
  { rewrite length_app. simpl. lia. }
  replace (length (h ++ [x]) - 1) with (length h) by lia.
  unfold heap_ordered. rewrite up_loop_length, Hlen.
  apply up_loop_heap; [lia | lia | lia |].
  split.
  - intros k a b Hk Hne Ha Hb.
    rewrite lookup_app_l in Ha by lia.
    rewrite lookup_app_l in Hb by div_lia.
    apply (Hh k); [lia|done..].
  - intros k a b Hk Hp. div_lia.
Qed.
End heap_order_facts.

(** ** container/heap: [Init] and [Remove] *)

Section heap_build.
Context {A : Type} (less : A → A → bool).
Hypothesis less_asym : ∀ a b, less a b = true → less b a = false.
Hypothesis less_neg_trans :
  ∀ a b c, less b a = false → less c b = false → less c a = false.
Implicit Types (h : list A) (i j k n lo fuel : nat).

Local Abbreviation not_after := (not_after less).
Local Abbreviation heap_upto := (heap_upto less).
Local Abbreviation heap_ordered := (heap_ordered less).
Local Abbreviation heap_from := (heap_from less).
Local Abbreviation hole_down_from := (hole_down_from less).

Lemma heap_from_0 h n : heap_from 0 h n ↔ heap_upto h n.
Proof.
  split; intros Hh j a b Hj.
  - apply (Hh j); [done|lia].
  - intros _. by apply (Hh j).
Qed.

Lemma hole_down_from_stop lo h n i ai :
  h !! i = Some ai →
  (∀ k ck, 0 < k < n → (k - 1) / 2 = i → h !! k = Some ck → not_after ai ck) →
  hole_down_from lo h n i → heap_from lo h n.
Proof.
  intros Hi Hchildren [Hrest _] k a b Hk Hlo Ha Hb.
  destruct (decide ((k - 1) / 2 = i)) as [Hp|Hp].
  - rewrite Hp, Hi in Hb. injection Hb as <-. by apply (Hchildren k).
  - by apply (Hrest k).
Qed.

Lemma hole_down_from_step lo h n i j ai cj :
  n ≤ length h → lo ≤ i → i < j < n → (j - 1) / 2 = i →
  h !! i = Some ai → h !! j = Some cj → less cj ai = true →
  (∀ k ck, 0 < k < n → (k - 1) / 2 = i → h !! k = Some ck → not_after cj ck) →
  hole_down_from lo h n i → hole_down_from lo (heap.Swap h i j) n j.
Proof.
  intros Hn Hlo Hij Hpj Hi Hj Hless Hleast [Hrest Hgrand].
  assert (Hsw : ∀ k, heap.Swap h i j !! k = h !! transpose i j k).
  { intros k. apply Swap_lookup; lia. }
  split.
  - intros k a b Hk Hlok Hp Ha Hb. rewrite Hsw in Ha, Hb.
    destruct (decide ((k - 1) / 2 = i)) as [Hpi|Hpi].
    + rewrite Hpi, transpose_l, Hj in Hb. injection Hb as <-.
      destruct (decide (k = j)) as [->|Hkj].
      * rewrite transpose_r, Hi in Ha. injection Ha as <-.
        by apply less_asym.
      * rewrite transpose_other in Ha by div_lia. by apply (Hleast k).
    + destruct (decide (k = i)) as [->|Hki].
      * rewrite transpose_l, Hj in Ha. injection Ha as <-.
        rewrite transpose_other in Hb by div_lia.
        apply (Hgrand j); [lia | done | div_lia | done | done | done].
      * rewrite transpose_other in Ha by div_lia.
        rewrite transpose_other in Hb by div_lia.
        by apply (Hrest k).
  - intros k a b Hk Hp _ Hloj Ha Hb. rewrite Hsw in Ha, Hb.
    rewrite Hpj, transpose_l, Hj in Hb. injection Hb as <-.
    rewrite transpose_other in Ha by div_lia.
    apply (Hrest k); [done | lia | div_lia | done | by rewrite Hp].
Qed.

(** [down] from a hole restores the heap order of the trees from [lo]
    on. *)
Lemma down_loop_heap_from lo fuel h i n :
  n - i ≤ fuel → n ≤ length h → lo ≤ i → hole_down_from lo h n i →
  heap_from lo (heap.down_loop less fuel h i n).1 n.
Proof.
  revert h i. induction fuel as [|fuel IH]; intros h i Hfuel Hn Hlo Hhole.
  { simpl. intros k a b Hk Hlok Ha Hb. destruct Hhole as [Hrest _].
    apply (Hrest k); try done. div_lia. }
  rewrite down_loop_S. cbv zeta.
  destruct (Nat.leb_spec n (2 * i + 1)) as [Hleaf|Hchild].
  { simpl. intros k a b Hk Hlok Ha Hb. destruct Hhole as [Hrest _].
    apply (Hrest k); try done. div_lia. }
  destruct (lookup_lt_is_Some_2 h i ltac:(lia)) as [ai Hi].
  destruct (lookup_lt_is_Some_2 h (2 * i + 1) ltac:(lia)) as [c1 H1].
  set (j := if (2 * i + 1 + 1 <? n)
               && heap.Less less h (2 * i + 1 + 1) (2 * i + 1)
            then 2 * i + 1 + 1 else 2 * i + 1).
  assert (Hj : ∃ cj, h !! j = Some cj ∧ i < j < n ∧ (j - 1) / 2 = i
               ∧ ∀ k ck, 0 < k < n → (k - 1) / 2 = i → h !! k = Some ck →
                   not_after cj ck).
  { unfold j. destruct (Nat.ltb_spec (2 * i + 1 + 1) n) as [H2n|H2n];
      cbn [andb].
    - destruct (lookup_lt_is_Some_2 h (2 * i + 1 + 1) ltac:(lia)) as [c2 H2].
      unfold heap.Less. rewrite H1, H2.
      destruct (less c2 c1) eqn:H21.
      + exists c2. split_and!; [done|lia|lia|div_lia|].
        intros k ck Hk Hp Hck.
        assert (k = 2 * i + 1 ∨ k = 2 * i + 1 + 1) as [->| ->] by div_lia.
        * rewrite H1 in Hck. injection Hck as <-. by apply less_asym.
        * rewrite H2 in Hck. injection Hck as <-.
          by apply (not_after_refl less).
      + exists c1. split_and!; [done|lia|lia|div_lia|].
        intros k ck Hk Hp Hck.
        assert (k = 2 * i + 1 ∨ k = 2 * i + 1 + 1) as [->| ->] by div_lia.
        * rewrite H1 in Hck. injection Hck as <-.
          by apply (not_after_refl less).
        * rewrite H2 in Hck. by injection Hck as <-.
    - exists c1. split_and!; [done|lia|lia|div_lia|].
      intros k ck Hk Hp Hck.
      assert (k = 2 * i + 1) as -> by div_lia.
      rewrite H1 in Hck. injection Hck as <-.
      by apply (not_after_refl less). }
  clearbody j. destruct Hj as (cj & Hcj & Hij & Hpj & Hleast).
  unfold heap.Less at 1. rewrite Hcj, Hi.
  destruct (less cj ai) eqn:Hless; simpl.
  - apply IH; [lia | by rewrite Swap_length | lia |].
    by apply (hole_down_from_step lo h n i j ai cj).
  - apply (hole_down_from_stop lo h n i ai); try done.
    intros k ck Hk Hp Hck.
    apply (not_after_trans less less_neg_trans _ cj); [done|].
    by apply (Hleast k).
Qed.

(** One round of [Init]: when the trees from [S i] on are heaps, [down] at
    [i] makes the one rooted at [i] a heap as well. *)
Lemma down_heap_from i h n :
  n ≤ length h → heap_from (S i) h n →
  heap_from i (heap.down less h i n).1 n.
Proof.
  intros Hn Hh. unfold heap.down.
  pose proof (down_loop_heap_from i n h i n) as Hdown.
  destruct (heap.down_loop less n h i n) as [h' i']. simpl in *.
  apply Hdown; [lia | done | done |]. split.
  - intros j a b Hj Hlo Hp. apply (Hh j); [done|lia].
  - intros j a b Hj Hp Hi Hlo. div_lia.
Qed.

Lemma down_each_heap_from m h n :
  n ≤ length h → heap_from m h n →
  heap_upto (foldl (λ h i, (heap.down less h i n).1) h (reverse (seq 0 m))) n.
Proof.
  revert h. induction m as [|m IH]; intros h Hn Hh.
  { simpl. by apply heap_from_0. }
  rewrite seq_S, reverse_app. simpl.
  apply IH; [by rewrite down_length|]. by apply down_heap_from.
Qed.

(** [heap.Init] puts any slice in heap order. *)
Lemma Init_heap_ordered h : heap_ordered (heap.Init less h).
Proof.
  unfold heap_ordered, heap_ordered. rewrite Init_length.
  unfold heap.Init. apply down_each_heap_from; [done|].
  intros j a b Hj Hlo. div_lia.
Qed.

(** *** [heap.Remove] *)

(** [down] reports that the element stayed: nothing was exchanged, and the
    element is not after its children. *)
Lemma down_unmoved h i n :
  i < n → n ≤ length h → (heap.down less h i n).2 = false →
  (heap.down less h i n).1 = h
  ∧ ∀ k ck ai, 0 < k < n → (k - 1) / 2 = i →
      h !! k = Some ck → h !! i = Some ai → not_after ai ck.
Proof.
  intros Hi Hn.
  destruct (heap.down less h i n) as [h' m] eqn:Hd. cbn [fst snd].
  intros ->. revert Hd. unfold heap.down.
  replace (heap.down_loop less n h i n)
    with (heap.down_loop less (S (n - 1)) h i n) by (f_equal; lia).
  rewrite down_loop_S. cbv zeta.
  destruct (Nat.leb_spec n (2 * i + 1)) as [Hleaf|Hchild].
  { intros [= <- _]. split; [done|]. intros k ck ai Hk Hp. div_lia. }
  destruct (lookup_lt_is_Some_2 h i ltac:(lia)) as [ai Hai].
  destruct (lookup_lt_is_Some_2 h (2 * i + 1) ltac:(lia)) as [c1 H1].
  set (j := if (2 * i + 1 + 1 <? n)
               && heap.Less less h (2 * i + 1 + 1) (2 * i + 1)
            then 2 * i + 1 + 1 else 2 * i + 1).
  assert (Hj : ∃ cj, h !! j = Some cj ∧ i < j < n
               ∧ ∀ k ck, 0 < k < n → (k - 1) / 2 = i → h !! k = Some ck →
                   not_after cj ck).
  { unfold j. destruct (Nat.ltb_spec (2 * i + 1 + 1) n) as [H2n|H2n];
      cbn [andb].
    - destruct (lookup_lt_is_Some_2 h (2 * i + 1 + 1) ltac:(lia)) as [c2 H2].
      unfold heap.Less. rewrite H1, H2.
      destruct (less c2 c1) eqn:H21.
      + exists c2. split_and!; [done|lia|lia|].
        intros k ck Hk Hp Hck.
        assert (k = 2 * i + 1 ∨ k = 2 * i + 1 + 1) as [->| ->] by div_lia.
        * rewrite H1 in Hck. injection Hck as <-. by apply less_asym.
        * rewrite H2 in Hck. injection Hck as <-.
          by apply (not_after_refl less).
      + exists c1. split_and!; [done|lia|lia|].
        intros k ck Hk Hp Hck.
        assert (k = 2 * i + 1 ∨ k = 2 * i + 1 + 1) as [->| ->] by div_lia.
        * rewrite H1 in Hck. injection Hck as <-.
          by apply (not_after_refl less).
        * rewrite H2 in Hck. by injection Hck as <-.
    - exists c1. split_and!; [done|lia|lia|].
      intros k ck Hk Hp Hck.
      assert (k = 2 * i + 1) as -> by div_lia.
      rewrite H1 in Hck. injection Hck as <-.
      by apply (not_after_refl less). }
  clearbody j. destruct Hj as (cj & Hcj & Hij & Hleast).
  unfold heap.Less at 1. rewrite Hcj, Hai.
  destruct (less cj ai) eqn:Hless; cbn [negb].
  - pose proof (down_loop_position less (n - 1) (heap.Swap h i j) j n) as Hpos.
    destruct (heap.down_loop less (n - 1) (heap.Swap h i j) j n) as [h2 i2].
    cbn [fst snd] in *. intros [= _ Hlt]. apply Nat.ltb_ge in Hlt. lia.
  - intros [= <- _]. split; [done|].
    intros k ck ai' Hk Hp Hck [= <-].
    apply (not_after_trans less less_neg_trans _ cj); [done|].
    by apply (Hleast k).
Qed.

(** [down] reports that the element moved: a child was before it. *)
Lemma down_moved h i n :
  n ≤ length h → (heap.down less h i n).2 = true →
  ∃ j cj ai, i < j < n ∧ (j - 1) / 2 = i
    ∧ h !! j = Some cj ∧ h !! i = Some ai ∧ less cj ai = true.
Proof.
  intros Hn.
  destruct (heap.down less h i n) as [h' m] eqn:Hd. cbn [fst snd].
  intros ->. revert Hd. unfold heap.down.
  destruct (decide (n = 0)) as [->|Hn0].
  { simpl. intros [= _ Hlt]. apply Nat.ltb_lt in Hlt. lia. }
  replace (heap.down_loop less n h i n)
    with (heap.down_loop less (S (n - 1)) h i n) by (f_equal; lia).
  rewrite down_loop_S. cbv zeta.
  destruct (Nat.leb_spec n (2 * i + 1)) as [Hleaf|Hchild].
  { intros [= _ Hlt]. apply Nat.ltb_lt in Hlt. lia. }
  destruct (lookup_lt_is_Some_2 h i ltac:(lia)) as [ai Hai].
  set (j := if (2 * i + 1 + 1 <? n)
               && heap.Less less h (2 * i + 1 + 1) (2 * i + 1)
            then 2 * i + 1 + 1 else 2 * i + 1).
  assert (Hj : i < j < n ∧ (j - 1) / 2 = i).
  { unfold j. destruct (Nat.ltb_spec (2 * i + 1 + 1) n); cbn [andb];
      [destruct (heap.Less _ _ _ _)|]; div_lia. }
  clearbody j. destruct Hj as [Hij Hpj].
  destruct (lookup_lt_is_Some_2 h j ltac:(lia)) as [cj Hcj].
  unfold heap.Less at 1. rewrite Hcj, Hai.
  destruct (less cj ai) eqn:Hless; cbn [negb].
  - intros _. by exists j, cj, ai.
  - intros [= _ Hlt]. apply Nat.ltb_lt in Hlt. lia.
Qed.

(** [heap.Remove] keeps the heap order. *)
Lemma Remove_heap_ordered h i x h' :
  heap_ordered h → heap.Remove less h i = Some (x, h') → heap_ordered h'.
Proof.
  intros Hh. unfold heap.Remove.
  destruct (Nat.leb_spec (length h) i) as [|Hi]; [done|].
  set (n := length h - 1).
  destruct (Nat.eqb_spec n i) as [Heq|Hne].
  { unfold heap.pop_last. destruct (last h) as [y|]; [|done]. simpl.
    intros [= _ <-]. fold n. apply heap_upto_take; [|lia].
    intros k a b Hk. apply (Hh k). lia. }
  set (h1 := heap.Swap h i n).
  assert (Hl1 : length h1 = length h) by apply Swap_length.
  assert (Hsw : ∀ k, h1 !! k = h !! transpose i n k).
  { intros k. apply Swap_lookup; lia. }
  assert (Hgrand : ∀ k a b, 0 < k < n → (k - 1) / 2 = i → 0 < i →
            h1 !! k = Some a → h1 !! ((i - 1) / 2) = Some b → not_after b a).
  { intros k a b Hk Hp H0 Ha Hb. rewrite Hsw in Ha, Hb.
    rewrite transpose_other in Ha by div_lia.
    rewrite transpose_other in Hb by div_lia.
    destruct (lookup_lt_is_Some_2 h i ltac:(lia)) as [hi Hhi].
    apply (not_after_trans less less_neg_trans _ hi).
    - apply (Hh i); [lia|done..].
    - apply (Hh k); [lia|done|by rewrite Hp]. }
  assert (Hother : ∀ k a b, 0 < k < n → k ≠ i → (k - 1) / 2 ≠ i →
            h1 !! k = Some a → h1 !! ((k - 1) / 2) = Some b → not_after b a).
  { intros k a b Hk Hki Hp Ha Hb. rewrite Hsw in Ha, Hb.
    rewrite transpose_other in Ha by lia.
    rewrite transpose_other in Hb by div_lia.
    apply (Hh k); [lia|done..]. }
  destruct (heap.down less h1 i n) as [h2 moved] eqn:Hdown.
  assert (Hh2 : h2 = (heap.down less h1 i n).1) by by rewrite Hdown.
  assert (Hmoved : moved = (heap.down less h1 i n).2) by by rewrite Hdown.
  assert (Hup : heap_upto (if moved then h2 else heap.up less h2 i) n).
  { destruct moved.
    - destruct (down_moved h1 i n) as (j & cj & ai & Hij & Hpj & Hcj & Hai & Hless);
        [lia | done |].
      rewrite Hh2. unfold heap.down.
      pose proof (down_loop_heap less less_asym less_neg_trans n h1 i n)
        as Hheap.
      destruct (heap.down_loop less n h1 i n) as [h2' i2]. simpl.
      apply Hheap; [lia | lia |]. split; [|done].
      intros k a b Hk Hp Ha Hb.
      destruct (decide (k = i)) as [->|Hki]; [|by apply (Hother k)].
      rewrite Hai in Ha. injection Ha as <-.
      assert (Hbcj : not_after b cj) by by apply (Hgrand j); [lia|done|lia|..].
      unfold not_after in *.
      destruct (less ai b) eqn:Hab; [|done].
      apply less_asym in Hab.
      by rewrite (less_neg_trans _ _ _ Hab Hbcj) in Hless.
    - destruct (down_unmoved h1 i n) as [Hsame Hchildren]; [lia | lia | done |].
      rewrite Hh2, Hsame. unfold heap.up.
      apply (up_loop_heap less less_asym less_neg_trans); [lia | lia | lia |].
      split; [|done].
      intros k a b Hk Hki Ha Hb.
      destruct (decide ((k - 1) / 2 = i)) as [Hp|Hp]; [|by apply (Hother k)].
      rewrite Hp in Hb. by apply (Hchildren k). }
  assert (Hl3 : length (if moved then h2 else heap.up less h2 i) = length h).
  { rewrite Hh2. destruct moved; rewrite ?up_length, down_length; done. }
  unfold heap.pop_last. rewrite Hl3.
  destruct (last _) as [y|]; [|done]. simpl. intros [= _ <-]. fold n.
  apply heap_upto_take; [done|lia].
Qed.
End heap_build.

(** ** txSortedMap.Remove *)

(** C10: removing a nonce that the map does not hold returns false and
    leaves the items, the heap index and the cache (a present one too) as
    they were. *)
Theorem Remove_absent (m : txSortedMap.t) (nonce : N) :
  txSortedMap.items m !! nonce = None →
  txSortedMap.Remove m nonce = (false, m).
Proof. intros Habs. unfold txSortedMap.Remove. by rewrite Habs. Qed.

(** ** txSortedMap.Filter *)

Section Filter.
Context `{MapRange}.
Implicit Types (its : gmap N Transaction) (filter : Transaction → bool).

(** The walk over the entries, whatever their order: the removed
    transactions in that order, and the deletions. *)
Lemma Filter_walk filter (kvs : list (N * Transaction)) removed its :
  foldl (λ '(removed, its') '(nonce, tx),
           if filter tx then (removed ++ [Some tx], delete nonce its')
           else (removed, its'))
        (removed, its) kvs
  = (removed ++ (Some <$> (base.filter (λ kv, filter kv.2) kvs).*2),
     foldl (λ its' kv, if filter kv.2 then delete kv.1 its' else its')
       its kvs).
Proof.
  revert removed its.
  induction kvs as [|[k tx] kvs IH]; intros removed its; simpl.
  - by rewrite app_nil_r.
  - rewrite filter_cons. simpl. destruct (filter tx) eqn:Hf.
    + rewrite IH. case_decide; [|done]. simpl. by rewrite <- app_assoc.
    + rewrite IH. by case_decide.
Qed.

Lemma deletions_lookup_kept filter (kvs : list (N * Transaction)) its k :
  (∀ tx, (k, tx) ∈ kvs → filter tx = false) →
  foldl (λ its' kv, if filter kv.2 then delete kv.1 its' else its') its kvs
    !! k = its !! k.
Proof.
  revert its. induction kvs as [|[k' tx'] kvs IH]; intros its Hkept; simpl;
    [done|].
  rewrite IH by (intros tx Hin; apply Hkept; by right).
  destruct (filter tx') eqn:Hf; [|done].
  rewrite lookup_delete_ne; [done|]. intros ->.
  rewrite (Hkept tx') in Hf; [done|by left].
Qed.

Lemma deletions_lookup_gone filter (kvs : list (N * Transaction)) its k tx :
  (k, tx) ∈ kvs → filter tx = true →
  foldl (λ its' kv, if filter kv.2 then delete kv.1 its' else its') its kvs
    !! k = None.
Proof.
  revert its. induction kvs as [|[k' tx'] kvs IH]; intros its Hin Hf; simpl.
  - by apply not_elem_of_nil in Hin.
  - apply elem_of_cons in Hin as [[= <- <-]|Hin]; [|by apply IH].
    rewrite Hf. clear IH.
    generalize (lookup_delete_eq its k).
    generalize (delete k its). intros its'. revert its'.
    induction kvs as [|[k' tx'] kvs IH]; intros its' Hnone; simpl; [done|].
    apply IH. destruct (filter tx'); [|done].
    destruct (decide (k' = k)) as [->|Hne];
      [apply lookup_delete_eq | by rewrite lookup_delete_ne].
Qed.

(** [Filter_scan] removes the transactions that [filter] holds of, each
    once, and keeps every other entry. *)
Lemma Filter_scan_spec filter its :
  (txSortedMap.Filter_scan filter its).1
    ≡ₚ Some <$> base.filter (λ tx, filter tx) (map_to_list its).*2
  ∧ ∀ k, (txSortedMap.Filter_scan filter its).2 !! k
         = tx ← its !! k; if filter tx then None else Some tx.
Proof.
  unfold txSortedMap.Filter_scan. rewrite Filter_walk. simpl. split.
  - apply fmap_Permutation. rewrite (go_range_perm its).
    generalize (map_to_list its). intros kvs.
    induction kvs as [|[k tx] kvs IH]; [done|].
    rewrite fmap_cons, !filter_cons. simpl.
    destruct (decide (filter tx)); simpl; by rewrite IH.
  - intros k.
    destruct (its !! k) as [tx|] eqn:Hk; simpl.
    + destruct (filter tx) eqn:Hf.
      * apply (deletions_lookup_gone _ _ _ _ tx); [|done].
        rewrite (go_range_perm its). by apply elem_of_map_to_list.
      * rewrite deletions_lookup_kept; [done|]. intros tx' Hin.
        rewrite (go_range_perm its) in Hin.
        apply elem_of_map_to_list in Hin. by simplify_eq.
    + rewrite deletions_lookup_kept; [done|]. intros tx' Hin.
      rewrite (go_range_perm its) in Hin.
      apply elem_of_map_to_list in Hin. by simplify_eq.
Qed.

Lemma Filter_spec (m : txSortedMap.t) filter :
  (txSortedMap.Filter m filter).1
    ≡ₚ Some <$> base.filter (λ tx, filter tx)
                  (map_to_list (txSortedMap.items m)).*2
  ∧ ∀ k, txSortedMap.items (txSortedMap.Filter m filter).2 !! k
         = tx ← txSortedMap.items m !! k;
           if filter tx then None else Some tx.
Proof.
  destruct (Filter_scan_spec filter (txSortedMap.items m)) as [Hr Hk].
  unfold txSortedMap.Filter.
  destruct (txSortedMap.Filter_scan filter (txSortedMap.items m))
    as [removed its].
  by destruct (0 <? length removed).
Qed.
End Filter.

(** ** The nonce heap *)

Lemma nonce_less_asym (a b : N) :
  txSortedMap.nonce_less a b = true → txSortedMap.nonce_less b a = false.
Proof.
  unfold txSortedMap.nonce_less. intros Hab%N.ltb_lt. apply N.ltb_ge. lia.
Qed.

Lemma nonce_less_neg_trans (a b c : N) :
  txSortedMap.nonce_less b a = false → txSortedMap.nonce_less c b = false →
  txSortedMap.nonce_less c a = false.
Proof.
  unfold txSortedMap.nonce_less. intros Hab%N.ltb_ge Hbc%N.ltb_ge.
  apply N.ltb_ge. lia.
Qed.

Lemma nonce_heap_min (idx : list N) (k x : N) :
  heap_ordered txSortedMap.nonce_less idx → idx !! 0 = Some k → x ∈ idx →
  (k ≤ x)%N.
Proof.
  intros Hh Hk Hx.
  pose proof (heap_root_first _ nonce_less_asym nonce_less_neg_trans
                idx k x Hh Hk Hx) as Hle.
  by apply N.ltb_ge in Hle.
Qed.

Lemma keys_lookup (its : gmap N Transaction) (k : N) :
  k ∈ (map_to_list its).*1 ↔ is_Some (its !! k).
Proof.
  rewrite list_elem_of_fmap. split.
  - intros ([k' tx] & -> & Hin). apply elem_of_map_to_list in Hin. by exists tx.
  - intros [tx Htx]. exists (k, tx). split; [done|].
    by apply elem_of_map_to_list.
Qed.

Lemma keys_delete (its : gmap N Transaction) (k : N) (idx idx' : list N) :
  idx ≡ₚ (map_to_list its).*1 → idx ≡ₚ k :: idx' →
  idx' ≡ₚ (map_to_list (delete k its)).*1.
Proof.
  intros Hkeys Hpop.
  assert (Hin : k ∈ (map_to_list its).*1).
  { rewrite <- Hkeys, Hpop. apply list_elem_of_here. }
  apply keys_lookup in Hin as [tx Htx].
  apply (Permutation_cons_inv (a := k)).
  rewrite <- Hpop, Hkeys, <- (map_to_list_delete its k tx Htx). done.
Qed.

(** ** Sorted nonces *)

Lemma StronglySorted_flip_reverse {A} (R : relation A) (l : list A) :
  StronglySorted R l → StronglySorted (flip R) (reverse l).
Proof.
  induction 1 as [|x l _ IH Hall]; [rewrite reverse_nil; constructor|].
  rewrite reverse_cons. apply StronglySorted_app_2; [|done|repeat constructor].
  intros y z Hy ->%list_elem_of_singleton. rewrite elem_of_reverse in Hy.
  rewrite Forall_forall in Hall. unfold flip. by apply Hall.
Qed.

Lemma sorted_lt_le (l : list N) :
  StronglySorted N.lt l → StronglySorted N.le l.
Proof.
  induction 1 as [|x l _ IH Hall]; constructor; [done|].
  eapply Forall_impl; [done|]. intros y Hy. simpl in Hy. lia.
Qed.

Lemma sorted_le_NoDup_lt (l : list N) :
  StronglySorted N.le l → NoDup l → StronglySorted N.lt l.
Proof.
  induction 1 as [|x l _ IH Hall]; intros Hnd; [constructor|].
  apply NoDup_cons in Hnd as [Hx Hnd]. constructor; [by apply IH|].
  rewrite Forall_forall in Hall |- *. intros y Hy.
  specialize (Hall y Hy). assert (x ≠ y) by (by intros ->). lia.
Qed.

(** The sorted nonces of a map: ascending, without repetition, the keys. *)
Lemma sorted_nonces_spec (its : gmap N Transaction) :
  sorted_nonces its ≡ₚ (map_to_list its).*1
  ∧ NoDup (sorted_nonces its)
  ∧ StronglySorted N.lt (sorted_nonces its)
  ∧ length (sorted_nonces its) = size its.
Proof.
  unfold sorted_nonces.
  pose proof (merge_sort_Permutation N.le (map_to_list its).*1) as Hperm.
  assert (Hnd : NoDup (merge_sort N.le (map_to_list its).*1)).
  { rewrite Hperm. apply NoDup_fst_map_to_list. }
  split_and!; [done|done| |].
  - apply sorted_le_NoDup_lt; [|done]. apply StronglySorted_merge_sort; apply _.
  - by rewrite Hperm, length_fmap, length_map_to_list.
Qed.

Lemma sort_nonces_index (m : txSortedMap.t) :
  txSortedMap.index m ≡ₚ (map_to_list (txSortedMap.items m)).*1 →
  txSortedMap.sort_nonces (txSortedMap.index m)
  = sorted_nonces (txSortedMap.items m).
Proof.
  intros Hkeys. unfold txSortedMap.sort_nonces, sorted_nonces.
  apply (Sorted_unique N.le); [apply Sorted_merge_sort, _..|].
  by rewrite !merge_sort_Permutation.
Qed.

(** ** The invariant of the map

    The empty map satisfies it and [Put] keeps it: the maps that the pool
    builds are nonce-sorted maps. *)

Lemma newTxSortedMap_wf : sorted_map_wf txSortedMap.newTxSortedMap.
Proof.
  split_and!.
  - intros j a b Hj. simpl in Hj. lia.
  - simpl. by rewrite map_to_list_empty.
  - apply map_Forall_empty.
  - intros c Hc. discriminate Hc.
Qed.

Lemma Put_wf (m : txSortedMap.t) (tx : Transaction) :
  sorted_map_wf m → sorted_map_wf (txSortedMap.Put m tx).
Proof.
  intros (Hheap & Hkeys & Hkeyed & _). unfold txSortedMap.Put.
  destruct (txSortedMap.items m !! Nonce tx) as [old|] eqn:Hold;
    split_and!; simpl.
  - done.
  - rewrite Hkeys, <- (insert_delete_eq (txSortedMap.items m)).
    rewrite map_to_list_insert by apply lookup_delete_eq.
    rewrite <- (map_to_list_delete _ _ _ Hold). done.
  - by apply map_Forall_insert_2.
  - intros c Hc. discriminate Hc.
  - by apply (Push_heap_ordered _ nonce_less_asym nonce_less_neg_trans).
  - rewrite Push_perm, Hkeys, map_to_list_insert by done. done.
  - by apply map_Forall_insert_2.
  - intros c Hc. discriminate Hc.
Qed.

Lemma Puts_wf (txs : list Transaction) :
  sorted_map_wf (foldl txSortedMap.Put txSortedMap.newTxSortedMap txs).
Proof.
  induction txs as [|tx txs IH] using rev_ind; [apply newTxSortedMap_wf|].
  rewrite foldl_app. simpl. by apply Put_wf.
Qed.

(** The transactions stored under a list of keys that all have an entry. *)
Lemma lookups_stored (its : gmap N Transaction) (ks : list N) :
  keyed_by_nonce its → (∀ k, k ∈ ks → is_Some (its !! k)) →
  ∃ txs : list Transaction,
    (λ k, its !! k) <$> ks = Some <$> txs
    ∧ Nonce <$> txs = ks
    ∧ ∀ tx, tx ∈ txs → its !! Nonce tx = Some tx.
Proof.
  intros Hkeyed. induction ks as [|k ks IH]; intros Hsome.
  - exists []. split_and!; [done..|]. by intros tx ?%not_elem_of_nil.
  - destruct IH as (txs & Heq & Hn & Hin).
    { intros k' Hk'. apply Hsome. by right. }
    destruct (Hsome k ltac:(left)) as [tx Htx].
    pose proof (Hkeyed k tx Htx) as Hk. simpl in Hk.
    exists (tx :: txs). rewrite !fmap_cons, Heq, Hn, Htx, Hk.
    split_and!; [done..|]. intros tx' [->|Hin']%elem_of_cons; [|by apply Hin].
    by rewrite Hk.
Qed.

Lemma StronglySorted_fmap_inv {A B} (f : A → B) (R : relation B) (l : list A) :
  StronglySorted R (f <$> l) → StronglySorted (λ a b, R (f a) (f b)) l.
Proof.
  induction l as [|x l IH]; [constructor|].
  rewrite fmap_cons. intros [Hall Hrest]%StronglySorted_cons.
  constructor; [by apply IH|]. by rewrite Forall_fmap in Hall.
Qed.

Lemma sorted_lt_NoDup (l : list N) : StronglySorted N.lt l → NoDup l.
Proof.
  induction 1 as [|x l _ IH Hall]; constructor; [|done].
  intros Hin. rewrite Forall_forall in Hall. specialize (Hall x Hin). lia.
Qed.

Lemma flattened_length (its : gmap N Transaction) :
  length (flattened its) = size its.
Proof.
  unfold flattened, sorted_nonces.
  by rewrite length_fmap, merge_sort_Permutation, length_fmap,
    length_map_to_list.
Qed.

(** ** txSortedMap.Flatten *)

Local Instance TxByNonce_trans : Transitive TxByNonce.
Proof. intros a b c. unfold TxByNonce. lia. Qed.

Local Instance TxByNonce_total : Total TxByNonce.
Proof. intros a b. unfold TxByNonce. lia. Qed.

Lemma keyed_nonce_inj (its : gmap N Transaction) (k1 k2 : N)
    (tx1 tx2 : Transaction) :
  keyed_by_nonce its → its !! k1 = Some tx1 → its !! k2 = Some tx2 →
  Nonce tx1 = Nonce tx2 → tx1 = tx2.
Proof.
  intros Hkeyed H1 H2 Hn.
  pose proof (Hkeyed k1 tx1 H1) as Hk1. pose proof (Hkeyed k2 tx2 H2) as Hk2.
  simpl in *. assert (k1 = k2) by congruence. subst. congruence.
Qed.

(** The transactions of a map sorted by nonce are its entries in the order
    of their keys, whatever the order they were collected in. *)
Lemma sort_by_nonce_values (its : gmap N Transaction)
    (txs : list Transaction) :
  keyed_by_nonce its → txs ≡ₚ (map_to_list its).*2 →
  Some <$> txSortedMap.sort_by_nonce txs = flattened its.
Proof.
  intros Hkeyed Hperm.
  destruct (sorted_nonces_spec its) as (Hks & Hnd & Hlt & _).
  destruct (lookups_stored its (sorted_nonces its) Hkeyed)
    as (sorted & Heq & Hn & Hstored).
  { intros k Hk. apply keys_lookup. by rewrite <- Hks. }
  unfold flattened, txSortedMap.sort_by_nonce. rewrite Heq. f_equal.
  assert (Hvalue : ∀ tx, tx ∈ (map_to_list its).*2 ↔ ∃ k, its !! k = Some tx).
  { intros tx. rewrite list_elem_of_fmap. split.
    - intros ([k tx'] & -> & Hin). exists k. by apply elem_of_map_to_list.
    - intros [k Hk]. exists (k, tx). split; [done|].
      by apply elem_of_map_to_list. }
  assert (Hsorted_nd : NoDup sorted).
  { apply (NoDup_fmap_1 Nonce). by rewrite Hn. }
  apply (Sorted_unique_strong TxByNonce).
  - intros x1 x2 H1 H2 Hle Hge. unfold TxByNonce in Hle, Hge.
    rewrite merge_sort_Permutation, Hperm in H1.
    apply Hvalue in H1 as [k1 H1]. pose proof (Hstored x2 H2) as Hx2.
    apply (keyed_nonce_inj its k1 (Nonce x2)); [done..|lia].
  - apply Sorted_merge_sort, _.
  - apply StronglySorted_Sorted.
    apply (StronglySorted_fmap_inv Nonce N.le). rewrite Hn.
    by apply sorted_lt_le.
  - rewrite merge_sort_Permutation, Hperm.
    apply NoDup_Permutation; [|done|].
    + apply NoDup_fmap_2_strong; [|apply NoDup_map_to_list].
      intros [k1 x1] [k2 x2] H1%elem_of_map_to_list H2%elem_of_map_to_list.
      simpl. intros ->. f_equal.
      pose proof (Hkeyed k1 x2 H1). pose proof (Hkeyed k2 x2 H2).
      simpl in *. congruence.
    + intros tx. rewrite Hvalue. split.
      * intros [k Hk]. pose proof (Hkeyed k tx Hk) as Hnk. simpl in Hnk.
        assert (Hin : Nonce tx ∈ Nonce <$> sorted).
        { rewrite Hn, Hks. apply keys_lookup. rewrite Hnk. by eexists. }
        apply list_elem_of_fmap in Hin as (tx' & Hnn & Hin).
        pose proof (Hstored tx' Hin) as Hs'.
        assert (tx = tx'); [|by subst].
        by apply (keyed_nonce_inj its k (Nonce tx')).
      * intros Hin. exists (Nonce tx). by apply Hstored.
Qed.

(** On a nonce-sorted map [Flatten] returns the transactions in ascending
    order of nonce, whatever the order in which the map is walked, and
    leaves them in the cache. *)
Lemma Flatten_spec `{MapRange} (m : txSortedMap.t) :
  sorted_map_wf m →
  txSortedMap.Flatten m
  = (flattened (txSortedMap.items m),
     {| txSortedMap.items := txSortedMap.items m;
        txSortedMap.index := txSortedMap.index m;
        txSortedMap.cache := Some (flattened (txSortedMap.items m)) |})
  ∧ sorted_map_wf (txSortedMap.Flatten m).2.
Proof.
  intros (Hheap & Hkeys & Hkeyed & Hcache). unfold txSortedMap.Flatten.
  destruct m as [its idx [c|]]; simpl in *.
  - rewrite (Hcache c eq_refl). split; [done|]. unfold sorted_map_wf. simpl.
    split_and!; [done..|]. by intros c' [= <-].
  - rewrite (sort_by_nonce_values its) by
      (done || by rewrite (go_range_perm its)).
    split; [done|]. unfold sorted_map_wf. simpl.
    split_and!; [done..|]. by intros c' [= <-].
Qed.

(** ** txSortedMap.Forward *)

(** [len(index)] rounds bring the loop of [Forward] to its end: more change
    nothing. *)
Lemma Forward_loop_fuel (fuel fuel' : nat) (t : N) (its : gmap N Transaction)
    (idx : list N) (removed : Transactions) :
  length idx ≤ fuel → length idx ≤ fuel' →
  txSortedMap.Forward_loop fuel t its idx removed
  = txSortedMap.Forward_loop fuel' t its idx removed.
Proof.
  revert fuel' its idx removed.
  induction fuel as [|fuel IH]; intros [|fuel'] its idx removed Hf Hf'; simpl;
    try done.
  - destruct idx; [done|simpl in *; lia].
  - destruct idx; [done|simpl in *; lia].
  - destruct (idx !! 0) as [k|] eqn:Hk; [|done].
    destruct (k <? t)%N; [|done].
    destruct (Pop_head txSortedMap.nonce_less idx k Hk)
      as (idx' & -> & _ & Hlen & _).
    apply IH; lia.
Qed.

Lemma keys_empty (its : gmap N Transaction) :
  [] ≡ₚ (map_to_list its).*1 → its = ∅.
Proof.
  intros Hkeys. apply map_to_list_empty_iff. symmetry in Hkeys.
  apply Permutation_nil_r in Hkeys. by apply fmap_nil_inv in Hkeys.
Qed.

(** The loop of [Forward] on a heap of the keys: it pops the keys below the
    threshold in ascending order and deletes their entries; what is left of
    the index is a heap of the keys that are left. *)
Lemma Forward_loop_spec (fuel : nat) (t : N) (its : gmap N Transaction)
    (idx : list N) (removed : Transactions) :
  length idx ≤ fuel →
  heap_ordered txSortedMap.nonce_less idx →
  idx ≡ₚ (map_to_list its).*1 →
  ∃ (popped idx' : list N),
    txSortedMap.Forward_loop fuel t its idx removed
    = (filter (λ kv, (t ≤ kv.1)%N) its, idx',
       removed ++ ((λ k, its !! k) <$> popped))
    ∧ StronglySorted N.lt popped
    ∧ (∀ k, k ∈ popped ↔ is_Some (its !! k) ∧ (k < t)%N)
    ∧ heap_ordered txSortedMap.nonce_less idx'
    ∧ idx' ≡ₚ (map_to_list (filter (λ kv, (t ≤ kv.1)%N) its)).*1.
Proof.
  revert its idx removed.
  assert (Hempty : ∀ removed,
    ∃ popped idx' : list N,
      (∅ : gmap N Transaction, @nil N, removed)
      = (filter (λ kv, (t ≤ kv.1)%N) ∅, idx',
         removed ++ ((λ k, (∅ : gmap N Transaction) !! k) <$> popped))
      ∧ StronglySorted N.lt popped
      ∧ (∀ k, k ∈ popped ↔
           is_Some ((∅ : gmap N Transaction) !! k) ∧ (k < t)%N)
      ∧ heap_ordered txSortedMap.nonce_less idx'
      ∧ idx' ≡ₚ (map_to_list
                   (filter (λ kv, (t ≤ kv.1)%N) (∅ : gmap N Transaction))).*1).
  { intros removed. exists [], []. simpl.
    rewrite map_filter_empty, app_nil_r, map_to_list_empty.
    split_and!; [done|constructor| |by intros j a b Hj; simpl in Hj; lia|done].
    intros k. rewrite lookup_empty. split; [by intros ?%not_elem_of_nil|].
    by intros [[? ?] _]. }
  induction fuel as [|fuel IH]; intros its idx removed Hfuel Hheap Hkeys.
  { destruct idx; [|simpl in Hfuel; lia].
    rewrite (keys_empty its Hkeys). apply Hempty. }
  simpl. destruct (idx !! 0) as [k|] eqn:Hk.
  - assert (Hmin : ∀ x, is_Some (its !! x) → (k ≤ x)%N).
    { intros x Hx. apply (nonce_heap_min idx); [done..|].
      rewrite Hkeys. by apply keys_lookup. }
    destruct (N.ltb_spec k t) as [Hlt|Hge].
    + destruct (Pop_head txSortedMap.nonce_less idx k Hk)
        as (idx' & Hpop & Hperm & Hlen & _).
      rewrite Hpop.
      pose proof (Pop_heap_ordered _ nonce_less_asym nonce_less_neg_trans
                    idx k idx' Hheap Hpop) as Hheap'.
      pose proof (keys_delete its k idx idx' Hkeys Hperm) as Hkeys'.
      assert (Hfd : filter (λ kv, (t ≤ kv.1)%N) (delete k its)
                    = filter (λ kv, (t ≤ kv.1)%N) its).
      { apply map_eq. intros x. rewrite !map_lookup_filter.
        destruct (decide (x = k)) as [->|Hne].
        - rewrite lookup_delete_eq. simpl.
          destruct (its !! k); [|done]. simpl.
          rewrite option_guard_False; [done|]. simpl. lia.
        - by rewrite lookup_delete_ne. }
      destruct (IH (delete k its) idx' (removed ++ [its !! k])
                  ltac:(lia) Hheap' Hkeys')
        as (popped & idx'' & Hloop & Hsorted & Hmem & Hheap'' & Hkeys'').
      rewrite Hfd in Hloop, Hkeys''.
      exists (k :: popped), idx''.
      assert (Hother : ∀ x, x ∈ popped → x ≠ k ∧ (k < x)%N
                            ∧ delete k its !! x = its !! x).
      { intros x Hx. apply Hmem in Hx as [Hsome _].
        destruct (decide (x = k)) as [->|Hne].
        { rewrite lookup_delete_eq in Hsome. by destruct Hsome. }
        rewrite lookup_delete_ne in Hsome |- * by done.
        specialize (Hmin x Hsome). split_and!; [done|lia|done]. }
      split_and!; [| | |done|done].
      * rewrite Hloop. f_equal.
        rewrite fmap_cons, <- app_assoc. simpl. do 2 f_equal.
        apply list_fmap_ext. intros i x Hx.
        apply list_elem_of_lookup_2 in Hx. by apply Hother.
      * constructor; [done|]. apply Forall_forall. intros x Hx.
        by apply Hother.
      * intros x. rewrite elem_of_cons, Hmem. split.
        -- intros [->|[Hsome Hx]].
           ++ split; [|done]. apply keys_lookup. rewrite <- Hkeys.
              by apply list_elem_of_lookup_2 in Hk.
           ++ split; [|done]. destruct (decide (x = k)) as [->|Hne].
              { rewrite lookup_delete_eq in Hsome. by destruct Hsome. }
              by rewrite lookup_delete_ne in Hsome.
        -- intros [Hsome Hx]. destruct (decide (x = k)) as [->|Hne];
             [by left|right]. by rewrite lookup_delete_ne.
    + assert (Hid : filter (λ kv, (t ≤ kv.1)%N) its = its).
      { apply map_filter_id. intros x tx Hx. simpl.
        specialize (Hmin x ltac:(by eexists)). lia. }
      exists [], idx. simpl. rewrite app_nil_r, Hid.
      split_and!; [done|constructor| |done|done].
      intros x. split; [by intros ?%not_elem_of_nil|].
      intros [Hsome Hx]. specialize (Hmin x Hsome). lia.
  - destruct idx; [|done]. rewrite (keys_empty its Hkeys). apply Hempty.
Qed.

(** The cached order after the keys below [t] are gone: the cache without
    its first entries. *)
Lemma flattened_drop (its : gmap N Transaction) (t : N) (popped : list N) :
  StronglySorted N.lt popped →
  (∀ k, k ∈ popped ↔ is_Some (its !! k) ∧ (k < t)%N) →
  drop (length popped) (flattened its)
  = flattened (filter (λ kv, (t ≤ kv.1)%N) its).
Proof.
  intros Hsorted Hmem.
  set (its' := filter (λ kv, (t ≤ kv.1)%N) its).
  destruct (sorted_nonces_spec its) as (Hperm & Hnd & Hlt & _).
  destruct (sorted_nonces_spec its') as (Hperm' & Hnd' & Hlt' & _).
  assert (Hkey' : ∀ k, k ∈ sorted_nonces its' ↔ is_Some (its !! k) ∧ (t ≤ k)%N).
  { intros k. rewrite Hperm', keys_lookup. unfold its'. split.
    - intros [tx [Htx Hle]%map_lookup_filter_Some]. split; [by eexists|done].
    - intros [[tx Htx] Hle]. exists tx. by apply map_lookup_filter_Some. }
  assert (Hsplit : sorted_nonces its = popped ++ sorted_nonces its').
  { apply (Sorted_unique N.le).
    - by apply StronglySorted_Sorted, sorted_lt_le.
    - apply StronglySorted_Sorted, StronglySorted_app_2.
      + intros x y [_ Hx]%Hmem [_ Hy]%Hkey'. lia.
      + by apply sorted_lt_le.
      + by apply sorted_lt_le.
    - apply NoDup_Permutation; [done| |].
      + apply NoDup_app. split_and!; [by apply sorted_lt_NoDup| |done].
        intros x [_ Hx]%Hmem [_ Hy]%Hkey'. lia.
      + intros k. rewrite elem_of_app, Hmem, Hkey', Hperm, keys_lookup.
        destruct (decide (k < t)%N); intuition lia. }
  unfold flattened at 1. rewrite Hsplit, fmap_app.
  rewrite <- (length_fmap (λ k, its !! k) popped), drop_app_length.
  unfold flattened. apply list_fmap_ext. intros i k Hk.
  apply list_elem_of_lookup_2, Hkey' in Hk as [[tx Htx] Hle].
  unfold its'. rewrite Htx. symmetry. by apply map_lookup_filter_Some.
Qed.

(** C3: on a nonce-sorted map, [Forward] with threshold [t] returns exactly
    the transactions stored under a nonce below [t], in ascending order of
    nonce, and leaves in the map exactly the entries with a nonce of [t] or
    more, as they were; the map is a nonce-sorted map afterwards. *)
Theorem Forward_removes_below (m : txSortedMap.t) (t : N) :
  sorted_map_wf m →
  ∃ (removed : list Transaction) (m' : txSortedMap.t),
    txSortedMap.Forward m t = Some (Some <$> removed, m')
    ∧ ascending removed
    ∧ (∀ tx, tx ∈ removed ↔
         txSortedMap.items m !! Nonce tx = Some tx ∧ (Nonce tx < t)%N)
    ∧ (∀ k, (k < t)%N → txSortedMap.items m' !! k = None)
    ∧ (∀ k, (t ≤ k)%N →
         txSortedMap.items m' !! k = txSortedMap.items m !! k)
    ∧ sorted_map_wf m'.
Proof.
  intros (Hheap & Hkeys & Hkeyed & Hcache).
  destruct (Forward_loop_spec (length (txSortedMap.index m)) t
              (txSortedMap.items m) (txSortedMap.index m) []
              ltac:(done) Hheap Hkeys)
    as (popped & idx' & Hloop & Hsorted & Hmem & Hheap' & Hkeys').
  set (its := txSortedMap.items m) in *.
  set (its' := filter (λ kv, (t ≤ kv.1)%N) its) in *.
  destruct (lookups_stored its popped Hkeyed) as (removed & Heq & Hn & Hin).
  { intros k Hk. by apply Hmem in Hk as [? _]. }
  simpl in Hloop. rewrite Heq in Hloop.
  assert (Hpl : length (Some <$> removed) = length popped).
  { by rewrite length_fmap, <- (length_fmap Nonce), Hn. }
  assert (Hlen : length (Some <$> removed) ≤ size its).
  { rewrite Hpl, <- length_map_to_list, <- (length_fmap fst).
    apply submseteq_length, NoDup_submseteq; [by apply sorted_lt_NoDup|].
    intros k Hk. apply keys_lookup. by apply Hmem in Hk as [? _]. }
  assert (Hbelow : ∀ k, (k < t)%N → its' !! k = None).
  { intros k Hk. unfold its'. rewrite map_lookup_filter.
    destruct (its !! k); simpl; [|done].
    rewrite option_guard_False; [done|]. simpl. lia. }
  assert (Hkept : ∀ k, (t ≤ k)%N → its' !! k = its !! k).
  { intros k Hk. unfold its'. rewrite map_lookup_filter.
    destruct (its !! k); simpl; [|done]. by rewrite option_guard_True. }
  assert (Hkeyed' : keyed_by_nonce its').
  { intros k tx [Hk _]%map_lookup_filter_Some. by apply (Hkeyed k tx). }
  assert (Hasc : ascending removed).
  { apply StronglySorted_fmap_inv. by rewrite Hn. }
  assert (Hiff : ∀ tx, tx ∈ removed ↔ its !! Nonce tx = Some tx ∧ (Nonce tx < t)%N).
  { intros tx. split.
    - intros Htx. split; [by apply Hin|].
      apply (Hmem (Nonce tx)). rewrite <- Hn. by apply list_elem_of_fmap_2.
    - intros [Hstored Hlt].
      assert (Hp : Nonce tx ∈ Nonce <$> removed).
      { rewrite Hn. apply Hmem. split; [by eexists|done]. }
      apply list_elem_of_fmap in Hp as (tx' & Hnn & Htx').
      pose proof (Hin tx' Htx') as Hstored'. rewrite <- Hnn, Hstored in Hstored'.
      by simplify_eq. }
  unfold txSortedMap.Forward. fold its. rewrite Hloop.
  destruct (txSortedMap.cache m) as [c|] eqn:Hc.
  - rewrite (Hcache c eq_refl), flattened_length. fold its.
    destruct (Nat.leb_spec (length (Some <$> removed)) (size its)); [|lia].
    eexists removed, _. split; [done|]. split_and!; [done..|].
    unfold sorted_map_wf. simpl. split_and!; [done..|].
    intros c' [= <-]. rewrite Hpl. by apply flattened_drop.
  - eexists removed, _. split; [done|]. split_and!; [done..|].
    unfold sorted_map_wf. simpl. by split_and!.
Qed.

(** ** txSortedMap.Cap *)

Lemma Cap_loop_S (size : nat) (t : Z) (its : gmap N Transaction)
    (idx : list N) (drops : Transactions) :
  txSortedMap.Cap_loop (S size) t its idx drops
  = if (Z.of_nat (S size) >? t)%Z then
      nonce ← idx !! size;
      txSortedMap.Cap_loop size t (delete nonce its) idx
        (drops ++ [its !! nonce])
    else Some (its, drops).
Proof. done. Qed.

(** The loop of [Cap] over an index without repetitions: it walks the
    positions from [size - 1] down to [n], deleting as it goes. *)
Lemma Cap_loop_spec (s : list N) (n size : nat) (its : gmap N Transaction)
    (drops : Transactions) :
  NoDup s → n ≤ size ≤ length s →
  txSortedMap.Cap_loop size (Z.of_nat n) its s drops
  = Some (foldr delete its (drop n (take size s)),
          drops ++ ((λ k, its !! k) <$> reverse (drop n (take size s)))).
Proof.
  intros Hnd. revert its drops.
  induction size as [|size IH]; intros its drops Hn.
  { assert (n = 0) as -> by lia. simpl. by rewrite app_nil_r. }
  rewrite Cap_loop_S.
  destruct (Z.gtb_spec (Z.of_nat (S size)) (Z.of_nat n)) as [Hgt|Hle].
  - destruct (lookup_lt_is_Some_2 s size ltac:(lia)) as [x Hx].
    rewrite Hx. simpl. rewrite IH by lia.
    rewrite (take_S_r _ _ _ Hx).
    rewrite drop_app_le by (rewrite length_take; lia).
    rewrite foldr_app, reverse_snoc, fmap_cons, <- app_assoc. simpl.
    do 4 f_equal. apply list_fmap_ext. intros i k Hk.
    apply lookup_delete_ne. intros ->.
    apply list_elem_of_lookup_2 in Hk. rewrite elem_of_reverse in Hk.
    apply list_elem_of_lookup in Hk as [j Hj].
    rewrite lookup_drop in Hj.
    pose proof (lookup_lt_Some _ _ _ Hj) as Hlt. rewrite length_take in Hlt.
    rewrite lookup_take_lt in Hj by lia.
    pose proof (NoDup_lookup s _ _ _ Hnd Hj Hx). lia.
  - rewrite drop_ge by (rewrite length_take; lia). simpl.
    by rewrite app_nil_r.
Qed.

Lemma size_foldr_delete (its : gmap N Transaction) (ks : list N) :
  NoDup ks → (∀ k, k ∈ ks → is_Some (its !! k)) →
  size (foldr delete its ks) + length ks = size its.
Proof.
  induction 1 as [|k ks Hk Hnd IH]; intros Hsome; simpl; [lia|].
  rewrite map_size_delete_Some.
  - specialize (IH ltac:(intros; apply Hsome; by right)).
    assert (0 < size (foldr delete its ks)); [|lia].
    destruct (decide (size (foldr delete its ks) = 0)) as [H0|]; [|lia].
    apply map_size_empty_inv in H0.
    pose proof (lookup_foldr_delete_not_elem_of its ks k Hk) as Hl.
    rewrite H0, lookup_empty in Hl.
    destruct (Hsome k ltac:(left)) as [? Hs]. congruence.
  - rewrite lookup_foldr_delete_not_elem_of by done. apply Hsome. by left.
Qed.


(** C8, amended: on a nonce-sorted map holding more than [n] transactions,
    [Cap] removes the [|items| - n] transactions with the highest nonces and
    returns them in descending order of nonce (the highest first), and
    leaves exactly the [n] transactions with the lowest nonces in the
    map. *)
Theorem Cap_drops_highest (m : txSortedMap.t) (n : nat) :
  sorted_map_wf m → n < size (txSortedMap.items m) →
  ∃ (drops : list Transaction) (m' : txSortedMap.t),
    txSortedMap.Cap m (Z.of_nat n) = Some (Some <$> drops, m')
    ∧ length drops = size (txSortedMap.items m) - n
    ∧ descending drops
    ∧ (∀ tx, tx ∈ drops →
         txSortedMap.items m !! Nonce tx = Some tx
         ∧ txSortedMap.items m' !! Nonce tx = None)
    ∧ size (txSortedMap.items m') = n
    ∧ (∀ k tx, txSortedMap.items m' !! k = Some tx →
         txSortedMap.items m !! k = Some tx
         ∧ ∀ d, d ∈ drops → (k < Nonce d)%N)
    ∧ (∀ k tx, txSortedMap.items m !! k = Some tx →
         txSortedMap.items m' !! k = Some tx ∨ tx ∈ drops).
Proof.
  intros (Hheap & Hkeys & Hkeyed & Hcache) Hn.
  set (its := txSortedMap.items m) in *.
  destruct (sorted_nonces_spec its) as (Hperm & Hnd & Hsorted & Hlen).
  set (ks := sorted_nonces its) in *.
  set (hi := drop n ks).
  assert (Hsplit : ks = take n ks ++ hi) by (symmetry; apply take_drop).
  assert (Hhi_key : ∀ k, k ∈ hi → is_Some (its !! k)).
  { intros k Hk. apply keys_lookup. rewrite <- Hperm, Hsplit.
    apply elem_of_app. by right. }
  assert (Hhi_nd : NoDup hi).
  { rewrite Hsplit in Hnd. by apply NoDup_app in Hnd as (_ & _ & ?). }
  assert (Hhi_len : length hi = size its - n).
  { unfold hi. rewrite length_drop. lia. }
  destruct (lookups_stored its (reverse hi) Hkeyed)
    as (drops & Heq & Hnonces & Hstored).
  { intros k Hk. rewrite elem_of_reverse in Hk. by apply Hhi_key. }
  assert (Hdrops_len : length drops = size its - n).
  { by rewrite <- (length_fmap Nonce), Hnonces, length_reverse. }
  assert (Hin_hi : ∀ d, d ∈ drops → Nonce d ∈ hi).
  { intros d Hd. apply elem_of_reverse. rewrite <- Hnonces.
    by apply list_elem_of_fmap_2. }
  assert (Hloop : txSortedMap.Cap_loop (size its) (Z.of_nat n) its ks []
                  = Some (foldr delete its hi, Some <$> drops)).
  { rewrite Cap_loop_spec by (done || lia).
    rewrite take_ge by lia. fold hi. by rewrite Heq. }
  set (its' := foldr delete its hi) in *.
  assert (Hprops :
    length drops = size its - n
    ∧ descending drops
    ∧ (∀ tx, tx ∈ drops → its !! Nonce tx = Some tx ∧ its' !! Nonce tx = None)
    ∧ size its' = n
    ∧ (∀ k tx, its' !! k = Some tx →
         its !! k = Some tx ∧ ∀ d, d ∈ drops → (k < Nonce d)%N)
    ∧ (∀ k tx, its !! k = Some tx → its' !! k = Some tx ∨ tx ∈ drops)).
  { split_and!.
    - done.
    - apply (StronglySorted_fmap_inv Nonce (flip N.lt)). rewrite Hnonces.
      apply StronglySorted_flip_reverse.
      rewrite Hsplit in Hsorted. by apply StronglySorted_app_1_r in Hsorted.
    - intros tx Htx. split; [by apply Hstored|].
      apply lookup_foldr_delete. by apply Hin_hi.
    - pose proof (size_foldr_delete its hi Hhi_nd Hhi_key). fold its' in H.
      lia.
    - intros k tx [Hk Htx]%lookup_foldr_delete_Some. split; [done|].
      intros d Hd. rewrite Hsplit in Hsorted.
      apply (StronglySorted_app_1_elem_of _ _ _ _ _ Hsorted);
        [|by apply Hin_hi].
      assert (Hks : k ∈ ks).
      { rewrite Hperm. apply keys_lookup. by eexists. }
      rewrite Hsplit in Hks. by apply elem_of_app in Hks as [?|?].
    - intros k tx Hk. destruct (decide (k ∈ hi)) as [Hin|Hout].
      + right. apply elem_of_reverse in Hin. rewrite <- Hnonces in Hin.
        apply list_elem_of_fmap in Hin as (d & -> & Hd).
        pose proof (Hstored d Hd) as Hd'. rewrite Hk in Hd'. by simplify_eq.
      + left. unfold its'. by rewrite lookup_foldr_delete_not_elem_of. }
  unfold txSortedMap.Cap. fold its.
  destruct (Z.leb_spec (Z.of_nat (size its)) (Z.of_nat n)); [lia|].
  rewrite (sort_nonces_index m Hkeys). fold its ks. rewrite Hloop. simpl.
  destruct (txSortedMap.cache m) as [c|] eqn:Hc.
  - rewrite (Hcache c eq_refl), flattened_length. fold its.
    rewrite length_fmap.
    destruct (Nat.leb_spec (length drops) (size its)); [|lia].
    by eexists drops, _.
  - by eexists drops, _.
Qed.

(** ** The nonce-sorted map: every operation keeps the invariant *)

(** The flattened map lists the stored transactions, in ascending order of
    nonce. *)
Lemma flattened_spec (its : gmap N Transaction) :
  keyed_by_nonce its →
  ∃ txs : list Transaction,
    flattened its = Some <$> txs
    ∧ ascending txs
    ∧ (∀ tx, tx ∈ txs ↔ its !! Nonce tx = Some tx)
    ∧ length txs = size its.
Proof.
  intros Hkeyed.
  destruct (sorted_nonces_spec its) as (Hperm & Hnd & Hsorted & Hlen).
  destruct (lookups_stored its (sorted_nonces its) Hkeyed)
    as (txs & Heq & Hn & Hin).
  { intros k Hk. apply keys_lookup. by rewrite <- Hperm. }
  exists txs. split_and!.
  - done.
  - apply StronglySorted_fmap_inv. by rewrite Hn.
  - intros tx. split; [apply Hin|]. intros Hstored.
    assert (Hp : Nonce tx ∈ Nonce <$> txs).
    { rewrite Hn, Hperm. apply keys_lookup. by eexists. }
    apply list_elem_of_fmap in Hp as (tx' & Hnn & Htx').
    pose proof (Hin tx' Htx') as Hstored'.
    rewrite <- Hnn, Hstored in Hstored'. by simplify_eq.
  - by rewrite <- (length_fmap Nonce), Hn.
Qed.

Lemma keyed_by_nonce_subseteq (its its' : gmap N Transaction) :
  its' ⊆ its → keyed_by_nonce its → keyed_by_nonce its'.
Proof.
  intros Hsub Hkeyed k tx Hk. apply (Hkeyed k tx).
  by apply (lookup_weaken its' its).
Qed.

(** *** Put *)

(** X1: [Put] stores the transaction under its nonce and changes no other
    entry; the length grows by one exactly when the nonce was free; the
    cache is dropped; the result is a nonce-sorted map again. *)
Theorem Put_stores (m : txSortedMap.t) (tx : Transaction) :
  sorted_map_wf m →
  let m' := txSortedMap.Put m tx in
  sorted_map_wf m'
  ∧ txSortedMap.Get m' (Nonce tx) = Some tx
  ∧ (∀ k, k ≠ Nonce tx → txSortedMap.Get m' k = txSortedMap.Get m k)
  ∧ txSortedMap.Len m'
    = match txSortedMap.Get m (Nonce tx) with
      | Some _ => txSortedMap.Len m
      | None => S (txSortedMap.Len m)
      end
  ∧ txSortedMap.cache m' = None.
Proof.
  intros Hwf. split_and!.
  - by apply Put_wf.
  - apply lookup_insert_eq.
  - intros k Hk. by apply lookup_insert_ne.
  - unfold txSortedMap.Len, txSortedMap.Get. simpl.
    destruct (txSortedMap.items m !! Nonce tx) as [old|] eqn:Hold.
    + rewrite map_size_insert_Some; [done|by eexists].
    + by rewrite map_size_insert_None.
  - done.
Qed.

(** *** Flatten *)

(** X2: [Flatten] returns the stored transactions in ascending order of nonce,
    whatever the order in which the map is iterated; it changes neither the
    entries nor the index, and a second call returns the same list. *)
Theorem Flatten_ascending `{MapRange} (m : txSortedMap.t) :
  sorted_map_wf m →
  let r := txSortedMap.Flatten m in
  (∃ txs : list Transaction,
     r.1 = Some <$> txs
     ∧ ascending txs
     ∧ (∀ tx, tx ∈ txs ↔ txSortedMap.items m !! Nonce tx = Some tx)
     ∧ length txs = txSortedMap.Len m)
  ∧ txSortedMap.items r.2 = txSortedMap.items m
  ∧ txSortedMap.index r.2 = txSortedMap.index m
  ∧ sorted_map_wf r.2
  ∧ txSortedMap.Flatten r.2 = r.
Proof.
  intros Hwf. destruct (Flatten_spec m Hwf) as [Heq Hwf'].
  cbv zeta. rewrite Heq in Hwf' |- *. simpl in *. split_and!; try done.
  - apply flattened_spec. by destruct Hwf as (_ & _ & ? & _).
Qed.

(** *** Filter *)

Section Filter_more.
Context `{MapRange}.

Lemma Filter_scan_none filter (its : gmap N Transaction) :
  (txSortedMap.Filter_scan filter its).1 = [] →
  (txSortedMap.Filter_scan filter its).2 = its.
Proof.
  intros Hnone. destruct (Filter_scan_spec filter its) as [Hperm Hlookup].
  rewrite Hnone in Hperm. symmetry in Hperm.
  apply Permutation_nil_r, fmap_nil_inv in Hperm.
  apply map_eq. intros k. rewrite Hlookup.
  destruct (its !! k) as [tx|] eqn:Hk; [|done]. simpl.
  destruct (filter tx) eqn:Hf; [|done].
  assert (Hin : tx ∈ base.filter (λ tx, filter tx) (map_to_list its).*2).
  { apply list_elem_of_filter. split; [by rewrite Hf|].
    apply list_elem_of_fmap. exists (k, tx). split; [done|].
    by apply elem_of_map_to_list. }
  rewrite Hperm in Hin. by apply not_elem_of_nil in Hin.
Qed.

Lemma Filter_scan_subseteq filter (its : gmap N Transaction) :
  (txSortedMap.Filter_scan filter its).2 ⊆ its.
Proof.
  destruct (Filter_scan_spec filter its) as [_ Hlookup].
  apply map_subseteq_spec. intros k tx. rewrite Hlookup.
  destruct (its !! k) as [tx'|]; [|done]. simpl.
  by destruct (filter tx').
Qed.

(** X3: [Filter] returns exactly the stored transactions that satisfy the
    predicate and keeps exactly the others; the result is a nonce-sorted
    map again, and it is the map as it was, cache included, when no
    transaction satisfies the predicate. *)
Theorem Filter_partitions (m : txSortedMap.t) (filter : Transaction → bool) :
  sorted_map_wf m →
  let r := txSortedMap.Filter m filter in
  r.1 ≡ₚ Some <$> base.filter (λ tx, filter tx)
                    (map_to_list (txSortedMap.items m)).*2
  ∧ (∀ k, txSortedMap.items r.2 !! k
          = tx ← txSortedMap.items m !! k;
            if filter tx then None else Some tx)
  ∧ sorted_map_wf r.2
  ∧ (r.1 = [] → r.2 = m).
Proof.
  intros (Hheap & Hkeys & Hkeyed & Hcache). cbv zeta.
  destruct (Filter_spec m filter) as [Hperm Hlookup].
  split_and!; [done|done|..].
  - unfold txSortedMap.Filter.
    pose proof (Filter_scan_none filter (txSortedMap.items m)) as Hnone.
    pose proof (Filter_scan_subseteq filter (txSortedMap.items m)) as Hsub.
    destruct (txSortedMap.Filter_scan filter (txSortedMap.items m))
      as [removed its'].
    simpl in *. destruct removed as [|tx removed]; simpl.
    + rewrite Hnone by done. by split_and!.
    + split_and!; simpl.
      * apply (Init_heap_ordered _ nonce_less_asym nonce_less_neg_trans).
      * rewrite Init_perm. by rewrite go_range_perm.
      * by apply (keyed_by_nonce_subseteq _ _ Hsub).
      * intros c Hc. discriminate Hc.
  - unfold txSortedMap.Filter.
    pose proof (Filter_scan_none filter (txSortedMap.items m)) as Hnone.
    destruct (txSortedMap.Filter_scan filter (txSortedMap.items m))
      as [removed its'].
    simpl in *. destruct removed as [|tx removed]; simpl; [|done].
    intros _. rewrite Hnone by done. by destruct m.
Qed.
End Filter_more.

(** *** Remove *)

(** X4: [Remove] of a nonce that the map holds returns true and deletes that
    entry and no other; the cache is dropped, and the result is a
    nonce-sorted map again. *)
Theorem Remove_present (m : txSortedMap.t) (nonce : N) (tx : Transaction) :
  sorted_map_wf m →
  txSortedMap.items m !! nonce = Some tx →
  ∃ m', txSortedMap.Remove m nonce = (true, m')
        ∧ txSortedMap.items m' = delete nonce (txSortedMap.items m)
        ∧ txSortedMap.cache m' = None
        ∧ sorted_map_wf m'.
Proof.
  intros (Hheap & Hkeys & Hkeyed & Hcache) Htx.
  unfold txSortedMap.Remove. rewrite Htx.
  assert (Hin : nonce ∈ txSortedMap.index m).
  { rewrite Hkeys. apply keys_lookup. by eexists. }
  destruct (list_find (λ k, k = nonce) (txSortedMap.index m))
    as [[i x]|] eqn:Hfind.
  2:{ apply list_find_None in Hfind.
      by apply (proj1 (Forall_forall _ _) Hfind) in Hin. }
  apply list_find_Some in Hfind as (Hi & -> & _).
  destruct (Remove_Some txSortedMap.nonce_less _ _ _ Hi)
    as (idx' & Hrem & Hperm & _).
  rewrite Hrem. simpl. eexists. split; [done|]. split_and!; [done|done|].
  split_and!; simpl.
  - by apply (Remove_heap_ordered _ nonce_less_asym nonce_less_neg_trans
                _ _ _ _ Hheap Hrem).
  - by apply (keys_delete _ nonce (txSortedMap.index m)).
  - apply (keyed_by_nonce_subseteq (txSortedMap.items m)); [|done].
    apply delete_subseteq.
  - intros c Hc. discriminate Hc.
Qed.

(** *** Ready *)

(** [len(index)] rounds bring the loop of [Ready] to its end: more change
    nothing. *)
Lemma Ready_loop_fuel (fuel fuel' : nat) (next : N) (its : gmap N Transaction)
    (idx : list N) (ready : Transactions) :
  length idx ≤ fuel → length idx ≤ fuel' →
  txSortedMap.Ready_loop fuel next its idx ready
  = txSortedMap.Ready_loop fuel' next its idx ready.
Proof.
  revert fuel' next its idx ready.
  induction fuel as [|fuel IH]; intros [|fuel'] next its idx ready Hf Hf';
    simpl; try done.
  - destruct idx; [done|simpl in *; lia].
  - destruct idx; [done|simpl in *; lia].
  - destruct (idx !! 0) as [k|] eqn:Hk; [|done].
    destruct (k =? next)%N; [|done].
    destruct (Pop_head txSortedMap.nonce_less idx k Hk)
      as (idx' & -> & _ & Hlen & _).
    apply IH; lia.
Qed.

Lemma Ready_loop_stop (fuel : nat) (next : N) (its : gmap N Transaction)
    (idx : list N) (ready : Transactions) :
  (∀ k, idx !! 0 = Some k → k ≠ next) →
  txSortedMap.Ready_loop fuel next its idx ready = (its, idx, ready).
Proof.
  intros Hhead. destruct fuel as [|fuel]; simpl; [done|].
  destruct (idx !! 0) as [k|]; [|done].
  destruct (N.eqb_spec k next) as [->|]; [|done]. by destruct (Hhead next).
Qed.

(** The nonces [next], [next + 1], ... *)
Local Abbreviation run_from next n :=
  ((λ i : nat, (next + N.of_nat i)%N) <$> seq 0 n).

(** The loop of [Ready] on a heap of the keys, none of them below [next]:
    it pops the nonces from [next] on for as long as they follow one
    another. *)
Lemma Ready_loop_spec (fuel : nat) (next : N) (its : gmap N Transaction)
    (idx : list N) (ready : Transactions) :
  length idx ≤ fuel →
  heap_ordered txSortedMap.nonce_less idx →
  idx ≡ₚ (map_to_list its).*1 →
  (∀ k, is_Some (its !! k) → (next ≤ k)%N) →
  ∃ (n : nat) (idx' : list N),
    txSortedMap.Ready_loop fuel next its idx ready
    = (filter (λ kv, (next + N.of_nat n ≤ kv.1)%N) its, idx',
       ready ++ ((λ k, its !! k) <$> run_from next n))
    ∧ (∀ k, k ∈ run_from next n → is_Some (its !! k))
    ∧ (its !! (next + N.of_nat n)%N = None ∨ (2 ^ 64 ≤ next + N.of_nat n)%N)
    ∧ (idx !! 0 = Some next → 0 < n)
    ∧ heap_ordered txSortedMap.nonce_less idx'
    ∧ idx' ≡ₚ (map_to_list
                 (filter (λ kv, (next + N.of_nat n ≤ kv.1)%N) its)).*1.
Proof.
  revert next its idx ready.
  assert (Hnone : ∀ fuel next its idx ready,
    heap_ordered txSortedMap.nonce_less idx →
    idx ≡ₚ (map_to_list its).*1 →
    (∀ k, is_Some (its !! k) → (next ≤ k)%N) →
    (∀ k, idx !! 0 = Some k → k ≠ next) →
    ∃ (n : nat) (idx' : list N),
      txSortedMap.Ready_loop fuel next its idx ready
      = (filter (λ kv, (next + N.of_nat n ≤ kv.1)%N) its, idx',
         ready ++ ((λ k, its !! k) <$> run_from next n))
      ∧ (∀ k, k ∈ run_from next n → is_Some (its !! k))
      ∧ (its !! (next + N.of_nat n)%N = None
         ∨ (2 ^ 64 ≤ next + N.of_nat n)%N)
      ∧ (idx !! 0 = Some next → 0 < n)
      ∧ heap_ordered txSortedMap.nonce_less idx'
      ∧ idx' ≡ₚ (map_to_list
                   (filter (λ kv, (next + N.of_nat n ≤ kv.1)%N) its)).*1).
  { intros fuel0 next its idx ready Hheap Hkeys Hlow Hhead.
    exists 0, idx. rewrite Ready_loop_stop by done.
    assert (Hid : filter (λ kv, (next + N.of_nat 0 ≤ kv.1)%N) its = its).
    { apply map_filter_id. intros x tx Hx. simpl.
      specialize (Hlow x ltac:(by eexists)). lia. }
    rewrite Hid. simpl. rewrite app_nil_r.
    split_and!; [done| | |by intros ?%Hhead|done|done].
    - by intros k ?%not_elem_of_nil.
    - left. rewrite N.add_0_r.
      destruct (its !! next) as [tx|] eqn:Hnext; [|done]. exfalso.
      assert (Hin : next ∈ idx).
      { rewrite Hkeys. apply keys_lookup. by eexists. }
      destruct idx as [|k idx]; [by apply not_elem_of_nil in Hin|].
      pose proof (nonce_heap_min (k :: idx) k next Hheap eq_refl Hin).
      assert (is_Some (its !! k)) as Hk.
      { apply keys_lookup. rewrite <- Hkeys. by left. }
      specialize (Hlow k Hk). apply (Hhead k); [done|]. lia. }
  induction fuel as [|fuel IH]; intros next its idx ready Hfuel Hheap Hkeys Hlow.
  { apply Hnone; try done. destruct idx; [done|simpl in Hfuel; lia]. }
  destruct (decide (idx !! 0 = Some next)) as [Hk|Hk];
    [|by apply Hnone; [..|congruence]].
  cbn [txSortedMap.Ready_loop]. rewrite Hk, N.eqb_refl.
  destruct (Pop_head txSortedMap.nonce_less idx next Hk)
    as (idx1 & Hpop & Hperm & Hlen & _).
  rewrite Hpop.
  pose proof (Pop_heap_ordered _ nonce_less_asym nonce_less_neg_trans
                idx next idx1 Hheap Hpop) as Hheap1.
  pose proof (keys_delete its next idx idx1 Hkeys Hperm) as Hkeys1.
  assert (Hnext : is_Some (its !! next)).
  { apply keys_lookup. rewrite <- Hkeys. by apply list_elem_of_lookup_2 in Hk. }
  assert (Hlow1 : ∀ x, is_Some (delete next its !! x) → (next + 1 ≤ x)%N).
  { intros x Hx. destruct (decide (x = next)) as [->|Hxn].
    { rewrite lookup_delete_eq in Hx. by destruct Hx. }
    rewrite lookup_delete_ne in Hx by done. specialize (Hlow x Hx). lia. }
  assert (Hfd : ∀ n1, filter (λ kv, (next + 1 + N.of_nat n1 ≤ kv.1)%N)
                        (delete next its)
                      = filter (λ kv, (next + N.of_nat (S n1) ≤ kv.1)%N) its).
  { intros n1. apply map_eq. intros x. rewrite !map_lookup_filter.
    destruct (decide (x = next)) as [->|Hxn].
    - rewrite lookup_delete_eq. simpl.
      destruct (its !! next); [|done]. simpl.
      rewrite option_guard_False; [done|]. simpl. lia.
    - rewrite lookup_delete_ne by done.
      destruct (its !! x); [|done]. simpl.
      destruct (decide (next + 1 + N.of_nat n1 ≤ x)%N).
      + rewrite !option_guard_True; [done|simpl; lia|simpl; lia].
      + rewrite !option_guard_False; [done|simpl; lia|simpl; lia]. }
  assert (Hrun : ∀ n1, run_from next (S n1) = next :: run_from (next + 1) n1).
  { intros n1. rewrite <- cons_seq, fmap_cons, <- fmap_S_seq, <- list_fmap_compose.
    f_equal; [f_equal; lia|]. apply list_fmap_ext. intros i j _. simpl. lia. }
  destruct (decide (next + 1 < 2 ^ 64)%N) as [Hsmall|Hwrap].
  - assert (Hw : wrap_uint64 (next + 1) = (next + 1)%N).
    { unfold wrap_uint64. by apply N.mod_small. }
    rewrite Hw.
    destruct (IH (next + 1)%N (delete next its) idx1 (ready ++ [its !! next])
                ltac:(lia) Hheap1 Hkeys1 Hlow1)
      as (n1 & idx' & Hloop & Hsome & Hstop & _ & Hheap' & Hkeys').
    rewrite Hfd in Hloop, Hkeys'.
    exists (S n1), idx'.
    assert (Hother : ∀ x, x ∈ run_from (next + 1) n1 →
                       delete next its !! x = its !! x).
    { intros x Hx. apply lookup_delete_ne. intros ->.
      apply Hsome, Hlow1 in Hx. lia. }
    split_and!; [| | |lia|done|done].
    + rewrite Hloop, Hrun, fmap_cons, <- app_assoc. simpl. do 3 f_equal.
      apply list_fmap_ext. intros i x Hx.
      apply list_elem_of_lookup_2 in Hx. by apply Hother.
    + intros x. rewrite Hrun, elem_of_cons. intros [->|Hx]; [done|].
      rewrite <- Hother by done. by apply Hsome.
    + replace (next + N.of_nat (S n1))%N with (next + 1 + N.of_nat n1)%N
        by lia.
      destruct Hstop as [Hstop|?]; [left|by right].
      rewrite lookup_delete_ne in Hstop by lia. done.
  - assert (Hw : (wrap_uint64 (next + 1) ≤ next)%N).
    { unfold wrap_uint64.
      pose proof (N.mod_upper_bound (next + 1) (2 ^ 64) ltac:(done)). lia. }
    rewrite Ready_loop_stop.
    2:{ intros x Hx. apply list_elem_of_lookup_2 in Hx.
        rewrite Hkeys1 in Hx. apply keys_lookup, Hlow1 in Hx. lia. }
    exists 1, idx1. rewrite <- (Hfd 0) in *.
    assert (Hid : filter (λ kv, (next + 1 + N.of_nat 0 ≤ kv.1)%N)
                    (delete next its) = delete next its).
    { apply map_filter_id. intros x tx Hx. simpl.
      specialize (Hlow1 x ltac:(by eexists)). lia. }
    rewrite Hid. simpl. rewrite N.add_0_r.
    split_and!; [done| |right; lia|lia|done|done].
    intros x [->|?%not_elem_of_nil]%elem_of_cons; done.
Qed.

(** X5: [Ready] returns nothing, and changes nothing, exactly when no stored
    nonce is at or below [start].  Otherwise it returns the run of
    transactions with consecutive nonces that begins at the lowest stored
    nonce, as long as it is, and removes them: their entries are gone and
    the others are as they were, the nonce that follows the run is not
    stored (or the run ends at the highest nonce of [uint64]), the cache
    is dropped, and the result is a nonce-sorted map again. *)
Theorem Ready_returns_run (m : txSortedMap.t) (start : N) :
  sorted_map_wf m →
  ∃ (run : list Transaction) (m' : txSortedMap.t),
    txSortedMap.Ready m start = (Some <$> run, m')
    ∧ sorted_map_wf m'
    ∧ (run = [] ↔
       ∀ k, is_Some (txSortedMap.items m !! k) → (start < k)%N)
    ∧ (run = [] → m' = m)
    ∧ (0 < length run → txSortedMap.cache m' = None)
    ∧ (∀ tx, tx ∈ run → txSortedMap.items m !! Nonce tx = Some tx)
    ∧ (∀ tx k, run !! 0 = Some tx →
         is_Some (txSortedMap.items m !! k) → (Nonce tx ≤ k)%N)
    ∧ (∀ i a b, run !! i = Some a → run !! S i = Some b →
         Nonce b = (Nonce a + 1)%N)
    ∧ (∀ tx, last run = Some tx →
         txSortedMap.items m !! (Nonce tx + 1)%N = None
         ∨ (2 ^ 64 ≤ Nonce tx + 1)%N)
    ∧ (∀ k, txSortedMap.items m' !! k
            = if decide (k ∈ Nonce <$> run) then None
              else txSortedMap.items m !! k).
Proof.
  intros Hwf. pose proof Hwf as (Hheap & Hkeys & Hkeyed & Hcache).
  unfold txSortedMap.Ready.
  set (its := txSortedMap.items m) in *.
  set (idx := txSortedMap.index m) in *.
  assert (Hnothing :
    (∀ k, is_Some (its !! k) → (start < k)%N) →
    ∃ (run : list Transaction) (m' : txSortedMap.t),
      (@nil txptr, m) = (Some <$> run, m')
      ∧ sorted_map_wf m'
      ∧ (run = [] ↔ ∀ k, is_Some (its !! k) → (start < k)%N)
      ∧ (run = [] → m' = m)
      ∧ (0 < length run → txSortedMap.cache m' = None)
      ∧ (∀ tx, tx ∈ run → its !! Nonce tx = Some tx)
      ∧ (∀ tx k, run !! 0 = Some tx → is_Some (its !! k) → (Nonce tx ≤ k)%N)
      ∧ (∀ i a b, run !! i = Some a → run !! S i = Some b →
           Nonce b = (Nonce a + 1)%N)
      ∧ (∀ tx, last run = Some tx →
           its !! (Nonce tx + 1)%N = None ∨ (2 ^ 64 ≤ Nonce tx + 1)%N)
      ∧ (∀ k, txSortedMap.items m' !! k
              = if decide (k ∈ Nonce <$> run) then None else its !! k)).
  { intros Habove. exists [], m. simpl.
    split_and!; try done.
    - intros Hlt. lia.
    - by intros tx ?%not_elem_of_nil. }
  destruct (idx !! 0) as [first|] eqn:Hfirst.
  2:{ apply Hnothing. intros k Hk. apply keys_lookup in Hk.
      fold its in Hkeys. rewrite <- Hkeys in Hk.
      destruct idx; [by apply not_elem_of_nil in Hk|done]. }
  assert (Hmin : ∀ k, is_Some (its !! k) → (first ≤ k)%N).
  { intros k Hk. apply (nonce_heap_min idx); [done..|].
    rewrite Hkeys. by apply keys_lookup. }
  assert (Hfirst_key : is_Some (its !! first)).
  { apply keys_lookup. fold its in Hkeys. rewrite <- Hkeys.
    by apply list_elem_of_lookup_2 in Hfirst. }
  destruct (N.ltb_spec start first) as [Hlt|Hge].
  { apply Hnothing. intros k Hk. specialize (Hmin k Hk). lia. }
  clear Hnothing.
  destruct (Ready_loop_spec (length idx) first its idx [] ltac:(done)
              Hheap Hkeys Hmin)
    as (n & idx' & Hloop & Hsome & Hstop & Hpos & Hheap' & Hkeys').
  specialize (Hpos Hfirst).
  set (its' := filter (λ kv, (first + N.of_nat n ≤ kv.1)%N) its) in *.
  destruct (lookups_stored its (run_from first n) Hkeyed Hsome)
    as (run & Heq & Hn & Hin).
  rewrite Hloop, Heq. simpl.
  assert (Hlen : length run = n).
  { by rewrite <- (length_fmap Nonce), Hn, length_fmap, length_seq. }
  assert (Hnonce : ∀ i tx, run !! i = Some tx → Nonce tx = (first + N.of_nat i)%N).
  { intros i tx Hi.
    assert (Hi' : (Nonce <$> run) !! i = Some (Nonce tx)).
    { by rewrite list_lookup_fmap, Hi. }
    rewrite Hn, list_lookup_fmap in Hi'.
    destruct (seq 0 n !! i) as [j|] eqn:Hj; [|done].
    apply lookup_seq in Hj as [-> _]. simpl in Hi'. by injection Hi' as <-. }
  assert (Hmem : ∀ k, k ∈ Nonce <$> run ↔ (first ≤ k < first + N.of_nat n)%N).
  { intros k. rewrite Hn, list_elem_of_fmap. split.
    - intros (i & -> & [_ Hi]%elem_of_seq). lia.
    - intros Hk. exists (N.to_nat (k - first)). split; [lia|].
      apply elem_of_seq. lia. }
  exists run, {| txSortedMap.items := its'; txSortedMap.index := idx';
                 txSortedMap.cache := None |}.
  split_and!.
  - done.
  - split_and!; simpl; [done|done| |by intros c Hc].
    apply (keyed_by_nonce_subseteq its); [|done]. apply map_filter_subseteq.
  - split.
    + intros ->. simpl in Hlen. lia.
    + intros Habove. specialize (Habove first Hfirst_key). lia.
  - intros ->. simpl in Hlen. lia.
  - done.
  - done.
  - intros tx k H0 Hk. rewrite (Hnonce 0 tx H0). specialize (Hmin k Hk). lia.
  - intros i a b Ha Hb. rewrite (Hnonce _ _ Ha), (Hnonce _ _ Hb). lia.
  - intros tx Hlast. rewrite last_lookup in Hlast.
    rewrite (Hnonce _ _ Hlast), Hlen.
    replace (first + N.of_nat (Init.Nat.pred n) + 1)%N
      with (first + N.of_nat n)%N by lia.
    done.
  - intros k. simpl. unfold its'. rewrite map_lookup_filter.
    destruct (decide (k ∈ Nonce <$> run)) as [Hk|Hk].
    + apply Hmem in Hk. destruct (its !! k); [|done]. simpl.
      rewrite option_guard_False; [done|]. simpl. lia.
    + rewrite Hmem in Hk. destruct (its !! k) eqn:Hitk; [|done]. simpl.
      specialize (Hmin k ltac:(by eexists)).
      rewrite option_guard_True; [done|]. simpl. lia.
Qed.

(** *** Forward *)

Lemma Forward_loop_acc (fuel : nat) (t : N) (its : gmap N Transaction)
    (idx : list N) (acc removed : Transactions) :
  txSortedMap.Forward_loop fuel t its idx (acc ++ removed)
  = let '(its', idx', r) := txSortedMap.Forward_loop fuel t its idx removed in
    (its', idx', acc ++ r).
Proof.
  revert its idx removed. induction fuel as [|fuel IH];
    intros its idx removed; simpl; [done|].
  destruct (idx !! 0) as [k|]; [|done].
  destruct (k <? t)%N; [|done].
  destruct (heap.Pop _ idx) as [[nonce idx']|]; [|done].
  rewrite <- app_assoc. apply IH.
Qed.

Lemma Forward_loop_length (fuel : nat) (t : N) (its : gmap N Transaction)
    (idx : list N) (removed : Transactions) :
  length (txSortedMap.Forward_loop fuel t its idx removed).1.2 ≤ length idx.
Proof.
  revert its idx removed. induction fuel as [|fuel IH];
    intros its idx removed; simpl; [done|].
  destruct (idx !! 0) as [k|] eqn:Hk; [|done].
  destruct (k <? t)%N; [|done].
  destruct (Pop_head txSortedMap.nonce_less idx k Hk)
    as (idx' & -> & _ & Hlen & _).
  specialize (IH (delete k its) idx' (removed ++ [its !! k])). lia.
Qed.

(** The loop of [Forward] run to a threshold and then on to a higher one
    is the loop run to the higher one. *)
Lemma Forward_loop_twice (fuel : nat) (t1 t2 : N) (its : gmap N Transaction)
    (idx : list N) (removed : Transactions) :
  (t1 ≤ t2)%N → length idx ≤ fuel →
  txSortedMap.Forward_loop fuel t2 its idx removed
  = let '(its1, idx1, r1) :=
      txSortedMap.Forward_loop fuel t1 its idx removed in
    txSortedMap.Forward_loop (length idx1) t2 its1 idx1 r1.
Proof.
  intros Ht. revert its idx removed.
  induction fuel as [|fuel IH]; intros its idx removed Hfuel.
  { destruct idx; [done|simpl in Hfuel; lia]. }
  destruct (idx !! 0) as [k|] eqn:Hk.
  2:{ destruct idx; [done|discriminate Hk]. }
  destruct (N.ltb_spec k t1) as [Hlt|Hge].
  - cbn [txSortedMap.Forward_loop]. rewrite Hk.
    rewrite (proj2 (N.ltb_lt k t1)) by done.
    rewrite (proj2 (N.ltb_lt k t2)) by lia.
    destruct (Pop_head txSortedMap.nonce_less idx k Hk)
      as (idx' & -> & _ & Hlen & _).
    apply IH. lia.
  - assert (txSortedMap.Forward_loop (S fuel) t1 its idx removed
            = (its, idx, removed)) as ->.
    { cbn [txSortedMap.Forward_loop]. rewrite Hk.
      by rewrite (proj2 (N.ltb_ge k t1)). }
    by apply Forward_loop_fuel.
Qed.

(** X6: [Forward] to a threshold and then to a higher one does what [Forward]
    to the higher one does: the transactions returned by the two calls,
    one after the other, are those returned by the one call, and the map
    is left in the same state, index and cache included. *)
Theorem Forward_twice (m m1 m2 : txSortedMap.t) (t1 t2 : N)
    (r1 r2 : Transactions) :
  (t1 ≤ t2)%N →
  txSortedMap.Forward m t1 = Some (r1, m1) →
  txSortedMap.Forward m1 t2 = Some (r2, m2) →
  txSortedMap.Forward m t2 = Some (r1 ++ r2, m2).
Proof.
  intros Ht H1 H2. unfold txSortedMap.Forward in H1.
  destruct (txSortedMap.Forward_loop (length (txSortedMap.index m)) t1
              (txSortedMap.items m) (txSortedMap.index m) [])
    as [[its1 idx1] r1'] eqn:Hl1.
  assert (Hm1 : r1' = r1 ∧ txSortedMap.items m1 = its1
                ∧ txSortedMap.index m1 = idx1
                ∧ txSortedMap.cache m1
                  = drop (length r1) <$> txSortedMap.cache m
                ∧ (∀ c, txSortedMap.cache m = Some c → length r1 ≤ length c)).
  { destruct (txSortedMap.cache m) as [c|].
    - destruct (Nat.leb_spec (length r1') (length c)); [|done].
      injection H1 as <- <-. split_and!; try done. by intros c' [= <-].
    - injection H1 as <- <-. by split_and!. }
  destruct Hm1 as (-> & Hits1 & Hidx1 & Hc1 & Hlen1). clear H1.
  unfold txSortedMap.Forward in H2. rewrite Hits1, Hidx1, Hc1 in H2.
  destruct (txSortedMap.Forward_loop (length idx1) t2 its1 idx1 [])
    as [[its2 idx2] r2'] eqn:Hl2.
  unfold txSortedMap.Forward.
  rewrite (Forward_loop_twice _ t1 t2) by done. rewrite Hl1.
  pose proof (Forward_loop_acc (length idx1) t2 its1 idx1 r1 []) as Hacc.
  rewrite app_nil_r in Hacc. rewrite Hacc, Hl2. clear Hacc.
  destruct (txSortedMap.cache m) as [c|]; simpl in H2 |- *.
  - specialize (Hlen1 c eq_refl). rewrite length_drop in H2.
    destruct (Nat.leb_spec (length r2') (length c - length r1)); [|done].
    injection H2 as <- <-. rewrite length_app.
    destruct (Nat.leb_spec (length r1 + length r2') (length c)); [|lia].
    by rewrite drop_drop.
  - by injection H2 as <- <-.
Qed.

(** *** Cap *)

(** X8: With a negative limit [Cap] panics: the loop runs down to size zero
    and reads the index at position [-1]. *)
Theorem Cap_negative_panics (m : txSortedMap.t) (threshold : Z) :
  (threshold < 0)%Z → txSortedMap.Cap m threshold = None.
Proof.
  intros Hneg. unfold txSortedMap.Cap.
  destruct (Z.leb_spec (Z.of_nat (size (txSortedMap.items m))) threshold);
    [lia|].
  assert (Hloop : ∀ size its idx drops,
            txSortedMap.Cap_loop size threshold its idx drops = None).
  { induction size as [|size IH]; intros its idx drops.
    - cbn [txSortedMap.Cap_loop].
      destruct (Z.gtb_spec (Z.of_nat 0) threshold); [done|lia].
    - rewrite Cap_loop_S.
      destruct (Z.gtb_spec (Z.of_nat (S size)) threshold); [|lia].
      destruct (idx !! size); [|done]. simpl. apply IH. }
  by rewrite Hloop.
Qed.

(** What [Cap] computes on a nonce-sorted map that holds more than [n]
    transactions, in terms of its sorted nonces. *)
Lemma Cap_sorted (m : txSortedMap.t) (n : nat) :
  sorted_map_wf m → n < size (txSortedMap.items m) →
  let its := txSortedMap.items m in
  let ks := sorted_nonces its in
  txSortedMap.Cap m (Z.of_nat n)
  = Some ((λ k, its !! k) <$> reverse (drop n ks),
          {| txSortedMap.items := foldr delete its (drop n ks);
             txSortedMap.index :=
               heap.Init txSortedMap.nonce_less (take n ks);
             txSortedMap.cache :=
               (λ _, (λ k, its !! k) <$> take n ks) <$> txSortedMap.cache m |}).
Proof.
  intros (Hheap & Hkeys & Hkeyed & Hcache) Hn. cbv zeta.
  set (its := txSortedMap.items m) in *.
  destruct (sorted_nonces_spec its) as (Hperm & Hnd & Hsorted & Hlen).
  set (ks := sorted_nonces its) in *.
  unfold txSortedMap.Cap. fold its.
  destruct (Z.leb_spec (Z.of_nat (size its)) (Z.of_nat n)); [lia|].
  rewrite (sort_nonces_index m Hkeys). fold its ks.
  rewrite Cap_loop_spec by (done || lia).
  rewrite (take_ge ks (size its)) by lia. simpl.
  rewrite Nat2Z.id.
  destruct (txSortedMap.cache m) as [c|] eqn:Hc; [|done].
  rewrite (Hcache c eq_refl), flattened_length, !length_fmap, length_reverse,
    length_drop. fold its.
  destruct (Nat.leb_spec (length ks - n) (size its)); [|lia].
  simpl. do 3 f_equal. unfold flattened. fold ks.
  replace (size its - (length ks - n)) with n by lia.
  by rewrite fmap_take.
Qed.

(** X7: [Cap] with a limit that is not negative leaves a nonce-sorted map, cache
    included, of at most that many transactions; it returns nothing and
    changes nothing when the map is within the limit already. *)
Theorem Cap_keeps_sorted_map (m : txSortedMap.t) (threshold : Z) :
  sorted_map_wf m → (0 ≤ threshold)%Z →
  ∃ (drops : Transactions) (m' : txSortedMap.t),
    txSortedMap.Cap m threshold = Some (drops, m')
    ∧ sorted_map_wf m'
    ∧ Z.of_nat (txSortedMap.Len m')
      = Z.min (Z.of_nat (txSortedMap.Len m)) threshold
    ∧ Z.of_nat (length drops)
      = (Z.of_nat (txSortedMap.Len m) - Z.of_nat (txSortedMap.Len m'))%Z
    ∧ ((Z.of_nat (txSortedMap.Len m) ≤ threshold)%Z → drops = [] ∧ m' = m).
Proof.
  intros Hwf Hpos. unfold txSortedMap.Len.
  destruct (Z.leb_spec (Z.of_nat (size (txSortedMap.items m))) threshold)
    as [Hle|Hgt].
  { exists [], m. unfold txSortedMap.Cap.
    destruct (Z.leb_spec (Z.of_nat (size (txSortedMap.items m))) threshold);
      [|lia].
    split_and!; [done|done|lia|simpl; lia|done]. }
  pose proof (Cap_sorted m (Z.to_nat threshold) Hwf ltac:(lia)) as Hcap.
  rewrite Z2Nat.id in Hcap by done. cbv zeta in Hcap.
  destruct Hwf as (Hheap & Hkeys & Hkeyed & Hcache).
  set (n := Z.to_nat threshold) in *.
  set (its := txSortedMap.items m) in *.
  destruct (sorted_nonces_spec its) as (Hperm & Hnd & Hsorted & Hlen).
  set (ks := sorted_nonces its) in *.
  set (its' := foldr delete its (drop n ks)) in *.
  assert (Hsplit : ks = take n ks ++ drop n ks) by (symmetry; apply take_drop).
  assert (Hhi_nd : NoDup (drop n ks)).
  { rewrite Hsplit in Hnd. by apply NoDup_app in Hnd as (_ & _ & ?). }
  assert (Hlo_nd : NoDup (take n ks)).
  { rewrite Hsplit in Hnd. by apply NoDup_app in Hnd as (? & _ & _). }
  assert (Hdisj : ∀ k, k ∈ take n ks → k ∉ drop n ks).
  { rewrite Hsplit in Hnd. by apply NoDup_app in Hnd as (_ & ? & _). }
  assert (Hhi_key : ∀ k, k ∈ drop n ks → is_Some (its !! k)).
  { intros k Hk. apply keys_lookup. rewrite <- Hperm, Hsplit.
    apply elem_of_app. by right. }
  assert (Hkept : ∀ k, k ∈ take n ks → its' !! k = its !! k).
  { intros k Hk. unfold its'.
    by rewrite lookup_foldr_delete_not_elem_of by by apply Hdisj. }
  assert (Hkeys' : take n ks ≡ₚ (map_to_list its').*1).
  { apply NoDup_Permutation; [done|apply NoDup_fst_map_to_list|].
    intros k. rewrite keys_lookup. split.
    - intros Hk. rewrite Hkept by done. apply keys_lookup.
      rewrite <- Hperm, Hsplit. apply elem_of_app. by left.
    - intros [tx [Hk Htx]%lookup_foldr_delete_Some].
      assert (Hks : k ∈ ks).
      { rewrite Hperm. apply keys_lookup. by eexists. }
      rewrite Hsplit in Hks. by apply elem_of_app in Hks as [?|?]. }
  assert (Hsize : size its' = n).
  { pose proof (size_foldr_delete its (drop n ks) Hhi_nd Hhi_key) as Hs.
    fold its' in Hs. rewrite length_drop in Hs. lia. }
  eexists _, _. split; [exact Hcap|]. simpl. split_and!.
  - split_and!; simpl.
    + apply (Init_heap_ordered _ nonce_less_asym nonce_less_neg_trans).
    + by rewrite Init_perm.
    + intros k tx [Hk Htx]%lookup_foldr_delete_Some. by apply (Hkeyed k tx).
    + intros c Hc. destruct (txSortedMap.cache m); [|done].
      simpl in Hc. injection Hc as <-. unfold flattened.
      assert (Hks' : sorted_nonces its' = take n ks).
      { apply (Sorted_unique N.le).
        - destruct (sorted_nonces_spec its') as (_ & _ & ? & _).
          by apply StronglySorted_Sorted, sorted_lt_le.
        - apply StronglySorted_Sorted, sorted_lt_le.
          rewrite Hsplit in Hsorted. by apply StronglySorted_app_1_l in Hsorted.
        - destruct (sorted_nonces_spec its') as (Hp' & _).
          by rewrite Hp', Hkeys'. }
      rewrite Hks'. apply list_fmap_ext. intros i k Hk.
      symmetry. apply Hkept. by apply list_elem_of_lookup_2 in Hk.
  - lia.
  - rewrite length_fmap, length_reverse, length_drop. lia.
  - lia.
Qed.

(** ** txList.Add *)

Section Add.
Implicit Types (l : txList.t) (tx old : Transaction) (priceBump : N).

(** The test of [Add] on an occupied nonce, as a proposition. *)
Lemma Add_occupied l tx old priceBump :
  txSortedMap.Get (txList.txs l) (Nonce tx) = Some old →
  let threshold := txList.bump_threshold (GasPrice old) priceBump in
  ((GasPrice old < GasPrice tx ∧ threshold ≤ GasPrice tx)%Z →
     txList.Add l tx priceBump =
       (true, Some old,
        {| txList.strict := txList.strict l;
           txList.txs := txSortedMap.Put (txList.txs l) tx;
           txList.costcap :=
             if (txList.costcap l <? Cost tx)%Z then Cost tx
             else txList.costcap l;
           txList.gascap :=
             if (txList.gascap l <? Gas tx)%N then Gas tx
             else txList.gascap l |}))
  ∧ (¬ (GasPrice old < GasPrice tx ∧ threshold ≤ GasPrice tx)%Z →
     txList.Add l tx priceBump = (false, None, l)).
Proof.
  intros Hold threshold. unfold txList.Add. rewrite Hold. fold threshold.
  destruct (Z.geb_spec (GasPrice old) (GasPrice tx));
    destruct (Z.gtb_spec threshold (GasPrice tx)); simpl;
    split; intros; first [done | lia].
Qed.

(** C1, amended: on an occupied nonce, and for a price bump that
    [100 + int64(priceBump)] holds without wrapping around, [Add] accepts
    exactly when the new gas price is above the old one and at least the
    old one raised by the bump and rounded down; it then returns
    [(true, old)], and otherwise [(false, nil)] with the list as it was.
    With a bump of 10 over a price of 100, 109 is refused and 110 taken. *)
Theorem Add_replace_iff_floor l tx old priceBump :
  txSortedMap.Get (txList.txs l) (Nonce tx) = Some old →
  (100 + Z.of_N priceBump < 2 ^ 63)%Z →
  let floor := ((GasPrice old * (100 + Z.of_N priceBump)) `div` 100)%Z in
  let accept := (GasPrice old < GasPrice tx ∧ floor ≤ GasPrice tx)%Z in
  ((txList.Add l tx priceBump).1.1 = true ↔ accept)
  ∧ (accept → (txList.Add l tx priceBump).1 = (true, Some old))
  ∧ (¬ accept → txList.Add l tx priceBump = (false, None, l))
  ∧ (priceBump = 10%N → GasPrice old = 100%Z →
       (GasPrice tx = 109%Z → (txList.Add l tx priceBump).1 = (false, None))
       ∧ (GasPrice tx = 110%Z →
            (txList.Add l tx priceBump).1 = (true, Some old))).
Proof.
  intros Hold Hb floor accept.
  destruct (Add_occupied l tx old priceBump Hold) as [Hyes Hno].
  unfold txList.bump_threshold in Hyes, Hno.
  rewrite bump_factor_small in Hyes, Hno by done.
  fold floor in Hyes, Hno. fold accept in Hyes, Hno.
  assert (Hten : priceBump = 10%N → GasPrice old = 100%Z → floor = 110%Z).
  { intros -> Hp. unfold floor. by rewrite Hp. }
  destruct (decide accept) as [Hd|Hd].
  - rewrite (Hyes Hd). simpl. split; [done|]. split; [done|].
    split; [done|]. intros Hb10 Hp. specialize (Hten Hb10 Hp).
    split; [|done]. intros Hq. unfold accept in Hd. lia.
  - rewrite (Hno Hd). simpl. split; [split; [done|tauto]|].
    split; [tauto|]. split; [done|]. intros Hb10 Hp.
    specialize (Hten Hb10 Hp). split; [done|].
    intros Hq. exfalso. apply Hd. unfold accept. lia.
Qed.

(** C2, amended: on an occupied nonce, and for a price bump that
    [100 + int64(priceBump)] holds without wrapping around, [Add] accepts
    exactly when the new gas price is above the old one and a hundred
    times the new price is at most 99 short of the old price times
    [100 + bump]: the threshold is rounded down before the comparison. *)
Theorem Add_replace_iff_scaled l tx old priceBump :
  txSortedMap.Get (txList.txs l) (Nonce tx) = Some old →
  (100 + Z.of_N priceBump < 2 ^ 63)%Z →
  (txList.Add l tx priceBump).1.1 = true ↔
  (GasPrice old < GasPrice tx
   ∧ GasPrice old * (100 + Z.of_N priceBump) ≤ GasPrice tx * 100 + 99)%Z.
Proof.
  intros Hold Hb.
  destruct (Add_occupied l tx old priceBump Hold) as [Hyes Hno].
  unfold txList.bump_threshold in Hyes, Hno.
  rewrite bump_factor_small in Hyes, Hno by done.
  rewrite floor_div_100_le in Hyes, Hno.
  destruct (decide (GasPrice old < GasPrice tx
    ∧ GasPrice old * (100 + Z.of_N priceBump) ≤ GasPrice tx * 100 + 99)%Z)
    as [Hd|Hd].
  - rewrite (Hyes Hd). simpl. split; [lia | done].
  - rewrite (Hno Hd). simpl. split; [done | lia].
Qed.
End Add.

Lemma Add_replace_iff_floor_witness :
  (txList.Add list_with_5 (tx_of 5 110 21000) 10).1
  = (true, Some (tx_of 5 100 21000)).
Proof.
  pose proof (Add_replace_iff_floor list_with_5 (tx_of 5 110 21000)
                (tx_of 5 100 21000) 10 eq_refl ltac:(vm_compute; done)) as H.
  simpl in H. destruct H as (_ & H & _). apply H. vm_compute. split; [done|].
  intros Hc; discriminate Hc.
Defined.

Lemma Add_replace_iff_scaled_witness :
  (txList.Add list_with_5 (tx_of 5 110 21000) 10).1.1 = true.
Proof.
  apply (Add_replace_iff_scaled list_with_5 (tx_of 5 110 21000)
           (tx_of 5 100 21000) 10 eq_refl); vm_compute; [done|].
  split; [done | intros Hc; discriminate Hc].
Defined.

(** The claim C1 as it is worded fails for a price bump that wraps around:
    with [priceBump = 2^64 - 1] the factor [100 + int64(priceBump)] is 99,
    and a price of 101 replaces one of 100, far below the threshold the
    claim names. *)
Lemma Add_replace_wraps :
  let priceBump := (2 ^ 64 - 1)%N in
  let old := tx_of 5 100 21000 in
  let tx := tx_of 5 101 21000 in
  txSortedMap.Get (txList.txs list_with_5) (Nonce tx) = Some old
  ∧ (txList.Add list_with_5 tx priceBump).1 = (true, Some old)
  ∧ ¬ ((GasPrice old * (100 + Z.of_N priceBump)) `div` 100 ≤ GasPrice tx)%Z.
Proof.
  split_and!; [done | by vm_compute |].
  vm_compute. intros H. by apply H.
Qed.

(** The claim C2 as it is worded fails where the rounding matters: with a
    bump of 15 over a price of 10 the threshold is 11 (11.5 rounded down), a
    price of 11 is accepted, and [11 * 100 < 10 * 115]. *)
Lemma Add_replace_rounds_down :
  let l := (txList.Add (txList.newTxList true) (tx_of 5 10 21000) 15).2 in
  let old := tx_of 5 10 21000 in
  let tx := tx_of 5 11 21000 in
  txSortedMap.Get (txList.txs l) (Nonce tx) = Some old
  ∧ (txList.Add l tx 15).1.1 = true
  ∧ ¬ (GasPrice old < GasPrice tx
       ∧ GasPrice old * (100 + Z.of_N 15) ≤ GasPrice tx * 100)%Z.
Proof.
  split_and!; [done | by vm_compute |].
  vm_compute. intros [_ H]. by apply H.
Qed.

(** ** txList.Filter *)

Lemma Filter_caps `{MapRange} (l : txList.t) (costLimit : Z) (gasLimit : N) :
  let l' := (txList.Filter l costLimit gasLimit).2 in
  (txList.costcap l' ≤ costLimit)%Z ∧ (txList.gascap l' ≤ gasLimit)%N.
Proof.
  unfold txList.Filter.
  destruct ((txList.costcap l <=? costLimit)%Z && (txList.gascap l <=? gasLimit)%N)
    eqn:Hshort.
  - simpl. apply andb_true_iff in Hshort as [Hc Hg].
    apply Z.leb_le in Hc. by apply N.leb_le in Hg.
  - destruct (txSortedMap.Filter (txList.txs l) _) as [removed m].
    destruct (if txList.strict l && (0 <? length removed) then _ else _)
      as [invalids m']. simpl. split; lia.
Qed.

(** C7: [Filter] with the same two limits a second time returns no removed
    and no invalidated transactions, and leaves the list as the first call
    left it: the caps are at or below the limits by then. *)
Theorem Filter_twice_empty `{MapRange} (l : txList.t) (costLimit : Z)
    (gasLimit : N) :
  let l' := (txList.Filter l costLimit gasLimit).2 in
  txList.Filter l' costLimit gasLimit = ([], [], l').
Proof.
  intros l'. destruct (Filter_caps l costLimit gasLimit) as [Hc Hg].
  fold l' in Hc, Hg. unfold txList.Filter at 1.
  assert ((txList.costcap l' <=? costLimit)%Z
          && (txList.gascap l' <=? gasLimit)%N = true) as ->; [|done].
  apply andb_true_iff. split; [by apply Z.leb_le | by apply N.leb_le].
Qed.

(** ** txList.Remove *)

(** C4: in a strict list that stores its transactions under their nonces
    and holds [tx] under nonce [k], [Remove] of [tx] returns true and, as
    invalidated, exactly the stored transactions with a nonce above [k];
    afterwards every transaction left has a nonce below [k], and those are
    the ones that were there before. *)
Theorem strict_Remove_invalidates `{MapRange} (l : txList.t)
    (tx : Transaction) (k : N) :
  let its := txSortedMap.items (txList.txs l) in
  txList.strict l = true →
  keyed_by_nonce its →
  its !! k = Some tx →
  ∃ invalids l',
    txList.Remove l tx = (true, invalids, l')
    ∧ invalids ≡ₚ Some <$> filter (λ t, (k < Nonce t)%N) (map_to_list its).*2
    ∧ (∀ k' t, txSortedMap.items (txList.txs l') !! k' = Some t →
         (k' < k)%N ∧ (Nonce t < k)%N)
    ∧ (∀ k', (k' < k)%N →
         txSortedMap.items (txList.txs l') !! k' = its !! k').
Proof.
  intros its Hstrict Hkeyed Hk.
  assert (Hnonce : Nonce tx = k) by by apply (Hkeyed k tx).
  unfold txList.Remove, txSortedMap.Remove. rewrite Hnonce. fold its.
  rewrite Hk. simpl. rewrite Hstrict.
  set (m := {| txSortedMap.items := delete k its;
               txSortedMap.index := _; txSortedMap.cache := None |}).
  destruct (Filter_spec m (λ t, (k <? Nonce t)%N)) as [Hperm Hlook].
  destruct (txSortedMap.Filter m _) as [invalids m']. simpl in *.
  exists invalids, (txList.with_txs l m'). split_and!; [done|..].
  - rewrite Hperm. apply fmap_Permutation.
    rewrite <- (map_to_list_delete its k tx Hk). rewrite fmap_cons.
    rewrite (filter_cons _ tx). simpl.
    rewrite decide_False by (rewrite Hnonce; lia).
    apply reflexive_eq, list_filter_iff. intros t.
    rewrite Is_true_true. apply N.ltb_lt.
  - intros k' t Ht. simpl in Ht. rewrite Hlook in Ht.
    destruct (decide (k' = k)) as [->|Hne].
    { by rewrite lookup_delete_eq in Ht. }
    rewrite lookup_delete_ne in Ht by done.
    destruct (its !! k') as [t'|] eqn:Hk'; [|done]. simpl in Ht.
    destruct (N.ltb_spec k (Nonce t')) as [Hlt|Hge]; [done|].
    simplify_eq. rewrite (Hkeyed k' t Hk') in *. lia.
  - intros k' Hlt. simpl. rewrite Hlook.
    rewrite lookup_delete_ne by lia.
    destruct (its !! k') as [t'|] eqn:Hk'; [|done]. simpl.
    destruct (N.ltb_spec k (Nonce t')) as [Hgt|Hle]; [|done].
    rewrite (Hkeyed k' t' Hk') in Hgt. lia.
Qed.

(** ** Account lists: the caps and the limits *)

(** *** What the operations of the map leave of its entries *)

Lemma Forward_loop_subseteq (fuel : nat) (t : N) (its : gmap N Transaction)
    (idx : list N) (removed : Transactions) :
  (txSortedMap.Forward_loop fuel t its idx removed).1.1 ⊆ its.
Proof.
  revert its idx removed. induction fuel as [|fuel IH];
    intros its idx removed; simpl; [done|].
  destruct (idx !! 0) as [k|]; [|done].
  destruct (k <? t)%N; [|done].
  destruct (heap.Pop _ idx) as [[nonce idx']|]; [|done].
  etrans; [apply IH|apply delete_subseteq].
Qed.

Lemma Forward_subseteq (m m' : txSortedMap.t) (t : N) (r : Transactions) :
  txSortedMap.Forward m t = Some (r, m') →
  txSortedMap.items m' ⊆ txSortedMap.items m.
Proof.
  unfold txSortedMap.Forward.
  pose proof (Forward_loop_subseteq (length (txSortedMap.index m)) t
                (txSortedMap.items m) (txSortedMap.index m) []) as Hsub.
  destruct (txSortedMap.Forward_loop _ _ _ _ _) as [[its idx] removed].
  simpl in Hsub. destruct (txSortedMap.cache m) as [c|].
  - destruct (length removed <=? length c); [|done]. by intros [= _ <-].
  - by intros [= _ <-].
Qed.

Lemma Cap_loop_subseteq (size : nat) (t : Z) (its its' : gmap N Transaction)
    (idx : list N) (drops drops' : Transactions) :
  txSortedMap.Cap_loop size t its idx drops = Some (its', drops') →
  its' ⊆ its.
Proof.
  revert its drops. induction size as [|size IH]; intros its drops.
  - cbn [txSortedMap.Cap_loop].
    destruct (Z.of_nat 0 >? t)%Z; [done|]. by intros [= <- _].
  - rewrite Cap_loop_S. destruct (Z.of_nat (S size) >? t)%Z.
    + destruct (idx !! size) as [nonce|]; [|done]. simpl.
      intros Hloop%IH. etrans; [done|apply delete_subseteq].
    + by intros [= <- _].
Qed.

Lemma Cap_subseteq (m m' : txSortedMap.t) (t : Z) (r : Transactions) :
  txSortedMap.Cap m t = Some (r, m') →
  txSortedMap.items m' ⊆ txSortedMap.items m.
Proof.
  unfold txSortedMap.Cap.
  destruct (Z.of_nat (size (txSortedMap.items m)) <=? t)%Z.
  { by intros [= _ <-]. }
  destruct (txSortedMap.Cap_loop _ _ _ _ _) as [[its drops]|] eqn:Hloop;
    [|done].
  apply Cap_loop_subseteq in Hloop. simpl.
  destruct (txSortedMap.cache m) as [c|].
  - destruct (length drops <=? length c); [|done]. by intros [= _ <-].
  - by intros [= _ <-].
Qed.

Lemma Ready_loop_subseteq (fuel : nat) (next : N) (its : gmap N Transaction)
    (idx : list N) (ready : Transactions) :
  (txSortedMap.Ready_loop fuel next its idx ready).1.1 ⊆ its.
Proof.
  revert next its idx ready. induction fuel as [|fuel IH];
    intros next its idx ready; simpl; [done|].
  destruct (idx !! 0) as [k|]; [|done].
  destruct (k =? next)%N; [|done].
  destruct (heap.Pop _ idx) as [[nonce idx']|]; [|done].
  etrans; [apply IH|apply delete_subseteq].
Qed.

Lemma Ready_subseteq (m : txSortedMap.t) (start : N) :
  txSortedMap.items (txSortedMap.Ready m start).2 ⊆ txSortedMap.items m.
Proof.
  unfold txSortedMap.Ready.
  destruct (txSortedMap.index m !! 0) as [first|]; [|done].
  destruct (start <? first)%N; [done|].
  pose proof (Ready_loop_subseteq (length (txSortedMap.index m)) first
                (txSortedMap.items m) (txSortedMap.index m) []) as Hsub.
  by destruct (txSortedMap.Ready_loop _ _ _ _ _) as [[its idx] ready].
Qed.

Lemma Remove_items (m : txSortedMap.t) (nonce : N) :
  (txSortedMap.Remove m nonce).1
  = bool_decide (is_Some (txSortedMap.items m !! nonce))
  ∧ txSortedMap.items (txSortedMap.Remove m nonce).2
    = delete nonce (txSortedMap.items m).
Proof.
  unfold txSortedMap.Remove.
  destruct (txSortedMap.items m !! nonce) as [tx|] eqn:Hk; cbn [fst snd].
  - split; [|done]. symmetry. apply bool_decide_eq_true_2. by eexists.
  - split; [|by rewrite delete_id].
    symmetry. apply bool_decide_eq_false_2. by intros [? ?].
Qed.

Section list_more.
Context `{MapRange}.

Lemma Filter_subseteq (m : txSortedMap.t) (filter : Transaction → bool) :
  txSortedMap.items (txSortedMap.Filter m filter).2 ⊆ txSortedMap.items m.
Proof.
  destruct (Filter_spec m filter) as [_ Hlookup].
  apply map_subseteq_spec. intros k tx. rewrite Hlookup.
  destruct (txSortedMap.items m !! k) as [tx'|]; [|done]. simpl.
  by destruct (filter tx').
Qed.

(** The transactions that [Filter] returns are the stored ones that
    satisfy the predicate. *)
Lemma Filter_removed (m : txSortedMap.t) (filter : Transaction → bool)
    (p : txptr) :
  p ∈ (txSortedMap.Filter m filter).1 ↔
  ∃ k tx, p = Some tx ∧ txSortedMap.items m !! k = Some tx
          ∧ filter tx = true.
Proof.
  destruct (Filter_spec m filter) as [Hperm _]. rewrite Hperm.
  rewrite list_elem_of_fmap. split.
  - intros (tx & -> & [Hf Hin]%list_elem_of_filter).
    apply list_elem_of_fmap in Hin as ([k tx'] & -> & Hin).
    apply elem_of_map_to_list in Hin. exists k, tx'.
    split_and!; [done|done|]. by apply Is_true_true.
  - intros (k & tx & -> & Hk & Hf). exists tx. split; [done|].
    apply list_elem_of_filter. split; [by apply Is_true_true|].
    apply list_elem_of_fmap. exists (k, tx). split; [done|].
    by apply elem_of_map_to_list.
Qed.

Lemma caps_dominate_subseteq (l : txList.t) (m : txSortedMap.t) :
  txSortedMap.items m ⊆ txSortedMap.items (txList.txs l) →
  caps_dominate l → caps_dominate (txList.with_txs l m).
Proof.
  intros Hsub Hcaps k tx Hk. apply (Hcaps k tx).
  by apply (lookup_weaken (txSortedMap.items m)).
Qed.

(** *** The caps *)

(** X10: The caps of an empty list bound its transactions, and every operation
    keeps them doing so: [Add] raises them to the cost and the gas of the
    transaction it takes, [Filter] lowers them to limits that the
    transactions it leaves are within, and the others only take
    transactions out. *)
Theorem caps_dominate_kept (l : txList.t) :
  caps_dominate l →
  (∀ strict, caps_dominate (txList.newTxList strict))
  ∧ (∀ tx priceBump, caps_dominate (txList.Add l tx priceBump).2)
  ∧ (∀ t r l', txList.Forward l t = Some (r, l') → caps_dominate l')
  ∧ (∀ costLimit gasLimit,
       caps_dominate (txList.Filter l costLimit gasLimit).2)
  ∧ (∀ t r l', txList.Cap l t = Some (r, l') → caps_dominate l')
  ∧ (∀ tx, caps_dominate (txList.Remove l tx).2)
  ∧ (∀ start, caps_dominate (txList.Ready l start).2)
  ∧ caps_dominate (txList.Flatten l).2.
Proof.
  intros Hcaps. split_and!.
  - intros strict. apply map_Forall_empty.
  - intros tx priceBump. unfold txList.Add.
    destruct (match txSortedMap.Get _ _ with Some _ => _ | None => _ end);
      [done|].
    apply map_Forall_insert_2; simpl.
    + split.
      * destruct (Z.ltb_spec (txList.costcap l) (Cost tx)); lia.
      * destruct (N.ltb_spec (txList.gascap l) (Gas tx)); lia.
    + intros k tx' Hk. destruct (Hcaps k tx' Hk) as [Hc Hg]. simpl. split.
      * destruct (Z.ltb_spec (txList.costcap l) (Cost tx)); lia.
      * destruct (N.ltb_spec (txList.gascap l) (Gas tx)); lia.
  - intros t r l'. unfold txList.Forward.
    destruct (txSortedMap.Forward _ _) as [[removed m]|] eqn:Hf; [|done].
    simpl. intros [= _ <-].
    apply caps_dominate_subseteq; [|done]. by apply Forward_subseteq in Hf.
  - intros costLimit gasLimit. unfold txList.Filter.
    destruct (_ && _); [done|].
    pose proof (Filter_spec (txList.txs l)
                  (λ tx, (Cost tx >? costLimit)%Z || (gasLimit <? Gas tx)%N))
      as [_ Hlookup].
    destruct (txSortedMap.Filter (txList.txs l) _) as [removed m].
    simpl in Hlookup.
    assert (Hsub : ∀ m', txSortedMap.items m' ⊆ txSortedMap.items m →
              caps_dominate {| txList.strict := txList.strict l;
                               txList.txs := m';
                               txList.costcap := costLimit;
                               txList.gascap := gasLimit |}).
    { intros m' Hm' k tx Hk. simpl in *.
      apply (lookup_weaken _ _ _ _ Hk) in Hm'. rewrite Hlookup in Hm'.
      destruct (txSortedMap.items (txList.txs l) !! k) as [tx'|]; [|done].
      simpl in Hm'.
      destruct (Z.gtb_spec (Cost tx') costLimit); [done|].
      destruct (N.ltb_spec gasLimit (Gas tx')); [done|].
      simpl in Hm'. injection Hm' as <-. split; lia. }
    destruct (txList.strict l && (0 <? length removed)).
    + pose proof (Filter_subseteq m
                    (λ tx, (txList.lowest_nonce removed <? Nonce tx)%N)).
      destruct (txSortedMap.Filter m _) as [invalids m']. by apply Hsub.
    + by apply Hsub.
  - intros t r l'. unfold txList.Cap.
    destruct (txSortedMap.Cap _ _) as [[drops m]|] eqn:Hc; [|done].
    simpl. intros [= _ <-].
    apply caps_dominate_subseteq; [|done]. by apply Cap_subseteq in Hc.
  - intros tx. unfold txList.Remove.
    pose proof (Remove_items (txList.txs l) (Nonce tx)) as [_ Hitems].
    destruct (txSortedMap.Remove _ _) as [removed m]. simpl in Hitems.
    destruct removed; simpl; [|done].
    assert (Hsub : txSortedMap.items m ⊆ txSortedMap.items (txList.txs l)).
    { rewrite Hitems. apply delete_subseteq. }
    destruct (txList.strict l).
    + pose proof (Filter_subseteq m (λ tx0, (Nonce tx <? Nonce tx0)%N)).
      destruct (txSortedMap.Filter m _) as [invalids m']. simpl.
      apply caps_dominate_subseteq; [|done]. by etrans.
    + simpl. by apply caps_dominate_subseteq.
  - intros start. unfold txList.Ready.
    pose proof (Ready_subseteq (txList.txs l) start).
    destruct (txSortedMap.Ready _ _) as [ready m]. simpl.
    by apply caps_dominate_subseteq.
  - unfold txList.Flatten, txSortedMap.Flatten.
    destruct (txSortedMap.cache _); simpl; by apply caps_dominate_subseteq.
Qed.

(** *** Filter *)

Lemma over_limits_false (costLimit : Z) (gasLimit : N) (tx : Transaction) :
  over_limits costLimit gasLimit tx = false ↔
  (Cost tx ≤ costLimit)%Z ∧ (Gas tx ≤ gasLimit)%N.
Proof.
  unfold over_limits. rewrite orb_false_iff, N.ltb_ge.
  destruct (Z.gtb_spec (Cost tx) costLimit); intuition (done || lia).
Qed.

(** [Filter] where it walks the map: what it removes, what it invalidates
    and what it leaves, [cut] being the test of the second pass (which
    runs in a strict list when the first has removed something). *)
Lemma Filter_walked (l : txList.t) (costLimit : Z) (gasLimit : N) :
  (txList.costcap l <=? costLimit)%Z && (txList.gascap l <=? gasLimit)%N
  = false →
  let r := txList.Filter l costLimit gasLimit in
  let its := txSortedMap.items (txList.txs l) in
  let over := over_limits costLimit gasLimit in
  let cut := λ tx,
    txList.strict l && (0 <? length r.1.1)
    && (txList.lowest_nonce r.1.1 <? Nonce tx)%N in
  (∀ p, p ∈ r.1.1 ↔
     ∃ k tx, p = Some tx ∧ its !! k = Some tx ∧ over tx = true)
  ∧ (∀ p, p ∈ r.1.2 ↔
       ∃ k tx, p = Some tx ∧ its !! k = Some tx
               ∧ over tx = false ∧ cut tx = true)
  ∧ (∀ k, txSortedMap.items (txList.txs r.2) !! k
          = tx ← its !! k; if over tx || cut tx then None else Some tx).
Proof.
  intros Hwalk r its over cut. subst r cut. unfold txList.Filter.
  rewrite Hwalk.
  change (λ tx : Transaction,
            (Cost tx >? costLimit)%Z || (gasLimit <? Gas tx)%N)
    with over.
  pose proof (Filter_spec (txList.txs l) over) as [_ Hlookup].
  pose proof (Filter_removed (txList.txs l) over) as Hremoved.
  destruct (txSortedMap.Filter (txList.txs l) over) as [removed m].
  cbn [fst snd] in Hlookup, Hremoved. fold its in Hlookup, Hremoved.
  destruct (txList.strict l && (0 <? length removed)) eqn:Hsecond.
  - pose proof (Filter_spec m
                  (λ tx, (txList.lowest_nonce removed <? Nonce tx)%N))
      as [_ Hlookup'].
    pose proof (Filter_removed m
                  (λ tx, (txList.lowest_nonce removed <? Nonce tx)%N))
      as Hinvalid.
    destruct (txSortedMap.Filter m _) as [invalids m'].
    cbn [fst snd txList.txs] in *. rewrite Hsecond. cbn [andb].
    split_and!; [done|..].
    + intros p. rewrite Hinvalid. split.
      * intros (k & tx & -> & Hk & Hcut). exists k, tx.
        rewrite Hlookup in Hk.
        destruct (its !! k) as [tx0|]; [|done]. simpl in Hk.
        destruct (over tx0) eqn:Hover; [done|]. by injection Hk as ->.
      * intros (k & tx & -> & Hk & Hover & Hcut). exists k, tx.
        split_and!; [done| |done]. by rewrite Hlookup, Hk; simpl; rewrite Hover.
    + intros k. rewrite Hlookup', Hlookup.
      destruct (its !! k) as [tx0|]; [|done]. simpl.
      by destruct (over tx0).
  - cbn [fst snd txList.txs]. rewrite Hsecond. cbn [andb].
    split_and!; [done|..].
    + intros p. split; [by intros ?%not_elem_of_nil|].
      by intros (k & tx & _ & _ & _ & ?).
    + intros k. rewrite Hlookup.
      destruct (its !! k) as [tx0|]; [|done]. simpl.
      by rewrite orb_false_r.
Qed.

(** X11: On a list whose caps bound its transactions, [Filter] leaves only
    transactions within the two limits, whether it returns at once or
    walks the map; it returns as removed exactly the stored transactions
    over a limit; every transaction that was stored is still stored or
    among the returned ones; and a list that is not strict invalidates
    nothing. *)
Theorem Filter_enforces_limits (l : txList.t) (costLimit : Z)
    (gasLimit : N) :
  caps_dominate l →
  let r := txList.Filter l costLimit gasLimit in
  let its := txSortedMap.items (txList.txs l) in
  let its' := txSortedMap.items (txList.txs r.2) in
  (∀ k tx, its' !! k = Some tx →
     its !! k = Some tx
     ∧ (Cost tx ≤ costLimit)%Z ∧ (Gas tx ≤ gasLimit)%N)
  ∧ (∀ p, p ∈ r.1.1 ↔
       ∃ k tx, p = Some tx ∧ its !! k = Some tx
               ∧ over_limits costLimit gasLimit tx = true)
  ∧ (∀ k tx, its !! k = Some tx →
       its' !! k = Some tx ∨ Some tx ∈ r.1.1 ∨ Some tx ∈ r.1.2)
  ∧ (txList.strict l = false → r.1.2 = []).
Proof.
  intros Hcaps r its its'.
  destruct ((txList.costcap l <=? costLimit)%Z
            && (txList.gascap l <=? gasLimit)%N) eqn:Hshort.
  { subst r its'. unfold txList.Filter. rewrite Hshort. cbn [fst snd].
    fold its. apply andb_true_iff in Hshort as [Hc%Z.leb_le Hg%N.leb_le].
    assert (Hin : ∀ k tx, its !! k = Some tx →
              (Cost tx ≤ costLimit)%Z ∧ (Gas tx ≤ gasLimit)%N).
    { intros k tx Hk. destruct (Hcaps k tx Hk). split; lia. }
    split_and!.
    - intros k tx Hk. split; [done|]. by apply (Hin k).
    - intros p. split; [by intros ?%not_elem_of_nil|].
      intros (k & tx & -> & Hk & Hover). exfalso.
      apply (Hin k), over_limits_false in Hk. congruence.
    - intros k tx Hk. by left.
    - done. }
  destruct (Filter_walked l costLimit gasLimit Hshort)
    as (Hremoved & Hinvalid & Hlookup).
  fold r in Hremoved, Hinvalid, Hlookup. fold its in Hremoved, Hinvalid, Hlookup.
  fold its' in Hlookup.
  split_and!.
  - intros k tx Hk. rewrite Hlookup in Hk.
    destruct (its !! k) as [tx0|]; [|done]. simpl in Hk.
    destruct (over_limits costLimit gasLimit tx0) eqn:Hover; [done|].
    destruct (_ && _) in Hk; [done|]. injection Hk as ->.
    split; [done|]. by apply over_limits_false.
  - done.
  - intros k tx Hk.
    destruct (over_limits costLimit gasLimit tx) eqn:Hover.
    { right. left. apply Hremoved. by exists k, tx. }
    destruct (txList.strict l && (0 <? length r.1.1)
              && (txList.lowest_nonce r.1.1 <? Nonce tx)%N) eqn:Hcut.
    + right. right. apply Hinvalid. by exists k, tx.
    + left. rewrite Hlookup, Hk. simpl. by rewrite Hover, Hcut.
  - intros Hstrict.
    destruct r.1.2 as [|p ps]; [done|].
    assert (Hp : p ∈ p :: ps) by by left.
    apply Hinvalid in Hp as (k & tx & _ & _ & _ & Hcut).
    by rewrite Hstrict in Hcut.
Qed.

(** The lowest nonce that [Filter] finds among the removed
    transactions. *)
Lemma lowest_nonce_fold (acc : N) (removed : Transactions) :
  let step := λ (lowest : N) (p : txptr),
    match p with
    | Some tx => if (Nonce tx <? lowest)%N then Nonce tx else lowest
    | None => lowest
    end in
  let r := foldl step acc removed in
  (r ≤ acc)%N
  ∧ (∀ tx, Some tx ∈ removed → (r ≤ Nonce tx)%N)
  ∧ (r = acc ∨ ∃ tx, Some tx ∈ removed ∧ Nonce tx = r).
Proof.
  revert acc. induction removed as [|p removed IH]; intros acc; simpl.
  { split_and!; [lia| |by left]. by intros tx ?%not_elem_of_nil. }
  set (acc' := match p with
               | Some tx => if (Nonce tx <? acc)%N then Nonce tx else acc
               | None => acc
               end).
  destruct (IH acc') as (Hle & Hmin & Hin).
  assert (Hacc : (acc' ≤ acc)%N
                 ∧ (∀ tx, p = Some tx → (acc' ≤ Nonce tx)%N)
                 ∧ (acc' = acc ∨ ∃ tx, p = Some tx ∧ Nonce tx = acc')).
  { unfold acc'. destruct p as [tx|].
    - destruct (N.ltb_spec (Nonce tx) acc).
      + split_and!; [lia| |right; by exists tx]. intros ? ?. simplify_eq. lia.
      + split_and!; [lia| |by left]. intros ? ?. simplify_eq. lia.
    - split_and!; [lia|done|by left]. }
  destruct Hacc as (Hle' & Hmin' & Hin').
  split_and!.
  - lia.
  - intros tx [Heq|Htx]%elem_of_cons.
    + symmetry in Heq. specialize (Hmin' tx Heq). lia.
    + by apply Hmin.
  - destruct Hin as [Heq|(tx & Htx & Hn)].
    + destruct Hin' as [Heq'|(tx & -> & Hn)].
      * left. congruence.
      * right. exists tx. split; [by left|congruence].
    + right. exists tx. split; [by right|done].
Qed.

Lemma lowest_nonce_spec (removed : Transactions) :
  (∃ p, p ∈ removed) →
  (∀ p, p ∈ removed → ∃ tx, p = Some tx ∧ (Nonce tx < 2 ^ 64)%N) →
  (∀ tx, Some tx ∈ removed → (txList.lowest_nonce removed ≤ Nonce tx)%N)
  ∧ ∃ tx, Some tx ∈ removed ∧ Nonce tx = txList.lowest_nonce removed.
Proof.
  intros [p Hp] Hall.
  destruct (lowest_nonce_fold txList.MaxUint64 removed) as (Hle & Hmin & Hin).
  cbv zeta in *. fold (txList.lowest_nonce removed) in *.
  split; [done|]. destruct Hin as [Heq|Hin]; [|done].
  destruct (Hall p Hp) as (tx & -> & Hlt). exists tx. split; [done|].
  specialize (Hmin tx Hp). rewrite Heq in Hmin |- *.
  unfold txList.MaxUint64 in *. lia.
Qed.

(** X12: In a strict list that stores its transactions under their nonces,
    [Filter] cuts the list at the lowest nonce it removes: every
    transaction it leaves has a nonce below that of every removed one, and
    the invalidated transactions are exactly the stored ones within the
    limits that have a nonce above that of a removed one. *)
Theorem Filter_strict_cuts (l : txList.t) (costLimit : Z) (gasLimit : N) :
  let its := txSortedMap.items (txList.txs l) in
  txList.strict l = true →
  keyed_by_nonce its →
  (∀ k tx, its !! k = Some tx → (Nonce tx < 2 ^ 64)%N) →
  let r := txList.Filter l costLimit gasLimit in
  let its' := txSortedMap.items (txList.txs r.2) in
  (∀ k tx rm, its' !! k = Some tx → Some rm ∈ r.1.1 →
     (Nonce tx < Nonce rm)%N)
  ∧ (∀ tx, Some tx ∈ r.1.2 ↔
       its !! Nonce tx = Some tx
       ∧ over_limits costLimit gasLimit tx = false
       ∧ ∃ rm, Some rm ∈ r.1.1 ∧ (Nonce rm < Nonce tx)%N).
Proof.
  intros its Hstrict Hkeyed Hbound r its'.
  destruct ((txList.costcap l <=? costLimit)%Z
            && (txList.gascap l <=? gasLimit)%N) eqn:Hshort.
  { subst r its'. unfold txList.Filter. rewrite Hshort. cbn [fst snd].
    split.
    - by intros k tx rm _ ?%not_elem_of_nil.
    - intros tx. split; [by intros ?%not_elem_of_nil|].
      by intros (_ & _ & rm & ?%not_elem_of_nil & _). }
  destruct (Filter_walked l costLimit gasLimit Hshort)
    as (Hremoved & Hinvalid & Hlookup).
  fold r in Hremoved, Hinvalid, Hlookup. fold its in Hremoved, Hinvalid, Hlookup.
  fold its' in Hlookup. rewrite Hstrict in Hinvalid, Hlookup.
  cbn [andb] in Hinvalid, Hlookup.
  set (removed := r.1.1) in *. clearbody removed.
  assert (Hlow : ∀ rm, Some rm ∈ removed →
            (0 <? length removed) = true
            ∧ (txList.lowest_nonce removed ≤ Nonce rm)%N
            ∧ ∃ lo, Some lo ∈ removed
                    ∧ Nonce lo = txList.lowest_nonce removed).
  { intros rm Hrm. destruct (lowest_nonce_spec removed) as [Hmin Hlo].
    - by exists (Some rm).
    - intros p (k & tx & -> & Hk & _)%Hremoved. exists tx. split; [done|].
      by apply (Hbound k).
    - split_and!; [|by apply Hmin|done].
      apply Nat.ltb_lt. destruct removed; [|simpl; lia].
      by apply not_elem_of_nil in Hrm. }
  split.
  - intros k tx rm Hk Hrm. rewrite Hlookup in Hk.
    destruct (its !! k) as [tx0|] eqn:Hk0; [|done]. simpl in Hk.
    destruct (over_limits costLimit gasLimit tx0) eqn:Hover; [done|].
    destruct (Hlow rm Hrm) as (Hsome & Hmin & _).
    rewrite Hsome in Hk. cbn [orb andb] in Hk.
    destruct (N.ltb_spec (txList.lowest_nonce removed) (Nonce tx0));
      [done|].
    injection Hk as ->.
    apply Hremoved in Hrm as (k' & ? & [= <-] & Hk' & Hover').
    assert (Nonce tx ≠ Nonce rm); [|lia]. intros Heq.
    rewrite <- (Hkeyed k tx Hk0) in Hk0.
    rewrite <- (Hkeyed k' rm Hk') in Hk'.
    rewrite Heq, Hk' in Hk0. injection Hk0 as ->. congruence.
  - intros tx. rewrite Hinvalid. split.
    + intros (k & ? & [= <-] & Hk & Hover & Hcut).
      apply andb_true_iff in Hcut as [Hsome Hlt%N.ltb_lt].
      rewrite <- (Hkeyed k tx Hk) in Hk. split_and!; [done|done|].
      assert (Hp : ∃ p, p ∈ removed).
      { destruct removed as [|p ps]; [done|]. exists p. by left. }
      destruct Hp as [p Hp].
      pose proof Hp as (k' & rm & -> & _)%Hremoved.
      destruct (Hlow rm Hp) as (_ & _ & lo & Hlo & Hlon).
      exists lo. split; [done|lia].
    + intros (Hk & Hover & rm & Hrm & Hlt).
      destruct (Hlow rm Hrm) as (Hsome & Hmin & _).
      exists (Nonce tx), tx. rewrite Hsome. cbn [andb].
      split_and!; [done|done|done|]. apply N.ltb_lt. lia.
Qed.

(** *** Remove *)

(** X13: In a list that is not strict, [Remove] reports whether a transaction
    was stored under the nonce of the given one, deletes that entry and no
    other, and invalidates nothing; when the nonce is not stored the list
    is as it was. *)
Theorem Remove_nonstrict (l : txList.t) (tx : Transaction) :
  txList.strict l = false →
  let r := txList.Remove l tx in
  let its := txSortedMap.items (txList.txs l) in
  r.1.1 = bool_decide (is_Some (its !! Nonce tx))
  ∧ r.1.2 = []
  ∧ txSortedMap.items (txList.txs r.2) = delete (Nonce tx) its
  ∧ (its !! Nonce tx = None → r.2 = l).
Proof.
  intros Hstrict r its. subst r. unfold txList.Remove.
  pose proof (Remove_items (txList.txs l) (Nonce tx)) as [Hflag Hitems].
  fold its in Hflag, Hitems.
  destruct (txSortedMap.Remove _ _) as [removed m].
  cbn [fst snd] in Hflag, Hitems. rewrite Hstrict, <- Hflag.
  destruct removed; cbn [negb fst snd txList.txs].
  - split_and!; [done|done|done|]. intros Hnone.
    rewrite Hnone in Hflag. symmetry in Hflag.
    apply bool_decide_eq_true in Hflag. by destruct Hflag.
  - split_and!; [done|done| |done].
    symmetry in Hflag. apply bool_decide_eq_false in Hflag.
    rewrite delete_id; [done|].
    by destruct (its !! Nonce tx); [destruct Hflag; eexists|].
Qed.
End list_more.

(** *** Add *)

(** X9: A transaction with a nonce that the list does not hold is taken
    whatever the price bump: [Add] returns true and no replaced
    transaction, the list holds the transaction afterwards and one
    transaction more, and its other entries are as they were. *)
Theorem Add_fresh_nonce (l : txList.t) (tx : Transaction) (priceBump : N) :
  txList.Overlaps l tx = false →
  ∃ l', txList.Add l tx priceBump = (true, None, l')
        ∧ txList.Overlaps l' tx = true
        ∧ txSortedMap.Get (txList.txs l') (Nonce tx) = Some tx
        ∧ (∀ k, k ≠ Nonce tx →
             txSortedMap.Get (txList.txs l') k
             = txSortedMap.Get (txList.txs l) k)
        ∧ txList.Len l' = S (txList.Len l)
        ∧ txList.strict l' = txList.strict l.
Proof.
  unfold txList.Overlaps. intros Hfree%bool_decide_eq_false.
  assert (Hnone : txSortedMap.Get (txList.txs l) (Nonce tx) = None).
  { destruct (txSortedMap.Get _ _); [|done]. destruct Hfree. by eexists. }
  unfold txList.Add. rewrite Hnone. eexists. split; [done|].
  unfold txSortedMap.Get in *. split_and!; simpl.
  - apply bool_decide_eq_true_2. unfold txSortedMap.Get. simpl.
    rewrite lookup_insert_eq. by eexists.
  - apply lookup_insert_eq.
  - intros k Hk. by apply lookup_insert_ne.
  - unfold txList.Len, txSortedMap.Len. simpl.
    by rewrite map_size_insert_None.
  - done.
Qed.

(** ** txPricedList *)

Section priced.
Import txPricedList.
Implicit Types (all : gmap N Transaction) (local : Transaction → bool).
Implicit Types (its drop save : list Transaction) (st : Z).

Lemma push_all_perm its save : push_all its save ≡ₚ its ++ save.
Proof.
  unfold push_all. revert its.
  induction save as [|tx save IH]; intros its; simpl.
  - by rewrite app_nil_r.
  - rewrite IH, Push_perm. solve_Permutation.
Qed.

(** [len(items)] rounds bring each of the three loops to its end: more
    change nothing. *)
Lemma priced_Cap_loop_fuel fuel fuel' all threshold local its st drop save :
  length its ≤ fuel → length its ≤ fuel' →
  Cap_loop fuel all threshold local its st drop save
  = Cap_loop fuel' all threshold local its st drop save.
Proof.
  revert fuel' its st drop save.
  induction fuel as [|fuel IH]; intros [|fuel'] its st drop save Hf Hf'; simpl;
    try done.
  - destruct its; [done|simpl in *; lia].
  - destruct its; [done|simpl in *; lia].
  - destruct (heap.Pop price_less its) as [[tx its']|] eqn:Hpop; [|done].
    apply Pop_Some in Hpop as (_ & _ & Hlen).
    repeat case_match; try done; apply IH; lia.
Qed.

Lemma skim_loop_fuel fuel fuel' all its st :
  length its ≤ fuel → length its ≤ fuel' →
  skim_loop fuel all its st = skim_loop fuel' all its st.
Proof.
  revert fuel' its st.
  induction fuel as [|fuel IH]; intros [|fuel'] its st Hf Hf'; simpl; try done.
  - destruct its; [done|simpl in *; lia].
  - destruct its; [done|simpl in *; lia].
  - destruct (its !! 0) as [head|] eqn:Hhead; [|done].
    destruct (stale all head); [|done].
    destruct (Pop_head price_less its head Hhead) as (its' & -> & _ & Hlen & _).
    apply IH; lia.
Qed.

Lemma Discard_loop_fuel fuel fuel' all count local its st drop save :
  length its ≤ fuel → length its ≤ fuel' →
  Discard_loop fuel all count local its st drop save
  = Discard_loop fuel' all count local its st drop save.
Proof.
  revert fuel' its st drop save count.
  induction fuel as [|fuel IH]; intros [|fuel'] its st drop save count Hf Hf';
    simpl; try done.
  - destruct its; [|simpl in *; lia]. by destruct (count >? 0)%Z.
  - destruct its; [|simpl in *; lia]. by destruct (count >? 0)%Z.
  - destruct (count >? 0)%Z; [|done].
    destruct (heap.Pop price_less its) as [[tx its']|] eqn:Hpop; [|done].
    apply Pop_Some in Hpop as (_ & _ & Hlen).
    repeat case_match; try done; apply IH; lia.
Qed.

Lemma scanned_nothing all local its st drop save :
  scanned all local its (its, st, drop, save) drop save [].
Proof. exists [], []. simpl. by rewrite !app_nil_r. Qed.

Lemma Cap_loop_scanned fuel all threshold local its st drop save :
  ∃ skipped,
    scanned all local its
      (Cap_loop fuel all threshold local its st drop save) drop save skipped.
Proof.
  revert its st drop save.
  induction fuel as [|fuel IH]; intros its st drop save; simpl;
    [eexists; apply scanned_nothing|].
  destruct (heap.Pop price_less its) as [[tx its']|] eqn:Hpop;
    [|eexists; apply scanned_nothing].
  apply Pop_Some in Hpop as (_ & Hperm & _).
  destruct (stale all tx) eqn:Hstale; [|destruct (GasPrice tx >=? threshold)%Z;
    [|destruct (local tx) eqn:Hlocal]].
  - destruct (IH its' (wrap_int64 (st - 1)) drop save)
      as (k & d & s & Hd & Hs & Hp & Fd & Fs & Fk).
    exists (tx :: k), d, s. split_and!; try done.
    + rewrite Hp in Hperm. rewrite Hperm. solve_Permutation.
    + by constructor.
  - exists [], [], [tx]. simpl. rewrite !app_nil_r. split_and!; try done.
    + rewrite Hperm. solve_Permutation.
    + by constructor.
  - destruct (IH its' st drop (save ++ [tx]))
      as (k & d & s & Hd & Hs & Hp & Fd & Fs & Fk).
    exists k, d, (tx :: s). split_and!; try done.
    + by rewrite Hs, <- app_assoc.
    + rewrite Hp in Hperm. rewrite Hperm. solve_Permutation.
    + by constructor.
  - destruct (IH its' st (drop ++ [tx]) save)
      as (k & d & s & Hd & Hs & Hp & Fd & Fs & Fk).
    exists k, (tx :: d), s. split_and!; try done.
    + by rewrite Hd, <- app_assoc.
    + rewrite Hp in Hperm. rewrite Hperm. solve_Permutation.
    + by constructor.
Qed.

Lemma Discard_loop_scanned fuel all count local its st drop save :
  ∃ skipped,
    scanned all local its
      (Discard_loop fuel all count local its st drop save) drop save skipped.
Proof.
  revert its st drop save count.
  induction fuel as [|fuel IH]; intros its st drop save count; simpl;
    [eexists; apply scanned_nothing|].
  destruct (count >? 0)%Z; [|eexists; apply scanned_nothing].
  destruct (heap.Pop price_less its) as [[tx its']|] eqn:Hpop;
    [|eexists; apply scanned_nothing].
  apply Pop_Some in Hpop as (_ & Hperm & _).
  destruct (stale all tx) eqn:Hstale; [|destruct (local tx) eqn:Hlocal].
  - destruct (IH its' (wrap_int64 (st - 1)) drop save count)
      as (k & d & s & Hd & Hs & Hp & Fd & Fs & Fk).
    exists (tx :: k), d, s. split_and!; try done.
    + rewrite Hp in Hperm. rewrite Hperm. solve_Permutation.
    + by constructor.
  - destruct (IH its' st drop (save ++ [tx]) count)
      as (k & d & s & Hd & Hs & Hp & Fd & Fs & Fk).
    exists k, d, (tx :: s). split_and!; try done.
    + by rewrite Hs, <- app_assoc.
    + rewrite Hp in Hperm. rewrite Hperm. solve_Permutation.
    + by constructor.
  - destruct (IH its' st (drop ++ [tx]) save (count - 1)%Z)
      as (k & d & s & Hd & Hs & Hp & Fd & Fs & Fk).
    exists k, (tx :: d), s. split_and!; try done.
    + by rewrite Hd, <- app_assoc.
    + rewrite Hp in Hperm. rewrite Hperm. solve_Permutation.
    + by constructor.
Qed.

Lemma scanned_drop_remote all local its r skipped tx :
  scanned all local its r [] [] skipped → tx ∈ r.1.2 → local tx = false.
Proof.
  intros (d & s & Hd & _ & _ & Fd & _) Hin. simpl in Hd. rewrite Hd in Hin.
  rewrite Forall_forall in Fd. by apply Fd.
Qed.

Lemma scanned_keeps_live_local all local its r skipped tx :
  scanned all local its r [] [] skipped →
  tx ∈ its → local tx = true → stale all tx = false →
  tx ∈ push_all r.1.1.1 r.2.
Proof.
  intros (d & s & _ & Hs & Hp & Fd & _ & Fk) Hin Hlocal Hlive.
  rewrite push_all_perm. simpl in Hs. rewrite Hs.
  rewrite Hp in Hin. rewrite !elem_of_app in Hin. rewrite elem_of_app.
  rewrite Forall_forall in Fd. rewrite Forall_forall in Fk.
  destruct Hin as [?|[Hin|[?|Hin]]]; [by left| |by right|].
  - apply Fd in Hin as [? _]. congruence.
  - apply Fk in Hin. congruence.
Qed.

(** C5, amended: neither [Discard] nor [Cap] returns a transaction that
    [local] holds, and a local transaction of the heap that the pool's map
    still has is in the heap afterwards.  (A stale entry is dropped from
    the heap when it is popped, local or not.)  [Discard] returns when the
    runtime grants a slice of capacity [count], and only then. *)
Theorem priced_scans_spare_locals `{MakeSlice} all (l : t)
    (count threshold : Z) local :
  let capped := Cap all l threshold local in
  (is_Some (Discard all l count local) ↔ make_ok count = true)
  ∧ (∀ discarded, Discard all l count local = Some discarded →
       (∀ tx, tx ∈ discarded.1 → local tx = false)
       ∧ (∀ tx, tx ∈ items l → local tx = true → stale all tx = false →
            tx ∈ items discarded.2))
  ∧ (∀ tx, tx ∈ capped.1 → local tx = false)
  ∧ (∀ tx, tx ∈ items l → local tx = true → stale all tx = false →
       tx ∈ items capped.2).
Proof.
  unfold Discard, Cap.
  destruct (Discard_loop_scanned (length (items l)) all count local
              (items l) (stales l) [] []) as [kd Hd].
  destruct (Cap_loop_scanned (length (items l)) all threshold local
              (items l) (stales l) [] []) as [kc Hc].
  destruct (Discard_loop _ _ _ _ _ _ _ _) as [[[its1 st1] drop1] save1].
  destruct (Cap_loop _ _ _ _ _ _ _ _) as [[[its2 st2] drop2] save2].
  simpl. split_and!.
  - destruct (make_ok count); split; done.
  - intros discarded Hsome.
    destruct (make_ok count); [|done]. simplify_eq. simpl. split.
    + intros tx. apply (scanned_drop_remote _ _ _ _ _ _ Hd).
    + intros tx Hin Hlocal Hlive.
      apply (scanned_keeps_live_local _ _ _ _ _ _ Hd Hin Hlocal Hlive).
  - intros tx. apply (scanned_drop_remote _ _ _ _ _ _ Hc).
  - intros tx Hin Hlocal Hlive.
    apply (scanned_keeps_live_local _ _ _ _ _ _ Hc Hin Hlocal Hlive).
Qed.

(** *** The stale counter *)

Lemma skim_loop_bound fuel all its st :
  (- 2 ^ 63 + Z.of_nat (length its) ≤ st < 2 ^ 63)%Z →
  (st ≤ Z.of_nat (length its) `quot` 4)%Z →
  let r := skim_loop fuel all its st in
  (r.2 ≤ Z.of_nat (length r.1) `quot` 4)%Z.
Proof.
  revert its st. induction fuel as [|fuel IH]; intros its st Hr Hb; simpl;
    [done|].
  destruct (its !! 0) as [head|] eqn:Hhead; [|done].
  destruct (stale all head); [|done].
  destruct (Pop_head price_less its head Hhead) as (its' & -> & _ & Hlen & _).
  rewrite Hlen in Hr, Hb.
  rewrite wrap_int64_small by lia.
  apply IH; [lia|].
  revert Hb. generalize (length its'). intros n Hb.
  zify. Z.to_euclidean_division_equations. lia.
Qed.

(** The loops of [Cap] and [Discard] lower the counter by one for every
    stale entry they pop. *)
Lemma Cap_loop_lowers fuel all threshold local its st drop save :
  (- 2 ^ 63 + Z.of_nat (length its) ≤ st < 2 ^ 63)%Z →
  ∃ skipped,
    scanned all local its
      (Cap_loop fuel all threshold local its st drop save) drop save skipped
    ∧ (Cap_loop fuel all threshold local its st drop save).1.1.2
      = (st - Z.of_nat (length skipped))%Z.
Proof.
  revert its st drop save.
  induction fuel as [|fuel IH]; intros its st drop save Hr; simpl.
  { exists []. split; [apply scanned_nothing|simpl; lia]. }
  destruct (heap.Pop price_less its) as [[tx its']|] eqn:Hpop.
  2:{ exists []. split; [apply scanned_nothing|simpl; lia]. }
  apply Pop_Some in Hpop as (_ & Hperm & Hlen).
  destruct (stale all tx) eqn:Hstale; [|destruct (GasPrice tx >=? threshold)%Z;
    [|destruct (local tx) eqn:Hlocal]].
  - destruct (IH its' (wrap_int64 (st - 1)) drop save)
      as (k & (d & s & Hd & Hs & Hp & Fd & Fs & Fk) & Hst).
    { rewrite wrap_int64_small by lia. lia. }
    exists (tx :: k). split.
    + exists d, s. split_and!; try done.
      * rewrite Hp in Hperm. rewrite Hperm. solve_Permutation.
      * by constructor.
    + rewrite Hst, wrap_int64_small by lia. simpl length. lia.
  - exists []. split; [|simpl; lia].
    exists [], [tx]. simpl. rewrite !app_nil_r. split_and!; try done.
    + rewrite Hperm. solve_Permutation.
    + by constructor.
  - destruct (IH its' st drop (save ++ [tx]))
      as (k & (d & s & Hd & Hs & Hp & Fd & Fs & Fk) & Hst); [lia|].
    exists k. split; [|done].
    exists d, (tx :: s). split_and!; try done.
    + by rewrite Hs, <- app_assoc.
    + rewrite Hp in Hperm. rewrite Hperm. solve_Permutation.
    + by constructor.
  - destruct (IH its' st (drop ++ [tx]) save)
      as (k & (d & s & Hd & Hs & Hp & Fd & Fs & Fk) & Hst); [lia|].
    exists k. split; [|done].
    exists (tx :: d), s. split_and!; try done.
    + by rewrite Hd, <- app_assoc.
    + rewrite Hp in Hperm. rewrite Hperm. solve_Permutation.
    + by constructor.
Qed.

Lemma Discard_loop_lowers fuel all count local its st drop save :
  (- 2 ^ 63 + Z.of_nat (length its) ≤ st < 2 ^ 63)%Z →
  ∃ skipped,
    scanned all local its
      (Discard_loop fuel all count local its st drop save) drop save skipped
    ∧ (Discard_loop fuel all count local its st drop save).1.1.2
      = (st - Z.of_nat (length skipped))%Z.
Proof.
  revert its st drop save count.
  induction fuel as [|fuel IH]; intros its st drop save count Hr; simpl.
  { exists []. split; [apply scanned_nothing|simpl; lia]. }
  destruct (count >? 0)%Z.
  2:{ exists []. split; [apply scanned_nothing|simpl; lia]. }
  destruct (heap.Pop price_less its) as [[tx its']|] eqn:Hpop.
  2:{ exists []. split; [apply scanned_nothing|simpl; lia]. }
  apply Pop_Some in Hpop as (_ & Hperm & Hlen).
  destruct (stale all tx) eqn:Hstale; [|destruct (local tx) eqn:Hlocal].
  - destruct (IH its' (wrap_int64 (st - 1)) drop save count)
      as (k & (d & s & Hd & Hs & Hp & Fd & Fs & Fk) & Hst).
    { rewrite wrap_int64_small by lia. lia. }
    exists (tx :: k). split.
    + exists d, s. split_and!; try done.
      * rewrite Hp in Hperm. rewrite Hperm. solve_Permutation.
      * by constructor.
    + rewrite Hst, wrap_int64_small by lia. simpl length. lia.
  - destruct (IH its' st drop (save ++ [tx]) count)
      as (k & (d & s & Hd & Hs & Hp & Fd & Fs & Fk) & Hst); [lia|].
    exists k. split; [|done].
    exists d, (tx :: s). split_and!; try done.
    + by rewrite Hs, <- app_assoc.
    + rewrite Hp in Hperm. rewrite Hperm. solve_Permutation.
    + by constructor.
  - destruct (IH its' st (drop ++ [tx]) save (count - 1)%Z)
      as (k & (d & s & Hd & Hs & Hp & Fd & Fs & Fk) & Hst); [lia|].
    exists k. split; [|done].
    exists (tx :: d), s. split_and!; try done.
    + by rewrite Hd, <- app_assoc.
    + rewrite Hp in Hperm. rewrite Hperm. solve_Permutation.
    + by constructor.
Qed.

(** What a loop that started with nothing dropped and nothing saved has
    done, once the saved transactions are pushed back. *)
Lemma scanned_trimmed all local (l : t) r skipped :
  scanned all local (items l) r [] [] skipped →
  r.1.1.2 = (stales l - Z.of_nat (length skipped))%Z →
  trimmed all l
    (r.1.2, {| items := push_all r.1.1.1 r.2; stales := r.1.1.2 |}).
Proof.
  intros (d & s & Hd & Hs & Hp & Fd & Fs & Fk) Hst.
  exists skipped. simpl in *. subst d s. split_and!; [|done|done].
  rewrite push_all_perm, Hp. solve_Permutation.
Qed.

(** C6, amended: after [Removed] the stale counter is at most a quarter of
    the heap's length, or the heap was just rebuilt from the pool's map
    with the counter back at zero; [Put] keeps the bound when it held
    before, and so does [Underpriced] for a counter that cannot wrap
    around below (it is an int64 at least the heap's length above the
    lowest one).  For such a counter [Cap] and [Discard] do not rebuild:
    they take the returned transactions and some stale entries off the
    heap and lower the counter by the number of those stale entries.
    (Both can leave the counter above the bound.) *)
Theorem stale_bound_kept `{MapRange} `{MakeSlice} all (l : t)
    (tx : Transaction) local :
  let counter_fits :=
    (- 2 ^ 63 + Z.of_nat (length (items l)) ≤ stales l < 2 ^ 63)%Z in
  (stale_bound (Removed all l) ∨ rebuilt all (Removed all l))
  ∧ (stale_bound l → stale_bound (Put l tx))
  ∧ (stale_bound l → counter_fits →
     stale_bound (Underpriced all l tx local).2)
  ∧ (counter_fits →
     ∀ threshold, trimmed all l (Cap all l threshold local))
  ∧ (counter_fits →
     ∀ count r, Discard all l count local = Some r → trimmed all l r).
Proof.
  intros counter_fits. subst counter_fits. split_and!.
  - unfold Removed.
    destruct (Z.leb_spec (wrap_int64 (stales l + 1))
                (Z.of_nat (length (items l)) `quot` 4)) as [Hle|Hgt].
    + by left.
    + right. split; [done|]. simpl.
      by rewrite Init_perm, go_range_perm.
  - unfold stale_bound, Put. simpl. rewrite Push_length.
    generalize (length (items l)). intros n Hb.
    zify. Z.to_euclidean_division_equations. lia.
  - intros Hb Hfits. unfold Underpriced.
    destruct (local tx); [done|].
    pose proof (skim_loop_bound (length (items l)) all (items l) (stales l)
                  Hfits Hb) as Hskim.
    destruct (skim_loop _ _ _ _) as [its st].
    by destruct (its !! 0).
  - intros Hfits threshold. unfold Cap.
    destruct (Cap_loop_lowers (length (items l)) all threshold local
                (items l) (stales l) [] [] Hfits) as (skipped & Hsc & Hst).
    pose proof (scanned_trimmed all local l _ skipped Hsc Hst) as Htrim.
    by destruct (Cap_loop _ _ _ _ _ _ _ _) as [[[its st] drop] save].
  - intros Hfits count r. unfold Discard.
    destruct (make_ok count); [|done].
    destruct (Discard_loop_lowers (length (items l)) all count local
                (items l) (stales l) [] [] Hfits) as (skipped & Hsc & Hst).
    pose proof (scanned_trimmed all local l _ skipped Hsc Hst) as Htrim.
    destruct (Discard_loop _ _ _ _ _ _ _ _) as [[[its st] drop] save].
    by intros [= <-].
Qed.
End priced.

Lemma stale_bound_kept_witness :
  let l' := (txPricedList.Underpriced pool_without_cheapest
               priced_five_top_stale (tx_of 9 9 21000) (λ _, false)).2 in
  length (txPricedList.items priced_five_top_stale) = 5
  ∧ length (txPricedList.items l') = 4
  ∧ stale_bound l'
  ∧ trimmed pool_without_cheapest priced_five_top_stale
      (txPricedList.Cap pool_without_cheapest priced_five_top_stale 5
         (λ _, false)).
Proof.
  pose proof (stale_bound_kept pool_without_cheapest priced_five_top_stale
                (tx_of 9 9 21000) (λ _, false))
    as (_ & _ & Hunder & Hcap & _).
  split_and!; [by vm_compute | by vm_compute | |].
  - apply Hunder; vm_compute; [congruence|split; congruence].
  - apply Hcap. vm_compute. split; congruence.
Defined.

(** The claim C5 as it is worded fails for a stale entry: a local
    transaction that the pool no longer holds is popped by the scan and not
    pushed back.  Here the fifth transaction is local and stale; [Discard]
    and [Cap] empty the heap. *)
Lemma Discard_drops_stale_local :
  let tx := tx_of 5 20 21000 in
  let local := λ tx : Transaction, bool_decide (Nonce tx = 5%N) in
  tx ∈ txPricedList.items priced_five
  ∧ local tx = true
  ∧ txPricedList.Discard pool_of_four priced_five 5 local
    = Some
        ([tx_of 1 1 21000; tx_of 2 2 21000; tx_of 3 3 21000;
          tx_of 4 10 21000],
         {| txPricedList.items := []; txPricedList.stales := 0 |})
  ∧ txPricedList.Cap pool_of_four priced_five 100 local
    = ([tx_of 1 1 21000; tx_of 2 2 21000; tx_of 3 3 21000; tx_of 4 10 21000],
       {| txPricedList.items := []; txPricedList.stales := 0 |}).
Proof.
  split_and!.
  - apply (bool_decide_unpack _). by vm_compute.
  - by vm_compute.
  - by vm_compute.
  - by vm_compute.
Qed.

(** The claim C6 as it is worded fails for [Cap] and for [Discard]: on a
    heap of five entries with one stale entry, counted and within the
    bound, either of them drops the three cheapest transactions, does not
    rebuild, and leaves the counter at 1 over a heap of two. *)
Lemma scans_break_stale_bound :
  let left :=
    {| txPricedList.items := [tx_of 4 10 21000; tx_of 5 20 21000];
       txPricedList.stales := 1 |} in
  let cheapest := [tx_of 1 1 21000; tx_of 2 2 21000; tx_of 3 3 21000] in
  stale_bound priced_five
  ∧ txPricedList.Cap pool_of_four priced_five 5 (λ _, false)
    = (cheapest, left)
  ∧ txPricedList.Discard pool_of_four priced_five 3 (λ _, false)
    = Some (cheapest, left)
  ∧ ¬ (stale_bound left ∨ rebuilt pool_of_four left).
Proof.
  split_and!; [by vm_compute | by vm_compute | by vm_compute |].
  intros [Hb|[H0 _]]; [|by vm_compute in H0].
  vm_compute in Hb. by apply Hb.
Qed.

(** ** The price heap: its order and what the scans return *)

Section priced_more.
Import txPricedList.
Implicit Types (all : gmap N Transaction) (local : Transaction → bool).
Implicit Types (its drop save : list Transaction) (st : Z).

(** [first_in_price a b]: [a] is not after [b] in the order of the heap. *)
Local Abbreviation first_in_price := (not_after price_less).
Local Abbreviation price_heap := (heap_ordered price_less).

(** *** The order *)

Lemma price_less_true (a b : Transaction) :
  price_less a b = true ↔
  (GasPrice a < GasPrice b)%Z
  ∨ (GasPrice a = GasPrice b ∧ (Nonce b < Nonce a)%N).
Proof.
  unfold price_less.
  destruct (Z.compare_spec (GasPrice a) (GasPrice b)) as [Heq|Hlt|Hgt].
  - rewrite N.ltb_lt. intuition lia.
  - intuition lia.
  - split; [done|]. lia.
Qed.

Lemma price_less_false (a b : Transaction) :
  price_less a b = false ↔
  (GasPrice b < GasPrice a)%Z
  ∨ (GasPrice a = GasPrice b ∧ (Nonce a ≤ Nonce b)%N).
Proof. rewrite <- not_true_iff_false, price_less_true. lia. Qed.

Lemma price_less_asym (a b : Transaction) :
  price_less a b = true → price_less b a = false.
Proof. rewrite price_less_true, price_less_false. lia. Qed.

Lemma price_less_neg_trans (a b c : Transaction) :
  price_less b a = false → price_less c b = false → price_less c a = false.
Proof. rewrite !price_less_false. lia. Qed.

Lemma first_in_price_le (a b : Transaction) :
  first_in_price a b → (GasPrice a ≤ GasPrice b)%Z.
Proof. unfold not_after. rewrite price_less_false. lia. Qed.

(** X14: [priceHeap.Less] is a strict weak order: the cheaper transaction comes
    first and, at the same price, the one with the higher nonce; only
    transactions of the same price and nonce are left unordered. *)
Theorem price_less_strict_weak :
  (∀ a, price_less a a = false)
  ∧ (∀ a b, price_less a b = true → price_less b a = false)
  ∧ (∀ a b c, price_less a b = true → price_less b c = true →
       price_less a c = true)
  ∧ (∀ a b, price_less a b = false ∧ price_less b a = false ↔
       GasPrice a = GasPrice b ∧ Nonce a = Nonce b)
  ∧ (∀ a b, (GasPrice a < GasPrice b)%Z → price_less a b = true)
  ∧ (∀ a b, GasPrice a = GasPrice b →
       (price_less a b = true ↔ (Nonce b < Nonce a)%N))
  ∧ (∀ a b, price_less a b = true → (GasPrice a ≤ GasPrice b)%Z).
Proof.
  split_and!.
  - intros a. apply price_less_false. lia.
  - apply price_less_asym.
  - intros a b c. rewrite !price_less_true. lia.
  - intros a b. rewrite !price_less_false. lia.
  - intros a b. rewrite price_less_true. lia.
  - intros a b. rewrite price_less_true. lia.
  - intros a b. rewrite price_less_true. lia.
Qed.

Lemma push_all_heap its save :
  price_heap its → price_heap (push_all its save).
Proof.
  unfold push_all. revert its.
  induction save as [|tx save IH]; intros its Hh; simpl; [done|].
  apply IH. by apply (Push_heap_ordered _ price_less_asym price_less_neg_trans).
Qed.

Lemma Pop_first its tx its' :
  price_heap its → heap.Pop price_less its = Some (tx, its') →
  its ≡ₚ tx :: its' ∧ length its = S (length its')
  ∧ price_heap its' ∧ ∀ x, x ∈ its → first_in_price tx x.
Proof.
  intros Hh Hpop. pose proof (Pop_Some _ _ _ _ Hpop) as (H0 & Hperm & Hlen).
  split_and!; [done|done|..].
  - by apply (Pop_heap_ordered _ price_less_asym price_less_neg_trans
                _ _ _ Hh Hpop).
  - intros x Hx.
    by apply (heap_root_first _ price_less_asym price_less_neg_trans its).
Qed.

Lemma Pop_None its : heap.Pop price_less its = None → its = [].
Proof.
  intros Hpop. destruct its as [|x its]; [done|].
  destruct (Pop_is_Some price_less (x :: its)) as [? ?]; [done|congruence].
Qed.

(** *** Put and Removed *)

(** X15: [Put] adds the transaction and keeps the heap in order and the stale
    counter as it is.  [Removed] keeps the heap in order as well: while
    the counter, raised by one, is within a quarter of the heap it changes
    nothing else, and once it is above it replaces the heap by one of
    exactly the transactions of the pool's map and puts the counter back
    to zero. *)
Theorem Put_Removed_keep_heap `{MapRange} all (l : t) (tx : Transaction) :
  price_heap (items l) →
  (- 2 ^ 63 ≤ stales l < 2 ^ 63 - 1)%Z →
  let quarter := (Z.of_nat (length (items l)) `quot` 4)%Z in
  (price_heap (items (Put l tx))
   ∧ items (Put l tx) ≡ₚ tx :: items l
   ∧ stales (Put l tx) = stales l)
  ∧ price_heap (items (Removed all l))
  ∧ ((stales l + 1 ≤ quarter)%Z →
       Removed all l = {| items := items l; stales := stales l + 1 |})
  ∧ ((quarter < stales l + 1)%Z →
       stales (Removed all l) = 0%Z
       ∧ items (Removed all l) ≡ₚ (map_to_list all).*2).
Proof.
  intros Hh Hst quarter.
  assert (Hw : wrap_int64 (stales l + 1) = (stales l + 1)%Z)
    by (apply wrap_int64_small; lia).
  split_and!.
  - by apply (Push_heap_ordered _ price_less_asym price_less_neg_trans).
  - apply Push_perm.
  - done.
  - unfold Removed. rewrite Hw. fold quarter.
    destruct (Z.leb_spec (stales l + 1) quarter); simpl; [done|].
    apply (Init_heap_ordered _ price_less_asym price_less_neg_trans).
  - intros Hle. unfold Removed. rewrite Hw. fold quarter.
    by destruct (Z.leb_spec (stales l + 1) quarter); [|lia].
  - intros Hgt. unfold Removed. rewrite Hw. fold quarter.
    destruct (Z.leb_spec (stales l + 1) quarter); [lia|]. simpl.
    split; [done|]. by rewrite Init_perm, go_range_perm.
Qed.

(** *** Underpriced *)

(** The loop of [Underpriced] pops stale entries only, and stops at an
    entry that the pool has, or at the end of the heap. *)
Lemma skim_loop_spec fuel all its st :
  length its ≤ fuel → price_heap its →
  let r := skim_loop fuel all its st in
  price_heap r.1
  ∧ (∃ skipped, its ≡ₚ skipped ++ r.1
                ∧ Forall (λ tx, stale all tx = true) skipped)
  ∧ (∀ head, r.1 !! 0 = Some head → stale all head = false).
Proof.
  revert its st. induction fuel as [|fuel IH]; intros its st Hfuel Hh.
  { destruct its; [|simpl in Hfuel; lia]. simpl.
    split_and!; [done|by exists []|done]. }
  simpl. destruct (its !! 0) as [head|] eqn:Hhead.
  2:{ split_and!; [done|by exists []|]. intros ? ?. simpl in *. congruence. }
  destruct (stale all head) eqn:Hstale.
  2:{ split_and!; [done|by exists []|]. intros ? ?. simpl in *. congruence. }
  destruct (Pop_head price_less its head Hhead) as (its' & Hpop & _).
  rewrite Hpop.
  destruct (Pop_first its head its' Hh Hpop) as (Hperm & Hlen & Hh' & _).
  destruct (IH its' (wrap_int64 (st - 1)) ltac:(lia) Hh')
    as (Hheap & (skipped & Hp & Hsk) & Hlive).
  split_and!; [done| |done].
  exists (head :: skipped). split; [|by constructor].
  etrans; [exact Hperm|]. simpl. by apply perm_skip.
Qed.

(** X16: A local transaction is never underpriced, and the call changes
    nothing.  For a remote one [Underpriced] answers whether the heap
    holds a transaction that the pool still has and none of those is
    cheaper than the given one; the heap stays in order and loses stale
    entries only. *)
Theorem Underpriced_cheapest all (l : t) (tx : Transaction) local :
  price_heap (items l) →
  let r := Underpriced all l tx local in
  price_heap (items r.2)
  ∧ (local tx = true → r = (false, l))
  ∧ (local tx = false →
       (r.1 = true ↔
        (∃ e, e ∈ items l ∧ stale all e = false)
        ∧ ∀ e, e ∈ items l → stale all e = false →
            (GasPrice tx ≤ GasPrice e)%Z))
  ∧ (∀ e, e ∈ items l → stale all e = false → e ∈ items r.2).
Proof.
  intros Hh r. subst r. unfold Underpriced.
  destruct (local tx) eqn:Hlocal.
  { split_and!; [done|done|done|]. by intros e He _. }
  destruct (skim_loop_spec (length (items l)) all (items l) (stales l)
              ltac:(done) Hh)
    as (Hheap & (skipped & Hperm & Hsk) & Hlive).
  destruct (skim_loop _ _ _ _) as [its st]. simpl in Hheap, Hperm, Hlive.
  rewrite Forall_forall in Hsk.
  assert (Hleft : ∀ e, e ∈ items l → stale all e = false → e ∈ its).
  { intros e He Hlv. rewrite Hperm in He.
    apply elem_of_app in He as [He|He]; [|done].
    apply Hsk in He. congruence. }
  assert (Hkeep : price_heap
            (items (match its !! 0 with
                    | Some cheapest =>
                        ((GasPrice cheapest >=? GasPrice tx)%Z,
                         {| items := its; stales := st |})
                    | None => (false, {| items := its; stales := st |})
                    end).2)
          ∧ ∀ e, e ∈ items l → stale all e = false →
              e ∈ items (match its !! 0 with
                         | Some cheapest =>
                             ((GasPrice cheapest >=? GasPrice tx)%Z,
                              {| items := its; stales := st |})
                         | None => (false, {| items := its; stales := st |})
                         end).2).
  { by destruct (its !! 0). }
  destruct Hkeep as [Hkeep1 Hkeep2].
  split_and!; [done|done| |done]. intros _.
  destruct (its !! 0) as [cheapest|] eqn:Hhead; simpl.
  - assert (Hin : cheapest ∈ items l).
    { rewrite Hperm. apply elem_of_app. right.
      by apply list_elem_of_lookup_2 in Hhead. }
    specialize (Hlive cheapest eq_refl).
    rewrite Z.geb_le. split.
    + intros Hle. split; [by exists cheapest|].
      intros e He Hlv. apply Hleft in He; [|done].
      pose proof (heap_root_first _ price_less_asym price_less_neg_trans
                    its cheapest e Hheap Hhead He) as Hfirst.
      apply first_in_price_le in Hfirst. lia.
    + intros [_ Hall]. by apply Hall.
  - split; [done|]. intros [(e & He & Hlv) _].
    apply Hleft in He; [|done]. destruct its; [|done].
    by apply not_elem_of_nil in He.
Qed.

(** *** Discard *)

(** The loop of [Discard] on a heap in order: the transactions come off
    the heap cheapest first, so the dropped ones are in the order of the
    heap and none of them is after an entry that is left; the saved ones
    are local; the loop drops at most [count] transactions, and fewer only
    when it has emptied the heap. *)
Lemma Discard_loop_order fuel all count local its st drop save :
  length its ≤ fuel → price_heap its →
  StronglySorted first_in_price drop →
  (∀ d x, d ∈ drop → x ∈ its → first_in_price d x) →
  Forall (λ s, local s = true) save →
  let r := Discard_loop fuel all count local its st drop save in
  price_heap r.1.1.1
  ∧ StronglySorted first_in_price r.1.2
  ∧ (∀ d x, d ∈ r.1.2 → x ∈ r.1.1.1 → first_in_price d x)
  ∧ Forall (λ s, local s = true) r.2
  ∧ (Z.of_nat (length r.1.2) ≤ Z.of_nat (length drop) + Z.max 0 count)%Z
  ∧ (r.1.1.1 = []
     ∨ (Z.of_nat (length drop) + count ≤ Z.of_nat (length r.1.2))%Z).
Proof.
  revert its st drop save count.
  induction fuel as [|fuel IH];
    intros its st drop save count Hfuel Hh Hsorted Hbefore Hlocal.
  { destruct its; [|simpl in Hfuel; lia]. simpl.
    split_and!; [done..|lia|by left]. }
  simpl. destruct (Z.gtb_spec count 0) as [Hpos|Hzero].
  2:{ simpl. split_and!; [done..|lia|right; lia]. }
  destruct (heap.Pop price_less its) as [[tx its']|] eqn:Hpop.
  2:{ apply Pop_None in Hpop as ->. simpl.
      split_and!; [done..|lia|by left]. }
  destruct (Pop_first its tx its' Hh Hpop) as (Hperm & Hlen & Hh' & Hfirst).
  assert (Hsub : ∀ x, x ∈ its' → x ∈ its).
  { intros x Hx. rewrite Hperm. by right. }
  destruct (stale all tx) eqn:Hstale; [|destruct (local tx) eqn:Hloc].
  - apply IH; [lia|done|done| |done].
    intros d x Hd Hx. by apply Hbefore, Hsub.
  - apply IH; [lia|done|done| |].
    + intros d x Hd Hx. by apply Hbefore, Hsub.
    + apply Forall_app. split; [done|]. by constructor.
  - destruct (IH its' st (drop ++ [tx]) save (count - 1)%Z ltac:(lia) Hh')
      as (H1 & H2 & H3 & H4 & H5 & H6); [| |done|].
    + apply StronglySorted_app_2; [|done|repeat constructor].
      intros d x Hd ->%list_elem_of_singleton. apply Hbefore; [done|].
      rewrite Hperm. by left.
    + intros d x [Hd| ->%list_elem_of_singleton]%elem_of_app Hx.
      * by apply Hbefore, Hsub.
      * by apply Hfirst, Hsub.
    + rewrite length_app in H5, H6. simpl in H5, H6.
      split_and!; [done..|lia|]. destruct H6 as [?|?]; [by left|right; lia].
Qed.

(** X17: [Discard] panics for a negative [count].  For a [count] whose slice
    the runtime grants, on a heap in order, it returns at most [count]
    transactions, all of them remote entries of the heap that the pool
    still has, the cheapest first; no remote entry that is left is cheaper
    than a returned one; and where it returns fewer than [count], only
    local entries are left.  The heap stays in order. *)
Theorem Discard_cheapest `{MakeSlice} all (l : t) (count : Z) local :
  price_heap (items l) →
  ((count < 0)%Z → Discard all l count local = None)
  ∧ (make_ok count = true →
     ∃ r, Discard all l count local = Some r
       ∧ price_heap (items r.2)
       ∧ (Z.of_nat (length r.1) ≤ count)%Z
       ∧ StronglySorted (λ a b, price_less b a = false) r.1
       ∧ (∀ d, d ∈ r.1 →
            d ∈ items l ∧ local d = false ∧ stale all d = false)
       ∧ (∀ d x, d ∈ r.1 → x ∈ items r.2 → local x = false →
            price_less x d = false ∧ (GasPrice d ≤ GasPrice x)%Z)
       ∧ ((Z.of_nat (length r.1) < count)%Z →
            ∀ x, x ∈ items r.2 → local x = true)).
Proof.
  intros Hh. unfold Discard. split.
  { intros Hneg. destruct (make_ok count) eqn:Hok; [|done].
    apply make_ok_nonneg in Hok. lia. }
  intros Hok. rewrite Hok. apply make_ok_nonneg in Hok.
  destruct (Discard_loop_order (length (items l)) all count local (items l)
              (stales l) [] [] ltac:(done) Hh)
    as (H1 & H2 & H3 & H4 & H5 & H6);
    [constructor|by intros d x ?%not_elem_of_nil|constructor|].
  destruct (Discard_loop_scanned (length (items l)) all count local
              (items l) (stales l) [] [])
    as (skipped & d & s & Hd & Hs & Hp & Fd & Fs & Fk).
  destruct (Discard_loop _ _ _ _ _ _ _ _) as [[[its st] drop] save].
  eexists. split; [done|].
  simpl in *. subst d s. rewrite Forall_forall in H4, Fd.
  assert (Hin : ∀ x, x ∈ push_all its save → x ∈ its ∨ x ∈ save).
  { intros x Hx. rewrite push_all_perm in Hx. by apply elem_of_app. }
  split_and!.
  - by apply push_all_heap.
  - lia.
  - done.
  - intros x Hx. destruct (Fd x Hx) as [? ?]. split_and!; [|done|done].
    rewrite Hp, !elem_of_app. right. by left.
  - intros x y Hx [Hy|Hy]%Hin Hremote.
    + specialize (H3 x y Hx Hy). split; [done|].
      by apply first_in_price_le.
    + apply H4 in Hy. congruence.
  - intros Hfew x [Hx|Hx]%Hin.
    + destruct H6 as [->|?]; [|lia]. by apply not_elem_of_nil in Hx.
    + by apply H4.
Qed.

(** *** Cap *)

(** The loop of [Cap] on a heap in order: the dropped transactions are
    below the threshold, the saved ones are local or at the threshold or
    above it, and every entry that is left is at the threshold or above
    it. *)
Lemma Cap_loop_order fuel all threshold local its st drop save :
  length its ≤ fuel → price_heap its →
  StronglySorted first_in_price drop →
  (∀ d x, d ∈ drop → x ∈ its → first_in_price d x) →
  Forall (λ d, (GasPrice d < threshold)%Z) drop →
  Forall (λ s, local s = true ∨ (threshold ≤ GasPrice s)%Z) save →
  let r := Cap_loop fuel all threshold local its st drop save in
  price_heap r.1.1.1
  ∧ StronglySorted first_in_price r.1.2
  ∧ Forall (λ d, (GasPrice d < threshold)%Z) r.1.2
  ∧ Forall (λ s, local s = true ∨ (threshold ≤ GasPrice s)%Z) r.2
  ∧ Forall (λ x, (threshold ≤ GasPrice x)%Z) r.1.1.1.
Proof.
  revert its st drop save.
  induction fuel as [|fuel IH];
    intros its st drop save Hfuel Hh Hsorted Hbefore Hdrop Hsave.
  { destruct its; [|simpl in Hfuel; lia]. simpl.
    split_and!; [done..|constructor]. }
  simpl. destruct (heap.Pop price_less its) as [[tx its']|] eqn:Hpop.
  2:{ apply Pop_None in Hpop as ->. simpl.
      split_and!; [done..|constructor]. }
  destruct (Pop_first its tx its' Hh Hpop) as (Hperm & Hlen & Hh' & Hfirst).
  assert (Hsub : ∀ x, x ∈ its' → x ∈ its).
  { intros x Hx. rewrite Hperm. by right. }
  destruct (stale all tx) eqn:Hstale;
    [|destruct (Z.geb_spec (GasPrice tx) threshold) as [Hge|Hlt];
      [|destruct (local tx) eqn:Hloc]].
  - apply IH; [lia|done|done| |done|done].
    intros d x Hd Hx. by apply Hbefore, Hsub.
  - simpl. split_and!; [done|done|done| |].
    + apply Forall_app. split; [done|]. constructor; [by right|done].
    + apply Forall_forall. intros x Hx.
      pose proof (Hfirst x (Hsub x Hx)) as Hle%first_in_price_le. lia.
  - apply IH; [lia|done|done| |done|].
    + intros d x Hd Hx. by apply Hbefore, Hsub.
    + apply Forall_app. split; [done|]. constructor; [by left|done].
  - apply IH; [lia|done| | | |done].
    + apply StronglySorted_app_2; [|done|repeat constructor].
      intros d x Hd ->%list_elem_of_singleton. apply Hbefore; [done|].
      rewrite Hperm. by left.
    + intros d x [Hd| ->%list_elem_of_singleton]%elem_of_app Hx.
      * by apply Hbefore, Hsub.
      * by apply Hfirst, Hsub.
    + apply Forall_app. split; [done|]. by constructor.
Qed.

(** X18: On a heap in order, [Cap] returns remote entries of the heap that the
    pool still has and that are priced below the threshold, the cheapest
    first, and leaves no such entry behind: every entry that is left is
    local or priced at the threshold or above it.  The heap stays in
    order. *)
Theorem priced_Cap_threshold all (l : t) (threshold : Z) local :
  price_heap (items l) →
  let r := Cap all l threshold local in
  price_heap (items r.2)
  ∧ StronglySorted (λ a b, price_less b a = false) r.1
  ∧ (∀ d, d ∈ r.1 →
       d ∈ items l ∧ (GasPrice d < threshold)%Z
       ∧ local d = false ∧ stale all d = false)
  ∧ (∀ x, x ∈ items r.2 →
       local x = true ∨ (threshold ≤ GasPrice x)%Z).
Proof.
  intros Hh r. subst r. unfold Cap.
  destruct (Cap_loop_order (length (items l)) all threshold local (items l)
              (stales l) [] [] ltac:(done) Hh)
    as (H1 & H2 & H3 & H4 & H5);
    [constructor|by intros d x ?%not_elem_of_nil|constructor|constructor|].
  destruct (Cap_loop_scanned (length (items l)) all threshold local
              (items l) (stales l) [] [])
    as (skipped & d & s & Hd & Hs & Hp & Fd & Fs & Fk).
  destruct (Cap_loop _ _ _ _ _ _ _ _) as [[[its st] drop] save].
  simpl in *. subst d s. rewrite Forall_forall in H3, H4, H5, Fd.
  split_and!.
  - by apply push_all_heap.
  - done.
  - intros x Hx. destruct (Fd x Hx) as [? ?].
    split_and!; [|by apply H3|done|done].
    rewrite Hp, !elem_of_app. right. by left.
  - intros x Hx. rewrite push_all_perm in Hx.
    apply elem_of_app in Hx as [Hx|Hx]; [right; by apply H5|by apply H4].
Qed.

(** *** The stale counter *)

Lemma stale_count_perm all its its' :
  its ≡ₚ its' → stale_count all its = stale_count all its'.
Proof. intros Hp. unfold stale_count. by rewrite Hp. Qed.

Lemma stale_count_cons all tx its :
  stale_count all (tx :: its)
  = (if stale all tx then 1 else 0) + stale_count all its.
Proof.
  unfold stale_count. rewrite filter_cons.
  destruct (decide (stale all tx = true)) as [->|Hne]; [done|].
  by destruct (stale all tx).
Qed.

Lemma stale_count_app all its its' :
  stale_count all (its ++ its')
  = stale_count all its + stale_count all its'.
Proof. unfold stale_count. by rewrite filter_app, length_app. Qed.

Lemma stale_count_live all its :
  Forall (λ tx, stale all tx = false) its → stale_count all its = 0.
Proof.
  induction 1 as [|tx its Htx _ IH]; [done|].
  by rewrite stale_count_cons, Htx, IH.
Qed.

Lemma stale_count_le all its : stale_count all its ≤ length its.
Proof. apply length_filter. Qed.

Lemma Cap_loop_count fuel all threshold local its st drop save :
  (Z.of_nat (length its) < 2 ^ 63)%Z →
  st = Z.of_nat (stale_count all its) →
  let r := Cap_loop fuel all threshold local its st drop save in
  r.1.1.2 = Z.of_nat (stale_count all r.1.1.1).
Proof.
  revert its st drop save.
  induction fuel as [|fuel IH]; intros its st drop save Hlen Hst; [done|].
  simpl. destruct (heap.Pop price_less its) as [[tx its']|] eqn:Hpop; [|done].
  apply Pop_Some in Hpop as (_ & Hperm & Hl).
  rewrite (stale_count_perm _ _ _ Hperm), stale_count_cons in Hst.
  pose proof (stale_count_le all its').
  destruct (stale all tx) eqn:Hstale;
    [|destruct (GasPrice tx >=? threshold)%Z; [|destruct (local tx)]].
  - apply IH; [lia|]. rewrite wrap_int64_small; lia.
  - simpl. lia.
  - apply IH; lia.
  - apply IH; lia.
Qed.

Lemma Discard_loop_count fuel all count local its st drop save :
  (Z.of_nat (length its) < 2 ^ 63)%Z →
  st = Z.of_nat (stale_count all its) →
  let r := Discard_loop fuel all count local its st drop save in
  r.1.1.2 = Z.of_nat (stale_count all r.1.1.1).
Proof.
  revert its st drop save count.
  induction fuel as [|fuel IH]; intros its st drop save count Hlen Hst;
    [done|].
  simpl. destruct (count >? 0)%Z; [|done].
  destruct (heap.Pop price_less its) as [[tx its']|] eqn:Hpop; [|done].
  apply Pop_Some in Hpop as (_ & Hperm & Hl).
  rewrite (stale_count_perm _ _ _ Hperm), stale_count_cons in Hst.
  pose proof (stale_count_le all its').
  destruct (stale all tx) eqn:Hstale; [|destruct (local tx)].
  - apply IH; [lia|]. rewrite wrap_int64_small; lia.
  - apply IH; lia.
  - apply IH; lia.
Qed.

Lemma skim_loop_count fuel all its st :
  (Z.of_nat (length its) < 2 ^ 63)%Z →
  st = Z.of_nat (stale_count all its) →
  let r := skim_loop fuel all its st in
  r.2 = Z.of_nat (stale_count all r.1).
Proof.
  revert its st. induction fuel as [|fuel IH]; intros its st Hlen Hst; [done|].
  simpl. destruct (its !! 0) as [head|] eqn:Hhead; [|done].
  destruct (stale all head) eqn:Hstale; [|done].
  destruct (Pop_head price_less its head Hhead)
    as (its' & Hpop & Hperm & Hl & _).
  rewrite Hpop.
  rewrite (stale_count_perm _ _ _ Hperm), stale_count_cons, Hstale in Hst.
  pose proof (stale_count_le all its').
  apply IH; [lia|]. rewrite wrap_int64_small; lia.
Qed.

(** X19: While the pool's map stays as it is, the scans keep the stale counter
    exact: when it is the number of entries of the heap that the map does
    not have before [Cap], [Discard] or [Underpriced], it is that number
    afterwards, and so it is after [Put] of a transaction that the map
    has.  ([Discard] returns where the runtime grants its slice.) *)
Theorem stale_counter_exact `{MakeSlice} all (l : t) :
  stales l = Z.of_nat (stale_count all (items l)) →
  (Z.of_nat (length (items l)) < 2 ^ 63)%Z →
  let exact := λ l' : t, stales l' = Z.of_nat (stale_count all (items l')) in
  (∀ threshold local, exact (Cap all l threshold local).2)
  ∧ (∀ count local, make_ok count = true →
       ∃ r, Discard all l count local = Some r ∧ exact r.2)
  ∧ (∀ tx local, exact (Underpriced all l tx local).2)
  ∧ (∀ tx, stale all tx = false → exact (Put l tx)).
Proof.
  intros Hexact Hlen exact. subst exact. cbv beta. split_and!.
  - intros threshold local. unfold Cap.
    pose proof (Cap_loop_count (length (items l)) all threshold local
                  (items l) (stales l) [] [] Hlen Hexact) as Hcount.
    destruct (Cap_loop_scanned (length (items l)) all threshold local
                (items l) (stales l) [] [])
      as (skipped & d & s & Hd & Hs & Hp & Fd & Fs & Fk).
    destruct (Cap_loop _ _ _ _ _ _ _ _) as [[[its st] drop] save].
    simpl in *. subst s.
    rewrite (stale_count_perm _ _ _ (push_all_perm its save)),
      stale_count_app, (stale_count_live _ save Fs). lia.
  - intros count local Hok. unfold Discard. rewrite Hok.
    pose proof (Discard_loop_count (length (items l)) all count local
                  (items l) (stales l) [] [] Hlen Hexact) as Hcount.
    destruct (Discard_loop_scanned (length (items l)) all count local
                (items l) (stales l) [] [])
      as (skipped & d & s & Hd & Hs & Hp & Fd & Fs & Fk).
    destruct (Discard_loop _ _ _ _ _ _ _ _) as [[[its st] drop] save].
    eexists. split; [done|].
    simpl in *. subst s.
    rewrite (stale_count_perm _ _ _ (push_all_perm its save)),
      stale_count_app, (stale_count_live _ save Fs). lia.
  - intros tx local. unfold Underpriced.
    destruct (local tx); [done|].
    pose proof (skim_loop_count (length (items l)) all (items l) (stales l)
                  Hlen Hexact) as Hcount.
    destruct (skim_loop _ _ _ _) as [its st]. simpl in Hcount.
    by destruct (its !! 0).
  - intros tx Hlive. simpl.
    rewrite (stale_count_perm _ _ _ (Push_perm price_less (items l) tx)),
      stale_count_cons, Hlive. done.
Qed.
End priced_more.

(** ** txJournal *)

(** The batches hold the transactions in their order, and each batch holds
    at least one and at most 1025 of them. *)
Lemma batches_from_spec (batch txs : list Transaction) :
  length batch ≤ 1024 →
  mjoin (batches_from batch txs) = batch ++ txs
  ∧ Forall (λ b, 0 < length b ≤ 1025) (batches_from batch txs).
Proof.
  revert batch. induction txs as [|tx txs IH]; intros batch Hlen; simpl.
  - destruct (Nat.ltb_spec 0 (length batch)); simpl.
    + rewrite !app_nil_r. split; [done|]. apply Forall_cons_2; [lia|].
      apply Forall_nil_2.
    + destruct batch; [|simpl in *; lia]. by split.
  - destruct (Nat.ltb_spec 1024 (length (batch ++ [tx]))) as [Hfull|Hroom].
    + destruct (IH [] ltac:(simpl; lia)) as [Hjoin Hall]. simpl.
      rewrite Hjoin. simpl. rewrite <- app_assoc. split; [done|].
      constructor; [|done]. rewrite length_app in Hfull |- *. simpl in *. lia.
    + destruct (IH (batch ++ [tx]) Hroom) as [Hjoin Hall].
      rewrite Hjoin, <- app_assoc. by split.
Qed.

(** The loop of [load] ends on every input when a decoded record takes at
    least one byte: one round per byte and one for the end are enough. *)
Lemma load_loop_total (rlp_decode : list Byte.byte → txJournal.decoded)
    {Pool : Type}
    (add : Pool → list Transaction → Pool * list (option txJournal.error))
    (fuel : nat) (input : list Byte.byte) (pl : Pool) (tot dr : nat)
    (batch : list Transaction) :
  (∀ bs tx rest,
     rlp_decode bs = txJournal.Decoded tx rest → length rest < length bs) →
  length input < fuel →
  is_Some (txJournal.load_loop rlp_decode add fuel input pl tot dr batch).
Proof.
  intros Hprogress. revert input pl tot dr batch.
  induction fuel as [|fuel IH]; intros input pl tot dr batch Hfuel; [lia|].
  simpl. destruct (rlp_decode input) as [tx rest| |err] eqn:Hdec.
  - apply Hprogress in Hdec.
    destruct (1024 <? length (batch ++ [tx])).
    + destruct (txJournal.loadBatch add pl dr (batch ++ [tx])).
      apply IH. lia.
    + apply IH. lia.
  - destruct (if 0 <? length batch then _ else _). by eexists.
  - destruct (if 0 <? length batch then _ else _). by eexists.
Qed.

Section journal.
Import txJournal.
Context (rlp_encode : Transaction → list Byte.byte).
Context (rlp_decode : list Byte.byte → decoded).
Hypothesis decode_encode :
  ∀ tx rest, rlp_decode (rlp_encode tx ++ rest) = Decoded tx rest.
Hypothesis decode_end : rlp_decode [] = EOF.

(** A record is not empty: decoding it from the empty input would give
    both a transaction and the end of the input. *)
Lemma encode_not_empty tx : 0 < length (rlp_encode tx).
Proof.
  destruct (rlp_encode tx) as [|b bs] eqn:Henc; [|simpl; lia].
  pose proof (decode_encode tx []) as Hdec.
  rewrite Henc in Hdec. simpl in Hdec. congruence.
Qed.

Local Abbreviation records := (records rlp_encode).

Lemma records_cons tx txs : records (tx :: txs) = rlp_encode tx ++ records txs.
Proof. done. Qed.

Lemma records_length txs : length txs ≤ length (records txs).
Proof.
  induction txs as [|tx txs IH]; [done|].
  rewrite records_cons, length_app. pose proof (encode_not_empty tx).
  simpl. lia.
Qed.

(** *** rotate *)

Lemma appended_records (new : string) (fs : filesys) (c : list Byte.byte)
    (txs : list Transaction) :
  fs !! new = Some c →
  foldl (λ fs tx, append_file new (rlp_encode tx) fs) fs txs !! new
  = Some (c ++ records txs).
Proof.
  revert fs c. induction txs as [|tx txs IH]; intros fs c Hc; simpl.
  - by rewrite app_nil_r.
  - rewrite (IH _ (c ++ rlp_encode tx)).
    + by rewrite records_cons, app_assoc.
    + unfold append_file. by rewrite lookup_insert_eq, Hc.
Qed.

Lemma rotate_writes `{MapRange} (j : t) (fs : filesys)
    (all : gmap N (list Transaction)) :
  ∃ fs', rotate rlp_encode j fs all
         = (None, {| path := path j; writer := Some (file (path j)) |}, fs')
         ∧ fs' !! path j = Some (records (journaled all)).
Proof.
  unfold rotate. simpl.
  set (new := (path j +:+ ".new")%string).
  assert (Hnew : create_trunc new fs !! new = Some []).
  { apply lookup_insert_eq. }
  pose proof (appended_records new (create_trunc new fs) []
                (journaled all) Hnew) as Happ.
  simpl in Happ.
  unfold rename. rewrite Happ. simpl. rewrite lookup_insert_eq.
  eexists. split; [done|]. apply lookup_insert_eq.
Qed.

(** *** load *)

Section load.
Context {Pool : Type}.
Context (add : Pool → list Transaction → Pool * list (option error)).

Local Abbreviation delivered := (delivered add).

Lemma delivered_pool pl dr batches :
  (delivered pl dr batches).1 = foldl (λ pl b, (add pl b).1) pl batches.
Proof.
  unfold delivered. revert pl dr.
  induction batches as [|b batches IH]; intros pl dr; simpl; [done|].
  destruct (loadBatch add pl dr b) as [pl' dr'] eqn:Hb.
  rewrite IH. f_equal. unfold loadBatch in Hb.
  destruct (add pl b) as [pl'' errs]. by injection Hb as <- _.
Qed.

(** The loop of [load] on the records of [txs]: every record is
    decoded, and the rounds allowed are enough. *)
Lemma load_loop_records fuel txs pl tot dr batch :
  length txs < fuel →
  load_loop rlp_decode add fuel (records txs) pl tot dr batch
  = Some (let '(pl', dr') := delivered pl dr (batches_from batch txs) in
          mkLoaded None pl' (tot + length txs) dr').
Proof.
  revert txs pl tot dr batch.
  induction fuel as [|fuel IH]; intros txs pl tot dr batch Hfuel; [lia|].
  destruct txs as [|tx txs].
  - change (records []) with (@nil Byte.byte). simpl. rewrite decode_end.
    unfold delivered.
    destruct (0 <? length batch); simpl.
    + destruct (loadBatch add pl dr batch). by rewrite Nat.add_0_r.
    + by rewrite Nat.add_0_r.
  - rewrite records_cons. simpl. rewrite decode_encode.
    destruct (1024 <? length (batch ++ [tx])); simpl.
    + destruct (loadBatch add pl dr (batch ++ [tx])) as [pl' dr'] eqn:Hb.
      rewrite IH by (simpl in Hfuel; lia). rewrite Nat.add_succ_comm.
      unfold delivered. simpl. by rewrite Hb.
    + rewrite IH by (simpl in Hfuel; lia). by rewrite Nat.add_succ_comm.
Qed.
End load.

(** C9: for an encoding that [Decode] reads back record by record,
    [rotate] with the pool's transactions writes them to the journal's file
    without an error, and [load] of that file by a fresh journal hands
    exactly those transactions to [add], in batches of at most 1025 and
    none empty, and returns no error. *)
Theorem rotate_then_load `{MapRange} {Pool : Type}
    (add : Pool → list Transaction → Pool * list (option error))
    (j : t) (fs : filesys) (all : gmap N (list Transaction)) (pl : Pool) :
  ∃ (fs' : filesys) (batches : list (list Transaction)) (r : loaded Pool),
    rotate rlp_encode j fs all
    = (None, {| path := path j; writer := Some (file (path j)) |}, fs')
    ∧ load rlp_decode add (newTxJournal (path j)) fs' pl
      = Some (r, newTxJournal (path j))
    ∧ failure r = None
    ∧ pool r = foldl (λ pl b, (add pl b).1) pl batches
    ∧ total r = length (mjoin batches)
    ∧ mjoin batches ≡ₚ mjoin (map_to_list all).*2
    ∧ Forall (λ b, 0 < length b ≤ 1025) batches.
Proof.
  destruct (rotate_writes j fs all) as (fs' & Hrotate & Hfile).
  destruct (batches_from_spec [] (journaled all) ltac:(simpl; lia))
    as [Hjoin Hsizes]. simpl in Hjoin.
  set (batches := batches_from [] (journaled all)) in *.
  pose proof (load_loop_records add (S (length (records (journaled all))))
                (journaled all) pl 0 0 []) as Hloop.
  specialize (Hloop ltac:(pose proof (records_length (journaled all)); lia)).
  fold batches in Hloop.
  pose proof (delivered_pool add pl 0 batches) as Hpool.
  destruct (delivered add pl 0 batches) as [pl' dr'].
  exists fs', batches, (mkLoaded None pl' (0 + length (journaled all)) dr').
  split_and!; try done.
  - unfold load. change (path (newTxJournal (path j))) with (path j).
    rewrite Hfile. cbn beta iota. by rewrite Hloop.
  - simpl. by rewrite Hjoin.
  - rewrite Hjoin. unfold journaled. by rewrite (go_range_perm all).
Qed.
End journal.

(** ** The journal: inserts, damage and rotation *)



Section journal_more.
Import txJournal.
Context (rlp_encode : Transaction → list Byte.byte).
Context (rlp_decode : list Byte.byte → decoded).
Hypothesis decode_encode :
  ∀ tx rest, rlp_decode (rlp_encode tx ++ rest) = Decoded tx rest.
Hypothesis decode_end : rlp_decode [] = EOF.

Local Abbreviation records := (records rlp_encode).


(** *** rotate *)




(** *** insert *)


(** *** load *)

Section load_more.
Context {Pool : Type}.
Context (add : Pool → list Transaction → Pool * list (option error)).



End load_more.
End journal_more.

(** ** The properties on concrete cases *)

Lemma map_1234_wf : sorted_map_wf map_1234.
Proof. apply Puts_wf. Qed.

Lemma map_1234_cached_wf : sorted_map_wf map_1234_cached.
Proof. apply Flatten_spec, map_1234_wf. Qed.

Lemma Forward_removes_below_witness :
  sorted_map_wf map_1234_cached
  ∧ ∃ (removed : list Transaction) (m' : txSortedMap.t),
      txSortedMap.Forward map_1234_cached 3 = Some (Some <$> removed, m')
      ∧ ascending removed
      ∧ (∀ tx, tx ∈ removed ↔
           txSortedMap.items map_1234_cached !! Nonce tx = Some tx
           ∧ (Nonce tx < 3)%N)
      ∧ (∀ k, (k < 3)%N → txSortedMap.items m' !! k = None)
      ∧ (∀ k, (3 ≤ k)%N →
           txSortedMap.items m' !! k
           = txSortedMap.items map_1234_cached !! k)
      ∧ sorted_map_wf m'.
Proof.
  split; [apply map_1234_cached_wf|].
  apply (Forward_removes_below map_1234_cached 3 map_1234_cached_wf).
Defined.

(** Scenario S3 of the specification: after [Flatten], [Forward] to 3 on
    the nonces 1 to 4 returns the transactions 1 and 2 and leaves 3 and 4
    in the cache. *)
Lemma Forward_shifts_cache :
  fst <$> txSortedMap.Forward map_1234_cached 3
  = Some [Some (tx_of 1 10 21000); Some (tx_of 2 20 21000)]
  ∧ (txSortedMap.cache ∘ snd) <$> txSortedMap.Forward map_1234_cached 3
    = Some (Some [Some (tx_of 3 30 21000); Some (tx_of 4 40 21000)]).
Proof. split; by vm_compute. Qed.

Lemma Remove_absent_witness :
  txSortedMap.items map_1234 !! 9%N = None
  ∧ txSortedMap.Remove map_1234 9 = (false, map_1234).
Proof. split; [done|]. by apply (Remove_absent map_1234 9). Defined.

Lemma strict_Remove_invalidates_witness :
  ∃ invalids l',
    txList.Remove list_1234 (tx_of 2 20 21000) = (true, invalids, l')
    ∧ invalids ≡ₚ [Some (tx_of 3 30 21000); Some (tx_of 4 40 21000)]
    ∧ (∀ k' t, txSortedMap.items (txList.txs l') !! k' = Some t →
         (k' < 2)%N ∧ (Nonce t < 2)%N).
Proof.
  destruct (strict_Remove_invalidates list_1234 (tx_of 2 20 21000) 2)
    as (invalids & l' & Hremove & Hperm & Hgone & _).
  - done.
  - apply map_1234_wf.
  - done.
  - exists invalids, l'. split_and!; [done| |done].
    rewrite Hperm. by apply (bool_decide_unpack _).
Defined.

Lemma Cap_drops_highest_witness :
  sorted_map_wf map_1234_cached
  ∧ ∃ (drops : list Transaction) (m' : txSortedMap.t),
      txSortedMap.Cap map_1234_cached 1 = Some (Some <$> drops, m')
      ∧ length drops = 3
      ∧ descending drops
      ∧ size (txSortedMap.items m') = 1.
Proof.
  split; [apply map_1234_cached_wf|].
  destruct (Cap_drops_highest map_1234_cached 1 map_1234_cached_wf)
    as (drops & m' & Hcap & Hlen & Hdesc & _ & Hsize & _).
  - vm_compute. lia.
  - by exists drops, m'.
Defined.

(** The claim C8 as it is worded fails on the order: [Cap] to one
    transaction on the map of the nonces 1 to 4 returns the transactions of
    the nonces 4, 3, 2, in that order, which is not ascending. *)
Lemma Cap_returns_highest_first :
  sorted_map_wf map_1234
  ∧ fst <$> txSortedMap.Cap map_1234 1
    = Some (Some <$> [tx_of 4 40 21000; tx_of 3 30 21000; tx_of 2 20 21000])
  ∧ ¬ ascending [tx_of 4 40 21000; tx_of 3 30 21000; tx_of 2 20 21000].
Proof.
  split_and!; [apply map_1234_wf | by vm_compute |].
  intros [Hall _]%StronglySorted_cons.
  apply Forall_cons in Hall as [Hlt _]. vm_compute in Hlt. discriminate Hlt.
Qed.

Lemma priced_scans_spare_locals_witness :
  let local := λ tx, bool_decide (Nonce tx = 1%N) in
  ∃ discarded,
    txPricedList.Discard pool_of_four priced_five 3 local = Some discarded
    ∧ (∀ tx, tx ∈ discarded.1 → local tx = false)
    ∧ tx_of 1 1 21000 ∈ txPricedList.items discarded.2.
Proof.
  intros local.
  destruct (priced_scans_spare_locals pool_of_four priced_five 3 5 local)
    as (Hsome & Hd & _ & _).
  destruct (proj2 Hsome eq_refl) as [discarded Hdis].
  exists discarded. split; [done|].
  destruct (Hd discarded Hdis) as [Hremote Hkept].
  split; [done|].
  apply (Hkept (tx_of 1 1 21000)); [by apply (bool_decide_unpack _) | done..].
Defined.

(** *** The journal on the digit encoding *)

Lemma digits_decode_encode (p : positive) (rest : list Byte.byte) :
  digits_decode (digits_encode p ++ rest) = Some (p, rest).
Proof. induction p as [p IH|p IH|]; simpl; by rewrite ?IH. Qed.

Lemma digits_rlp_decode_encode (tx : Transaction) (rest : list Byte.byte) :
  digits_rlp_decode (digits_rlp_encode tx ++ rest) = txJournal.Decoded tx rest.
Proof.
  unfold digits_rlp_decode, digits_rlp_encode.
  rewrite digits_decode_encode, decode_encode.
  by destruct (encode tx).
Qed.

Lemma rotate_then_load_witness :
  let j := txJournal.newTxJournal "transactions.rlp" in
  ∃ fs' batches r,
    txJournal.rotate digits_rlp_encode j ∅ pool_of_two_accounts
    = (None,
       {| txJournal.path := txJournal.path j;
          txJournal.writer := Some (txJournal.file (txJournal.path j)) |}, fs')
    ∧ txJournal.load digits_rlp_decode recording_add j fs' []
      = Some (r, j)
    ∧ txJournal.failure r = None
    ∧ txJournal.pool r = batches
    ∧ mjoin batches ≡ₚ mjoin (map_to_list pool_of_two_accounts).*2.
Proof.
  intros j.
  destruct (rotate_then_load digits_rlp_encode digits_rlp_decode
              digits_rlp_decode_encode eq_refl recording_add j ∅
              pool_of_two_accounts [])
    as (fs' & batches & r & Hrotate & Hload & Hfail & Hpool & _ & Hperm & _).
  exists fs', batches, r. split_and!; try done.
  rewrite Hpool. clear. induction batches as [|b batches IH] using rev_ind.
  - done.
  - by rewrite foldl_app, IH.
Defined.

(** ** More properties on concrete cases *)

Lemma map_125_wf : sorted_map_wf map_125.
Proof. apply Puts_wf. Qed.

Lemma Put_stores_witness :
  sorted_map_wf map_1234
  ∧ txSortedMap.Get (txSortedMap.Put map_1234 (tx_of 5 50 21000)) 5
    = Some (tx_of 5 50 21000)
  ∧ txSortedMap.Len (txSortedMap.Put map_1234 (tx_of 5 50 21000)) = 5.
Proof.
  split; [apply map_1234_wf|].
  destruct (Put_stores map_1234 (tx_of 5 50 21000) map_1234_wf)
    as (_ & Hget & _ & Hlen & _).
  split; [exact Hget|]. rewrite Hlen. reflexivity.
Defined.

Lemma Flatten_ascending_witness :
  sorted_map_wf map_1234
  ∧ ∃ txs : list Transaction,
      (txSortedMap.Flatten map_1234).1 = Some <$> txs
      ∧ ascending txs
      ∧ length txs = 4.
Proof.
  split; [apply map_1234_wf|].
  destruct (Flatten_ascending map_1234 map_1234_wf)
    as ((txs & Heq & Hasc & _ & Hlen) & _).
  exists txs. split_and!; [done|done|]. rewrite Hlen. reflexivity.
Defined.

Lemma Filter_partitions_witness :
  let dear := λ tx : Transaction, (25 <? GasPrice tx)%Z in
  sorted_map_wf map_1234
  ∧ sorted_map_wf (txSortedMap.Filter map_1234 dear).2
  ∧ txSortedMap.items (txSortedMap.Filter map_1234 dear).2 !! 3%N = None.
Proof.
  intros dear. split; [apply map_1234_wf|].
  destruct (Filter_partitions map_1234 dear map_1234_wf)
    as (_ & Hlookup & Hwf & _).
  split; [exact Hwf|]. rewrite Hlookup. reflexivity.
Defined.

Lemma Remove_present_witness :
  sorted_map_wf map_1234
  ∧ ∃ m', txSortedMap.Remove map_1234 2 = (true, m')
          ∧ txSortedMap.items m' = delete 2%N (txSortedMap.items map_1234)
          ∧ sorted_map_wf m'.
Proof.
  split; [apply map_1234_wf|].
  destruct (Remove_present map_1234 2 (tx_of 2 20 21000) map_1234_wf eq_refl)
    as (m' & Hrem & Hitems & _ & Hwf).
  by exists m'.
Defined.

Lemma Ready_returns_run_witness :
  sorted_map_wf map_125
  ∧ (txSortedMap.Ready map_125 3).1
    = [Some (tx_of 1 10 21000); Some (tx_of 2 20 21000)]
  ∧ sorted_map_wf (txSortedMap.Ready map_125 3).2
  ∧ txSortedMap.Len (txSortedMap.Ready map_125 3).2 = 1.
Proof.
  split; [apply map_125_wf|].
  destruct (Ready_returns_run map_125 3 map_125_wf)
    as (run & m' & Hready & Hwf & _).
  split_and!; [by vm_compute| |by vm_compute].
  by rewrite Hready.
Defined.

Lemma Forward_twice_witness :
  let m := map_1234_cached in
  let m1 := default m (snd <$> txSortedMap.Forward m 2) in
  let r1 := default [] (fst <$> txSortedMap.Forward m 2) in
  let m2 := default m (snd <$> txSortedMap.Forward m1 4) in
  let r2 := default [] (fst <$> txSortedMap.Forward m1 4) in
  txSortedMap.Forward m 4 = Some (r1 ++ r2, m2).
Proof.
  intros m m1 r1 m2 r2.
  apply (Forward_twice m m1 m2 2 4 r1 r2); [lia| |]; by vm_compute.
Defined.

Lemma Cap_negative_panics_witness :
  txSortedMap.Cap map_1234 (-1) = None.
Proof. apply (Cap_negative_panics map_1234 (-1)). lia. Defined.

Lemma Cap_keeps_sorted_map_witness :
  sorted_map_wf map_1234_cached
  ∧ ∃ drops m', txSortedMap.Cap map_1234_cached 2 = Some (drops, m')
                ∧ sorted_map_wf m'
                ∧ txSortedMap.Len m' = 2.
Proof.
  split; [apply map_1234_cached_wf|].
  destruct (Cap_keeps_sorted_map map_1234_cached 2 map_1234_cached_wf
              ltac:(lia))
    as (drops & m' & Hcap & Hwf & Hlen & _).
  exists drops, m'. split_and!; [done|done|].
  change (txSortedMap.Len map_1234_cached) with 4 in Hlen. lia.
Defined.

(** *** Account lists *)

Lemma list_1234_caps : caps_dominate list_1234.
Proof.
  apply map_Forall_to_list.
  set (kvs := map_to_list (txSortedMap.items (txList.txs list_1234))).
  vm_compute in kvs. subst kvs. repeat constructor; by vm_compute.
Qed.

Lemma caps_dominate_kept_witness :
  caps_dominate list_1234
  ∧ caps_dominate (txList.Add list_1234 (tx_of 5 50 30000) 10).2
  ∧ caps_dominate (txList.Filter list_1234 500000 21000).2.
Proof.
  split; [apply list_1234_caps|].
  destruct (caps_dominate_kept list_1234 list_1234_caps)
    as (_ & Hadd & _ & Hfilter & _).
  split; [apply Hadd|apply Hfilter].
Defined.

Lemma Filter_enforces_limits_witness :
  caps_dominate list_1234
  ∧ ∀ k tx,
      txSortedMap.items (txList.txs (txList.Filter list_1234 500000 21000).2)
        !! k = Some tx →
      (Cost tx ≤ 500000)%Z.
Proof.
  split; [apply list_1234_caps|].
  destruct (Filter_enforces_limits list_1234 500000 21000 list_1234_caps)
    as (Hleft & _).
  intros k tx Hk. by destruct (Hleft k tx Hk) as (_ & ? & _).
Defined.

Lemma list_123_keyed :
  keyed_by_nonce (txSortedMap.items (txList.txs list_123)).
Proof.
  apply map_Forall_to_list.
  set (kvs := map_to_list (txSortedMap.items (txList.txs list_123))).
  vm_compute in kvs. subst kvs. repeat constructor.
Qed.

Lemma list_123_bound (k : N) (tx : Transaction) :
  txSortedMap.items (txList.txs list_123) !! k = Some tx →
  (Nonce tx < 2 ^ 64)%N.
Proof.
  revert k tx. apply map_Forall_to_list.
  set (kvs := map_to_list (txSortedMap.items (txList.txs list_123))).
  vm_compute in kvs. subst kvs. repeat constructor.
Qed.

Lemma Filter_strict_cuts_witness :
  txList.strict list_123 = true
  ∧ Some (tx_of 3 20 21000) ∈ (txList.Filter list_123 500000 21000).1.2.
Proof.
  split; [reflexivity|].
  destruct (Filter_strict_cuts list_123 500000 21000 eq_refl list_123_keyed
              list_123_bound)
    as [_ Hinvalid].
  apply Hinvalid. split_and!; [reflexivity|reflexivity|].
  exists (tx_of 2 40 21000). split.
  - apply (bool_decide_unpack _). by vm_compute.
  - by vm_compute.
Defined.

Lemma Remove_nonstrict_witness :
  (txList.Remove list_1234_loose (tx_of 2 20 21000)).1 = (true, [])
  ∧ txSortedMap.items
      (txList.txs (txList.Remove list_1234_loose (tx_of 2 20 21000)).2)
    = delete 2%N (txSortedMap.items map_1234).
Proof.
  destruct (Remove_nonstrict list_1234_loose (tx_of 2 20 21000) eq_refl)
    as (Hflag & Hnone & Hitems & _).
  split; [|exact Hitems].
  destruct (txList.Remove list_1234_loose (tx_of 2 20 21000)) as [[b i] l'].
  simpl in *. by rewrite Hflag, Hnone.
Defined.

Lemma Add_fresh_nonce_witness :
  ∃ l', txList.Add list_1234 (tx_of 5 50 21000) 10 = (true, None, l')
        ∧ txList.Len l' = 5.
Proof.
  destruct (Add_fresh_nonce list_1234 (tx_of 5 50 21000) 10 eq_refl)
    as (l' & Hadd & _ & _ & _ & Hlen & _).
  exists l'. split; [done|]. rewrite Hlen. reflexivity.
Defined.

(** *** The price heap *)

Lemma priced_five_heap :
  heap_ordered txPricedList.price_less (txPricedList.items priced_five).
Proof.
  change (txPricedList.items priced_five)
    with (txPricedList.items
            (foldl txPricedList.Put txPricedList.newTxPricedList
               [tx_of 1 1 21000; tx_of 2 2 21000; tx_of 3 3 21000;
                tx_of 4 10 21000; tx_of 5 20 21000])).
  generalize [tx_of 1 1 21000; tx_of 2 2 21000; tx_of 3 3 21000;
              tx_of 4 10 21000; tx_of 5 20 21000].
  intros txs. induction txs as [|tx txs IH] using rev_ind.
  - intros j a b Hj. simpl in Hj. lia.
  - rewrite foldl_app. simpl.
    by apply (Push_heap_ordered _ price_less_asym price_less_neg_trans).
Qed.

Lemma Put_Removed_keep_heap_witness :
  heap_ordered txPricedList.price_less (txPricedList.items priced_five)
  ∧ heap_ordered txPricedList.price_less
      (txPricedList.items (txPricedList.Put priced_five (tx_of 6 5 21000)))
  ∧ heap_ordered txPricedList.price_less
      (txPricedList.items (txPricedList.Removed pool_of_four priced_five)).
Proof.
  split; [apply priced_five_heap|].
  destruct (Put_Removed_keep_heap pool_of_four priced_five (tx_of 6 5 21000)
              priced_five_heap)
    as ((Hput & _) & Hremoved & _).
  - by vm_compute.
  - by split.
Defined.

Lemma Underpriced_cheapest_witness :
  heap_ordered txPricedList.price_less (txPricedList.items priced_five)
  ∧ (txPricedList.Underpriced pool_of_four priced_five (tx_of 9 1 21000)
       (λ _, false)).1 = true.
Proof.
  split; [apply priced_five_heap|].
  destruct (Underpriced_cheapest pool_of_four priced_five (tx_of 9 1 21000)
              (λ _, false) priced_five_heap)
    as (_ & _ & Hiff & _).
  apply (proj2 (Hiff eq_refl)). split.
  - exists (tx_of 1 1 21000). split; [|by vm_compute].
    apply (bool_decide_unpack _). by vm_compute.
  - apply (proj1 (Forall_forall
                    (λ e, txPricedList.stale pool_of_four e = false →
                          (GasPrice (tx_of 9 1 21000) ≤ GasPrice e)%Z) _)).
    set (its := txPricedList.items priced_five). vm_compute in its.
    subst its. repeat constructor; intros _; by vm_compute.
Defined.

Lemma Discard_cheapest_witness :
  heap_ordered txPricedList.price_less (txPricedList.items priced_five)
  ∧ ∃ r,
      txPricedList.Discard pool_of_four priced_five 2 (λ _, false) = Some r
      ∧ length r.1 ≤ 2
      ∧ heap_ordered txPricedList.price_less (txPricedList.items r.2).
Proof.
  split; [apply priced_five_heap|].
  destruct (Discard_cheapest pool_of_four priced_five 2 (λ _, false)
              priced_five_heap)
    as [_ Hok].
  destruct (Hok eq_refl) as (r & Hr & Hheap & Hlen & _).
  exists r. split_and!; [done|lia|done].
Defined.

Lemma priced_Cap_threshold_witness :
  heap_ordered txPricedList.price_less (txPricedList.items priced_five)
  ∧ ∀ x, x ∈ txPricedList.items
               (txPricedList.Cap pool_of_four priced_five 5 (λ _, false)).2 →
         (5 ≤ GasPrice x)%Z.
Proof.
  split; [apply priced_five_heap|].
  destruct (priced_Cap_threshold pool_of_four priced_five 5 (λ _, false)
              priced_five_heap)
    as (_ & _ & _ & Hleft).
  intros x Hx. by destruct (Hleft x Hx).
Defined.

Lemma stale_counter_exact_witness :
  txPricedList.stales priced_five
  = Z.of_nat (stale_count pool_of_four (txPricedList.items priced_five))
  ∧ txPricedList.stales
      (txPricedList.Cap pool_of_four priced_five 100 (λ _, false)).2
    = Z.of_nat
        (stale_count pool_of_four
           (txPricedList.items
              (txPricedList.Cap pool_of_four priced_five 100 (λ _, false)).2))
  ∧ ∃ r,
      txPricedList.Discard pool_of_four priced_five 5 (λ _, false) = Some r
      ∧ txPricedList.stales r.2
        = Z.of_nat (stale_count pool_of_four (txPricedList.items r.2)).
Proof.
  split; [by vm_compute|].
  destruct (stale_counter_exact pool_of_four priced_five)
    as (Hcap & Hdiscard & _); [by vm_compute|by vm_compute|].
  split; [apply Hcap|]. by apply Hdiscard.
Defined.

(** *** The journal *)


